(** * Release-window filtering of [weekly_playlist_creator.py]

    A shallow embedding of the parsing, date and selection code of
    [src/weekly_playlist_creator.py], and the properties of the
    release-window filter established on it; then of the requests of a
    run, of the playlist id, and of the week and the name of the playlist.

    Conventions of the model.
    - A Python [str] is a list of Unicode code points.  The character
      classes are those of CPython 3.11 (Unicode 14.0), given as tables:
      [\d] of [re], and the digits [int] reads, are the decimal digits of
      every script (category [Nd]); [\s] and [str.strip] share one set of
      whitespace; [str.lower] maps a character to one character, U+0130
      to two, and a capital sigma to the final or to the plain small
      sigma by what stands around it.  The classes the source spells out,
      [[0-9]] and [[a-zA-Z0-9]], are ASCII.
    - Regular expressions are run by a backtracking matcher with greedy
      repetition and ordered alternatives, as [re] does.
    - The subprocess is seen through what the script reads and writes: the
      reply lines still to be read, and the requests written so far.
    - The wall clock is a stream of readings, one per [datetime.now()].
    - Days are counted as [datetime] counts them, from 0001-01-01 as day 1;
      [strftime] is that of the C locale, with the year not padded. *)

From Stdlib Require Import ZArith Ascii String List Bool Lia.
From stdpp Require Import base list.
Import ListNotations.

Local Open Scope Z_scope.
Local Open Scope list_scope.

(** ** Characters and strings *)

Module Str.

(** A character is a Unicode code point, and a [str] a list of them. *)
Definition char := Z.

Definition str := list char.

(** A character written in the source; all of them are ASCII. *)
Definition ch (a : ascii) : char := Z.of_nat (nat_of_ascii a).

(** A string literal of the source. *)
Definition lit (s : string) : str := map ch (list_ascii_of_string s).

Definition between (lo hi : Z) (c : char) : bool := (lo <=? c) && (c <=? hi).

Definition in_ranges (ranges : list (Z * Z)) (c : char) : bool :=
  existsb (fun '(lo, hi) => between lo hi c) ranges.

(** *** The character tables of CPython 3.11 (Unicode 14.0) *)

(** The first code point of each run of ten decimal digits (category
    [Nd]): the digits of the run have the values 0 to 9 in order. *)
Definition DECIMAL_ZEROS : list Z :=
  [ 48; 1632; 1776; 1984; 2406; 2534; 2662; 2790; 2918; 3046;
    3174; 3302; 3430; 3558; 3664; 3792; 3872; 4160; 4240; 6112;
    6160; 6470; 6608; 6784; 6800; 6992; 7088; 7232; 7248; 42528;
    43216; 43264; 43472; 43504; 43600; 44016; 65296; 66720; 68912; 69734;
    69872; 69942; 70096; 70384; 70736; 70864; 71248; 71360; 71472; 71904;
    72016; 72784; 73040; 73120; 92768; 92864; 93008; 120782; 120792; 120802;
    120812; 120822; 123200; 123632; 125264; 130032 ].

(** The whitespace of [str.isspace], as ranges of code points. *)
Definition WHITESPACE : list (Z * Z) :=
  [ (9, 13); (28, 32); (133, 133); (160, 160); (5760, 5760); (8192, 8202);
    (8232, 8233); (8239, 8239); (8287, 8287); (12288, 12288) ].

(** The simple lowercase mappings: [(first, last, step, delta)] maps
    every [step]-th code point from [first] to [last] to itself plus
    [delta]. *)
Definition LOWER_RUNS : list (Z * Z * Z * Z) :=
  [ (65, 90, 1, 32); (192, 214, 1, 32); (216, 222, 1, 32); (256, 302, 2, 1);
    (306, 310, 2, 1); (313, 327, 2, 1); (330, 374, 2, 1); (376, 376, 1, -121);
    (377, 381, 2, 1); (385, 385, 1, 210); (386, 388, 2, 1); (390, 390, 1, 206);
    (391, 391, 1, 1); (393, 394, 1, 205); (395, 395, 1, 1); (398, 398, 1, 79);
    (399, 399, 1, 202); (400, 400, 1, 203); (401, 401, 1, 1); (403, 403, 1, 205);
    (404, 404, 1, 207); (406, 406, 1, 211); (407, 407, 1, 209); (408, 408, 1, 1);
    (412, 412, 1, 211); (413, 413, 1, 213); (415, 415, 1, 214); (416, 420, 2, 1);
    (422, 422, 1, 218); (423, 423, 1, 1); (425, 425, 1, 218); (428, 428, 1, 1);
    (430, 430, 1, 218); (431, 431, 1, 1); (433, 434, 1, 217); (435, 437, 2, 1);
    (439, 439, 1, 219); (440, 440, 1, 1); (444, 444, 1, 1); (452, 452, 1, 2);
    (453, 453, 1, 1); (455, 455, 1, 2); (456, 456, 1, 1); (458, 458, 1, 2);
    (459, 475, 2, 1); (478, 494, 2, 1); (497, 497, 1, 2); (498, 500, 2, 1);
    (502, 502, 1, -97); (503, 503, 1, -56); (504, 542, 2, 1); (544, 544, 1, -130);
    (546, 562, 2, 1); (570, 570, 1, 10795); (571, 571, 1, 1); (573, 573, 1, -163);
    (574, 574, 1, 10792); (577, 577, 1, 1); (579, 579, 1, -195); (580, 580, 1, 69);
    (581, 581, 1, 71); (582, 590, 2, 1); (880, 882, 2, 1); (886, 886, 1, 1);
    (895, 895, 1, 116); (902, 902, 1, 38); (904, 906, 1, 37); (908, 908, 1, 64);
    (910, 911, 1, 63); (913, 929, 1, 32); (932, 939, 1, 32); (975, 975, 1, 8);
    (984, 1006, 2, 1); (1012, 1012, 1, -60); (1015, 1015, 1, 1); (1017, 1017, 1, -7);
    (1018, 1018, 1, 1); (1021, 1023, 1, -130); (1024, 1039, 1, 80); (1040, 1071, 1, 32);
    (1120, 1152, 2, 1); (1162, 1214, 2, 1); (1216, 1216, 1, 15); (1217, 1229, 2, 1);
    (1232, 1326, 2, 1); (1329, 1366, 1, 48); (4256, 4293, 1, 7264); (4295, 4295, 1, 7264);
    (4301, 4301, 1, 7264); (5024, 5103, 1, 38864); (5104, 5109, 1, 8); (7312, 7354, 1, -3008);
    (7357, 7359, 1, -3008); (7680, 7828, 2, 1); (7838, 7838, 1, -7615); (7840, 7934, 2, 1);
    (7944, 7951, 1, -8); (7960, 7965, 1, -8); (7976, 7983, 1, -8); (7992, 7999, 1, -8);
    (8008, 8013, 1, -8); (8025, 8031, 2, -8); (8040, 8047, 1, -8); (8072, 8079, 1, -8);
    (8088, 8095, 1, -8); (8104, 8111, 1, -8); (8120, 8121, 1, -8); (8122, 8123, 1, -74);
    (8124, 8124, 1, -9); (8136, 8139, 1, -86); (8140, 8140, 1, -9); (8152, 8153, 1, -8);
    (8154, 8155, 1, -100); (8168, 8169, 1, -8); (8170, 8171, 1, -112); (8172, 8172, 1, -7);
    (8184, 8185, 1, -128); (8186, 8187, 1, -126); (8188, 8188, 1, -9); (8486, 8486, 1, -7517);
    (8490, 8490, 1, -8383); (8491, 8491, 1, -8262); (8498, 8498, 1, 28); (8544, 8559, 1, 16);
    (8579, 8579, 1, 1); (9398, 9423, 1, 26); (11264, 11311, 1, 48); (11360, 11360, 1, 1);
    (11362, 11362, 1, -10743); (11363, 11363, 1, -3814); (11364, 11364, 1, -10727); (11367, 11371, 2, 1);
    (11373, 11373, 1, -10780); (11374, 11374, 1, -10749); (11375, 11375, 1, -10783); (11376, 11376, 1, -10782);
    (11378, 11378, 1, 1); (11381, 11381, 1, 1); (11390, 11391, 1, -10815); (11392, 11490, 2, 1);
    (11499, 11501, 2, 1); (11506, 11506, 1, 1); (42560, 42604, 2, 1); (42624, 42650, 2, 1);
    (42786, 42798, 2, 1); (42802, 42862, 2, 1); (42873, 42875, 2, 1); (42877, 42877, 1, -35332);
    (42878, 42886, 2, 1); (42891, 42891, 1, 1); (42893, 42893, 1, -42280); (42896, 42898, 2, 1);
    (42902, 42920, 2, 1); (42922, 42922, 1, -42308); (42923, 42923, 1, -42319); (42924, 42924, 1, -42315);
    (42925, 42925, 1, -42305); (42926, 42926, 1, -42308); (42928, 42928, 1, -42258); (42929, 42929, 1, -42282);
    (42930, 42930, 1, -42261); (42931, 42931, 1, 928); (42932, 42946, 2, 1); (42948, 42948, 1, -48);
    (42949, 42949, 1, -42307); (42950, 42950, 1, -35384); (42951, 42953, 2, 1); (42960, 42960, 1, 1);
    (42966, 42968, 2, 1); (42997, 42997, 1, 1); (65313, 65338, 1, 32); (66560, 66599, 1, 40);
    (66736, 66771, 1, 40); (66928, 66938, 1, 39); (66940, 66954, 1, 39); (66956, 66962, 1, 39);
    (66964, 66965, 1, 39); (68736, 68786, 1, 64); (71840, 71871, 1, 32); (93760, 93791, 1, 32);
    (125184, 125217, 1, 34) ].

(** The cased code points (letters with a case, and the like). *)
Definition CASED : list (Z * Z) :=
  [ (65, 90); (97, 122); (170, 170); (181, 181); (186, 186); (192, 214);
    (216, 246); (248, 442); (444, 447); (452, 659); (661, 696); (704, 705);
    (736, 740); (837, 837); (880, 883); (886, 887); (890, 893); (895, 895);
    (902, 902); (904, 906); (908, 908); (910, 929); (931, 1013); (1015, 1153);
    (1162, 1327); (1329, 1366); (1376, 1416); (4256, 4293); (4295, 4295); (4301, 4301);
    (4304, 4346); (4349, 4351); (5024, 5109); (5112, 5117); (7296, 7304); (7312, 7354);
    (7357, 7359); (7424, 7615); (7680, 7957); (7960, 7965); (7968, 8005); (8008, 8013);
    (8016, 8023); (8025, 8025); (8027, 8027); (8029, 8029); (8031, 8061); (8064, 8116);
    (8118, 8124); (8126, 8126); (8130, 8132); (8134, 8140); (8144, 8147); (8150, 8155);
    (8160, 8172); (8178, 8180); (8182, 8188); (8305, 8305); (8319, 8319); (8336, 8348);
    (8450, 8450); (8455, 8455); (8458, 8467); (8469, 8469); (8473, 8477); (8484, 8484);
    (8486, 8486); (8488, 8488); (8490, 8493); (8495, 8500); (8505, 8505); (8508, 8511);
    (8517, 8521); (8526, 8526); (8544, 8575); (8579, 8580); (9398, 9449); (11264, 11492);
    (11499, 11502); (11506, 11507); (11520, 11557); (11559, 11559); (11565, 11565); (42560, 42605);
    (42624, 42653); (42786, 42887); (42891, 42894); (42896, 42954); (42960, 42961); (42963, 42963);
    (42965, 42969); (42997, 42998); (43000, 43002); (43824, 43866); (43868, 43880); (43888, 43967);
    (64256, 64262); (64275, 64279); (65313, 65338); (65345, 65370); (66560, 66639); (66736, 66771);
    (66776, 66811); (66928, 66938); (66940, 66954); (66956, 66962); (66964, 66965); (66967, 66977);
    (66979, 66993); (66995, 67001); (67003, 67004); (67456, 67456); (67459, 67461); (67463, 67504);
    (67506, 67514); (68736, 68786); (68800, 68850); (71840, 71903); (93760, 93823); (119808, 119892);
    (119894, 119964); (119966, 119967); (119970, 119970); (119973, 119974); (119977, 119980); (119982, 119993);
    (119995, 119995); (119997, 120003); (120005, 120069); (120071, 120074); (120077, 120084); (120086, 120092);
    (120094, 120121); (120123, 120126); (120128, 120132); (120134, 120134); (120138, 120144); (120146, 120485);
    (120488, 120512); (120514, 120538); (120540, 120570); (120572, 120596); (120598, 120628); (120630, 120654);
    (120656, 120686); (120688, 120712); (120714, 120744); (120746, 120770); (120772, 120779); (122624, 122633);
    (122635, 122654); (125184, 125251); (127280, 127305); (127312, 127337); (127344, 127369) ].

(** The case-ignorable code points (marks, modifiers, some
    punctuation). *)
Definition CASE_IGNORABLE : list (Z * Z) :=
  [ (39, 39); (46, 46); (58, 58); (94, 94); (96, 96); (168, 168);
    (173, 173); (175, 175); (180, 180); (183, 184); (688, 879); (884, 885);
    (890, 890); (900, 901); (903, 903); (1155, 1161); (1369, 1369); (1375, 1375);
    (1425, 1469); (1471, 1471); (1473, 1474); (1476, 1477); (1479, 1479); (1524, 1524);
    (1536, 1541); (1552, 1562); (1564, 1564); (1600, 1600); (1611, 1631); (1648, 1648);
    (1750, 1757); (1759, 1768); (1770, 1773); (1807, 1807); (1809, 1809); (1840, 1866);
    (1958, 1968); (2027, 2037); (2042, 2042); (2045, 2045); (2070, 2093); (2137, 2139);
    (2184, 2184); (2192, 2193); (2200, 2207); (2249, 2306); (2362, 2362); (2364, 2364);
    (2369, 2376); (2381, 2381); (2385, 2391); (2402, 2403); (2417, 2417); (2433, 2433);
    (2492, 2492); (2497, 2500); (2509, 2509); (2530, 2531); (2558, 2558); (2561, 2562);
    (2620, 2620); (2625, 2626); (2631, 2632); (2635, 2637); (2641, 2641); (2672, 2673);
    (2677, 2677); (2689, 2690); (2748, 2748); (2753, 2757); (2759, 2760); (2765, 2765);
    (2786, 2787); (2810, 2815); (2817, 2817); (2876, 2876); (2879, 2879); (2881, 2884);
    (2893, 2893); (2901, 2902); (2914, 2915); (2946, 2946); (3008, 3008); (3021, 3021);
    (3072, 3072); (3076, 3076); (3132, 3132); (3134, 3136); (3142, 3144); (3146, 3149);
    (3157, 3158); (3170, 3171); (3201, 3201); (3260, 3260); (3263, 3263); (3270, 3270);
    (3276, 3277); (3298, 3299); (3328, 3329); (3387, 3388); (3393, 3396); (3405, 3405);
    (3426, 3427); (3457, 3457); (3530, 3530); (3538, 3540); (3542, 3542); (3633, 3633);
    (3636, 3642); (3654, 3662); (3761, 3761); (3764, 3772); (3782, 3782); (3784, 3789);
    (3864, 3865); (3893, 3893); (3895, 3895); (3897, 3897); (3953, 3966); (3968, 3972);
    (3974, 3975); (3981, 3991); (3993, 4028); (4038, 4038); (4141, 4144); (4146, 4151);
    (4153, 4154); (4157, 4158); (4184, 4185); (4190, 4192); (4209, 4212); (4226, 4226);
    (4229, 4230); (4237, 4237); (4253, 4253); (4348, 4348); (4957, 4959); (5906, 5908);
    (5938, 5939); (5970, 5971); (6002, 6003); (6068, 6069); (6071, 6077); (6086, 6086);
    (6089, 6099); (6103, 6103); (6109, 6109); (6155, 6159); (6211, 6211); (6277, 6278);
    (6313, 6313); (6432, 6434); (6439, 6440); (6450, 6450); (6457, 6459); (6679, 6680);
    (6683, 6683); (6742, 6742); (6744, 6750); (6752, 6752); (6754, 6754); (6757, 6764);
    (6771, 6780); (6783, 6783); (6823, 6823); (6832, 6862); (6912, 6915); (6964, 6964);
    (6966, 6970); (6972, 6972); (6978, 6978); (7019, 7027); (7040, 7041); (7074, 7077);
    (7080, 7081); (7083, 7085); (7142, 7142); (7144, 7145); (7149, 7149); (7151, 7153);
    (7212, 7219); (7222, 7223); (7288, 7293); (7376, 7378); (7380, 7392); (7394, 7400);
    (7405, 7405); (7412, 7412); (7416, 7417); (7468, 7530); (7544, 7544); (7579, 7679);
    (8125, 8125); (8127, 8129); (8141, 8143); (8157, 8159); (8173, 8175); (8189, 8190);
    (8203, 8207); (8216, 8217); (8228, 8228); (8231, 8231); (8234, 8238); (8288, 8292);
    (8294, 8303); (8305, 8305); (8319, 8319); (8336, 8348); (8400, 8432); (11388, 11389);
    (11503, 11505); (11631, 11631); (11647, 11647); (11744, 11775); (11823, 11823); (12293, 12293);
    (12330, 12333); (12337, 12341); (12347, 12347); (12441, 12446); (12540, 12542); (40981, 40981);
    (42232, 42237); (42508, 42508); (42607, 42610); (42612, 42621); (42623, 42623); (42652, 42655);
    (42736, 42737); (42752, 42785); (42864, 42864); (42888, 42890); (42994, 42996); (43000, 43001);
    (43010, 43010); (43014, 43014); (43019, 43019); (43045, 43046); (43052, 43052); (43204, 43205);
    (43232, 43249); (43263, 43263); (43302, 43309); (43335, 43345); (43392, 43394); (43443, 43443);
    (43446, 43449); (43452, 43453); (43471, 43471); (43493, 43494); (43561, 43566); (43569, 43570);
    (43573, 43574); (43587, 43587); (43596, 43596); (43632, 43632); (43644, 43644); (43696, 43696);
    (43698, 43700); (43703, 43704); (43710, 43711); (43713, 43713); (43741, 43741); (43756, 43757);
    (43763, 43764); (43766, 43766); (43867, 43871); (43881, 43883); (44005, 44005); (44008, 44008);
    (44013, 44013); (64286, 64286); (64434, 64450); (65024, 65039); (65043, 65043); (65056, 65071);
    (65106, 65106); (65109, 65109); (65279, 65279); (65287, 65287); (65294, 65294); (65306, 65306);
    (65342, 65342); (65344, 65344); (65392, 65392); (65438, 65439); (65507, 65507); (65529, 65531);
    (66045, 66045); (66272, 66272); (66422, 66426); (67456, 67461); (67463, 67504); (67506, 67514);
    (68097, 68099); (68101, 68102); (68108, 68111); (68152, 68154); (68159, 68159); (68325, 68326);
    (68900, 68903); (69291, 69292); (69446, 69456); (69506, 69509); (69633, 69633); (69688, 69702);
    (69744, 69744); (69747, 69748); (69759, 69761); (69811, 69814); (69817, 69818); (69821, 69821);
    (69826, 69826); (69837, 69837); (69888, 69890); (69927, 69931); (69933, 69940); (70003, 70003);
    (70016, 70017); (70070, 70078); (70089, 70092); (70095, 70095); (70191, 70193); (70196, 70196);
    (70198, 70199); (70206, 70206); (70367, 70367); (70371, 70378); (70400, 70401); (70459, 70460);
    (70464, 70464); (70502, 70508); (70512, 70516); (70712, 70719); (70722, 70724); (70726, 70726);
    (70750, 70750); (70835, 70840); (70842, 70842); (70847, 70848); (70850, 70851); (71090, 71093);
    (71100, 71101); (71103, 71104); (71132, 71133); (71219, 71226); (71229, 71229); (71231, 71232);
    (71339, 71339); (71341, 71341); (71344, 71349); (71351, 71351); (71453, 71455); (71458, 71461);
    (71463, 71467); (71727, 71735); (71737, 71738); (71995, 71996); (71998, 71998); (72003, 72003);
    (72148, 72151); (72154, 72155); (72160, 72160); (72193, 72202); (72243, 72248); (72251, 72254);
    (72263, 72263); (72273, 72278); (72281, 72283); (72330, 72342); (72344, 72345); (72752, 72758);
    (72760, 72765); (72767, 72767); (72850, 72871); (72874, 72880); (72882, 72883); (72885, 72886);
    (73009, 73014); (73018, 73018); (73020, 73021); (73023, 73029); (73031, 73031); (73104, 73105);
    (73109, 73109); (73111, 73111); (73459, 73460); (78896, 78904); (92912, 92916); (92976, 92982);
    (92992, 92995); (94031, 94031); (94095, 94111); (94176, 94177); (94179, 94180); (110576, 110579);
    (110581, 110587); (110589, 110590); (113821, 113822); (113824, 113827); (118528, 118573); (118576, 118598);
    (119143, 119145); (119155, 119170); (119173, 119179); (119210, 119213); (119362, 119364); (121344, 121398);
    (121403, 121452); (121461, 121461); (121476, 121476); (121499, 121503); (121505, 121519); (122880, 122886);
    (122888, 122904); (122907, 122913); (122915, 122916); (122918, 122922); (123184, 123197); (123566, 123566);
    (123628, 123631); (125136, 125142); (125252, 125259); (127995, 127999); (917505, 917505); (917536, 917631);
    (917760, 917999) ].

(** [\d] of [re] on a [str] pattern, which is also what [int()] reads as
    a digit: a decimal digit of any script. *)
Definition is_digit (c : char) : bool :=
  existsb (fun zero => between zero (zero + 9) c) DECIMAL_ZEROS.

(** [[0-9]]. *)
Definition is_ascii_digit (c : char) : bool := between 48 57 c.

(** [\s] of [re] on a [str] pattern and the characters removed by
    [str.strip()]. *)
Definition is_space (c : char) : bool := in_ranges WHITESPACE c.

(** [[a-zA-Z0-9]]. *)
Definition is_alnum (c : char) : bool :=
  between 97 122 c || between 65 90 c || between 48 57 c.

Definition is_not (x : char) (c : char) : bool := negb (c =? x).

Definition dquote : char := 34.
Definition newline : char := 10.

Fixpoint drop_while (p : char -> bool) (s : str) : str :=
  match s with
  | c :: s' => if p c then drop_while p s' else s
  | [] => []
  end.

Fixpoint take_while (p : char -> bool) (s : str) : str :=
  match s with
  | c :: s' => if p c then c :: take_while p s' else []
  | [] => []
  end.

(** *** [str.lower()] *)

Definition is_cased (c : char) : bool := in_ranges CASED c.

Definition is_case_ignorable (c : char) : bool := in_ranges CASE_IGNORABLE c.

(** The lowercase of one character out of context: one code point, or
    two for U+0130. *)
Definition lower_char (c : char) : str :=
  if c =? 304 then [105; 775]
  else
    match find (fun '(first, last, step, _) =>
                  between first last c && ((c - first) mod step =? 0))
               LOWER_RUNS with
    | Some (_, _, _, delta) => [c + delta]
    | None => [c]
    end.

Definition CAPITAL_SIGMA : char := 931.
Definition SMALL_SIGMA : char := 963.
Definition SMALL_FINAL_SIGMA : char := 962.

(** A capital sigma is final when a cased character comes before it, and
    none after it, case-ignorable characters being skipped on both sides.
    [before] is the text before the sigma, its last character first. *)
Definition final_sigma (before after : str) : bool :=
  match drop_while is_case_ignorable before with
  | c :: _ =>
      is_cased c &&
      match drop_while is_case_ignorable after with
      | [] => true
      | c' :: _ => negb (is_cased c')
      end
  | [] => false
  end.

Fixpoint lower_from (before s : str) : str :=
  match s with
  | [] => []
  | c :: s' =>
      (if c =? CAPITAL_SIGMA then
         [if final_sigma before s' then SMALL_FINAL_SIGMA else SMALL_SIGMA]
       else lower_char c)
      ++ lower_from (c :: before) s'
  end.

(** [str.lower()]. *)
Definition lower (s : str) : str := lower_from [] s.

(** [str.strip()]: leading and trailing whitespace removed. *)
Definition strip (s : str) : str :=
  rev (drop_while is_space (rev (drop_while is_space s))).

Fixpoint str_eqb (a b : str) : bool :=
  match a, b with
  | [], [] => true
  | x :: a', y :: b' => (x =? y) && str_eqb a' b'
  | _, _ => false
  end.

Fixpoint starts_with (a s : str) : bool :=
  match a, s with
  | [], _ => true
  | x :: a', y :: s' => (x =? y) && starts_with a' s'
  | _ :: _, [] => false
  end.

(** [a in s] on strings: [a] occurs in [s] as a contiguous run. *)
Fixpoint contains (a s : str) : bool :=
  starts_with a s ||
  match s with
  | [] => false
  | _ :: s' => contains a s'
  end.

(** [s.split(sep)] for a one-character separator. *)
Fixpoint split (sep : char) (s : str) : list str :=
  match s with
  | [] => [[]]
  | c :: s' =>
      if c =? sep then [] :: split sep s'
      else match split sep s' with
           | l :: ls => (c :: l) :: ls
           | [] => [[c]]
           end
  end.

(** The value of a decimal digit: its place in its run of ten. *)
Definition digit_value (c : char) : Z :=
  match find (fun zero => between zero (zero + 9) c) DECIMAL_ZEROS with
  | Some zero => c - zero
  | None => c - 48
  end.

(** [int(s)] for the texts the date patterns capture: decimal digits,
    possibly after a blank. *)
Definition int (s : str) : Z :=
  fold_left (fun acc c => 10 * acc + digit_value c) (strip s) 0.

End Str.
Import Str.

(** ** Regular expressions *)

Module Re.

(** The fragment of [re] syntax used by the script and by [strptime]:
    every repetition is over a single character class. *)
Inductive regex :=
| Eps
| Chr (c : char)
| Cls (p : char -> bool)
| Many (p : char -> bool)
| Seq (a b : regex)
| Alt (a b : regex)
| Grp (n : nat) (a : regex).

(** Captured groups, most recent first. *)
Definition groups := list (nat * str).

Fixpoint group (n : nat) (g : groups) : option str :=
  match g with
  | [] => None
  | (i, m) :: g' => if Nat.eqb i n then Some m else group n g'
  end.

(** Greedy repetition: the longest run first, then shorter ones while the
    rest of the pattern fails. *)
Fixpoint many {R} (p : char -> bool) (s : str)
    (k : str -> str -> option R) : option R :=
  match s with
  | c :: s' =>
      if p c then
        match many p s' (fun m r => k (c :: m) r) with
        | Some x => Some x
        | None => k [] s
        end
      else k [] s
  | [] => k [] []
  end.

(** [run r s g k]: match [r] at the start of [s]; the continuation [k]
    stands for the rest of the pattern and receives the text matched, the
    text left and the groups.  A failing continuation makes the matcher
    backtrack into [r]. *)
Fixpoint run {R} (r : regex) (s : str) (g : groups)
    (k : str -> str -> groups -> option R) : option R :=
  match r with
  | Eps => k [] s g
  | Chr c =>
      match s with
      | x :: s' => if (x =? c) then k [x] s' g else None
      | [] => None
      end
  | Cls p =>
      match s with
      | x :: s' => if p x then k [x] s' g else None
      | [] => None
      end
  | Many p => many p s (fun m rest => k m rest g)
  | Seq a b =>
      run a s g (fun m1 s1 g1 =>
        run b s1 g1 (fun m2 s2 g2 => k (m1 ++ m2) s2 g2))
  | Alt a b =>
      match run a s g k with
      | Some x => Some x
      | None => run b s g k
      end
  | Grp n a => run a s g (fun m s' g' => k m s' ((n, m) :: g'))
  end.

(** [pattern.match(s)]: the text matched, the text after it, the groups. *)
Definition match_prefix (r : regex) (s : str) : option (str * str * groups) :=
  run r s [] (fun m rest g => Some (m, rest, g)).

Definition plus (p : char -> bool) : regex := Seq (Cls p) (Many p).

Fixpoint times (n : nat) (p : char -> bool) : regex :=
  match n with
  | O => Eps
  | S O => Cls p
  | S n' => Seq (Cls p) (times n' p)
  end.

Fixpoint word (s : str) : regex :=
  match s with
  | [] => Eps
  | [c] => Chr c
  | c :: s' => Seq (Chr c) (word s')
  end.

Fixpoint seq (rs : list regex) : regex :=
  match rs with
  | [] => Eps
  | [r] => r
  | r :: rs' => Seq r (seq rs')
  end.

Fixpoint alts (rs : list regex) : regex :=
  match rs with
  | [] => Cls (fun _ => false)
  | [r] => r
  | r :: rs' => Alt r (alts rs')
  end.

(** What a match is, without the search order: [matches r m g g'] when
    [r] can match the text [m], turning the groups [g] into [g']. *)
Inductive matches : regex -> str -> groups -> groups -> Prop :=
| M_Eps g : matches Eps [] g g
| M_Chr c g : matches (Chr c) [c] g g
| M_Cls p c g : p c = true -> matches (Cls p) [c] g g
| M_Many p m g : forallb p m = true -> matches (Many p) m g g
| M_Seq a b m1 m2 g0 g1 g2 :
    matches a m1 g0 g1 -> matches b m2 g1 g2 ->
    matches (Seq a b) (m1 ++ m2) g0 g2
| M_AltL a b m g g' : matches a m g g' -> matches (Alt a b) m g g'
| M_AltR a b m g g' : matches b m g g' -> matches (Alt a b) m g g'
| M_Grp n a m g g' : matches a m g g' -> matches (Grp n a) m g ((n, m) :: g').

End Re.
Import Re.

(** ** Track lines *)

Record Track := mkTrack {
  track_title : str;
  track_artist : str;
  track_release_date : str;
  track_id : str
}.

(** The date alternatives of the pattern:
    [[0-9]{4}-[0-9]{2}-[0-9]{2}|[0-9]{4}-[0-9]{2}|[0-9]{4}|Unknown]. *)
Definition date_token_re : regex :=
  alts [ seq [times 4 is_ascii_digit; Chr (ch "-"); times 2 is_ascii_digit;
              Chr (ch "-"); times 2 is_ascii_digit];
         seq [times 4 is_ascii_digit; Chr (ch "-"); times 2 is_ascii_digit];
         times 4 is_ascii_digit;
         word (lit "Unknown") ].

(** The pattern up to, and without, [ID:]. *)
Definition track_line_head : regex :=
  seq [ plus is_digit; Chr (ch "."); Many is_space;
        Chr dquote; Grp 1 (plus (is_not dquote)); Chr dquote;
        plus is_space; word (lit "by"); plus is_space;
        Grp 2 (plus (is_not (ch "("))); Many is_space;
        Chr (ch "("); plus (is_not (ch ")")); Chr (ch ")");
        Many is_space; Chr (ch "-"); Many is_space;
        word (lit "Released:"); Many is_space;
        Grp 3 date_token_re;
        Many is_space; Chr (ch "-"); Many is_space ].

(** The whole pattern of [extract_track_info_with_dates]. *)
Definition track_line_re : regex :=
  Seq track_line_head
      (Seq (word (lit "ID:")) (Seq (Many is_space) (Grp 4 (plus is_alnum)))).

(** [re.search(pattern, line)] followed by [match.groups()]: the pattern is
    anchored by [^], so the only position tried is the start of the line. *)
Definition search_track_line (line : str) : option (str * str * str * str) :=
  match match_prefix track_line_re line with
  | Some (_, _, g) =>
      match group 1 g, group 2 g, group 3 g, group 4 g with
      | Some title, Some artist, Some release_date, Some tid =>
          Some (title, artist, release_date, tid)
      | _, _, _, _ => None
      end
  | None => None
  end.

Definition track_of_line (line : str) : option Track :=
  match search_track_line line with
  | Some (title, artist, release_date, tid) =>
      Some (mkTrack (strip title) (strip artist) (strip release_date) (strip tid))
  | None => None
  end.

Definition extract_track_info_with_dates (search_text : str) : list Track :=
  fold_left
    (fun tracks line =>
       match track_of_line line with
       | Some t => tracks ++ [t]
       | None => tracks
       end)
    (split newline search_text) [].

(** A result line as the catalog prints it. *)
Definition result_line (index title artist duration date tid : string) : str :=
  lit index ++ lit ". " ++ [dquote] ++ lit title ++ [dquote] ++ lit " by " ++
  lit artist ++ lit " (" ++ lit duration ++ lit ") - Released: " ++ lit date ++
  lit " - ID: " ++ lit tid.

(** ** Dates *)

(** A naive [datetime]. *)
Record datetime := mkDatetime {
  year : Z; month : Z; day : Z;
  hour : Z; minute : Z; second : Z; microsecond : Z
}.

Definition is_leap (y : Z) : bool :=
  (y mod 4 =? 0) && (negb (y mod 100 =? 0) || (y mod 400 =? 0)).

Definition days_in_month (y m : Z) : Z :=
  if m =? 2 then (if is_leap y then 29 else 28)
  else if (m =? 4) || (m =? 6) || (m =? 9) || (m =? 11) then 30
  else 31.

(** The dates [datetime] can hold: years 1 to 9999. *)
Definition valid_date (y m d : Z) : bool :=
  (1 <=? y) && (y <=? 9999) && (1 <=? m) && (m <=? 12) &&
  (1 <=? d) && (d <=? days_in_month y m).

Definition midnight (y m d : Z) : datetime := mkDatetime y m d 0 0 0 0.

(** Comparison of two naive datetimes: field by field, most significant
    first. *)
Definition datetime_compare (a b : datetime) : comparison :=
  match year a ?= year b with Eq =>
  match month a ?= month b with Eq =>
  match day a ?= day b with Eq =>
  match hour a ?= hour b with Eq =>
  match minute a ?= minute b with Eq =>
  match second a ?= second b with Eq =>
    microsecond a ?= microsecond b
  | c => c end | c => c end | c => c end | c => c end | c => c end | c => c end.

(** [a >= b]. *)
Definition datetime_ge (a b : datetime) : bool :=
  match datetime_compare a b with Lt => false | _ => true end.

(** The chronological order, as a relation. *)
Definition fields (a : datetime) : list Z :=
  [year a; month a; day a; hour a; minute a; second a; microsecond a].

Fixpoint lex_le (a b : list Z) : Prop :=
  match a, b with
  | x :: a', y :: b' => x < y \/ (x = y /\ lex_le a' b')
  | _, _ => True
  end.

Definition not_before (a b : datetime) : Prop := lex_le (fields b) (fields a).

Inductive exn := OverflowError | BadReply.

Inductive result (A : Type) :=
| Ok (a : A)
| Raise (e : exn).
Arguments Ok {A} a.
Arguments Raise {A} e.

(** The day before, or [OverflowError] before 0001-01-01. *)
Definition previous_day (d : datetime) : result datetime :=
  if 1 <? day d then
    Ok (mkDatetime (year d) (month d) (day d - 1)
                   (hour d) (minute d) (second d) (microsecond d))
  else if 1 <? month d then
    Ok (mkDatetime (year d) (month d - 1) (days_in_month (year d) (month d - 1))
                   (hour d) (minute d) (second d) (microsecond d))
  else if 1 <? year d then
    Ok (mkDatetime (year d - 1) 12 31
                   (hour d) (minute d) (second d) (microsecond d))
  else Raise OverflowError.

(** [d - timedelta(days=n)]. *)
Fixpoint minus_days (n : nat) (d : datetime) : result datetime :=
  match n with
  | O => Ok d
  | S n' => match previous_day d with
            | Ok d' => minus_days n' d'
            | Raise e => Raise e
            end
  end.

(** *** [datetime.strptime(s, '%Y-%m-%d')] *)

Inductive ValueError := value_error.

(** The directives of [_strptime]:
    [%Y] is [\d\d\d\d], [%m] is [1[0-2]|0[1-9]|[1-9]],
    [%d] is [3[0-1]|[1-2]\d|0[1-9]|[1-9]| [1-9]]. *)
Definition directive_Y : regex := times 4 is_digit.

Definition directive_m : regex :=
  alts [ Seq (Chr (ch "1")) (Cls (between 48 50));
         Seq (Chr (ch "0")) (Cls (between 49 57));
         Cls (between 49 57) ].

Definition directive_d : regex :=
  alts [ Seq (Chr (ch "3")) (Cls (between 48 49));
         Seq (Cls (between 49 50)) (Cls is_digit);
         Seq (Chr (ch "0")) (Cls (between 49 57));
         Cls (between 49 57);
         Seq (Chr (ch " ")) (Cls (between 49 57)) ].

Definition format_Ymd : regex :=
  Seq (Grp 1 directive_Y)
      (Seq (Chr (ch "-")) (Seq (Grp 2 directive_m) (Seq (Chr (ch "-")) (Grp 3 directive_d)))).

(** The format is matched at the start of the text; text left over, a year
    0 or a day the month does not have raise [ValueError]. *)
Definition strptime_Ymd (s : str) : ValueError + datetime :=
  match match_prefix format_Ymd s with
  | Some (_, [], g) =>
      match group 1 g, group 2 g, group 3 g with
      | Some y, Some m, Some d =>
          if valid_date (int y) (int m) (int d)
          then inr (midnight (int y) (int m) (int d))
          else inl value_error
      | _, _, _ => inl value_error
      end
  | Some (_, _ :: _, _) => inl value_error
  | None => inl value_error
  end.

Definition parse_spotify_date (date_str : str) : option datetime :=
  let date_str := strip date_str in
  if str_eqb date_str (lit "Unknown") then None
  else
    let attempt :=
      if Nat.eqb (length date_str) 10 then Some (strptime_Ymd date_str)
      else if Nat.eqb (length date_str) 7 then Some (strptime_Ymd (date_str ++ lit "-01"))
      else if Nat.eqb (length date_str) 4 then Some (strptime_Ymd (date_str ++ lit "-01-01"))
      else None in
    match attempt with
    | Some (inr d) => Some d
    | Some (inl value_error) => None
    | None => None
    end.

Definition is_recent_release (release_date_str : str) (cutoff_date : datetime) : bool :=
  match parse_spotify_date release_date_str with
  | None => false
  | Some release_date => datetime_ge release_date cutoff_date
  end.

(** ** The subprocess and the clock *)

Inductive Params :=
| SearchSpotify (query type : str) (limit : Z)
| AddTracksToPlaylist (playlistId : str) (trackIds : list str).

Record Request := mkRequest {
  jsonrpc_id : Z;
  method : str;
  params : Params
}.

(** What a reply line amounts to for the code that reads it.
    - [Undecodable]: not JSON; [send_mcp_request] returns [None].
    - [NoResult]: JSON that is falsy, or an object, an array or a string
      in which ["result"] does not occur.
    - [ResultText text]: [result.content[0].text] is the string [text].
    - [Malformed]: JSON on which the code that reads the reply raises: a
      number other than zero or [true], for which [in] raises; a
      ["result"] whose subscripts raise; a text the reader cannot use (for
      a search any text that is not a string, which has no [split]; for
      the reply to the add request a text for which [in] raises). *)
Inductive Response :=
| Undecodable
| NoResult
| ResultText (text : str)
| Malformed.

Record World := mkWorld {
  clock : nat -> datetime;    (* successive readings of [datetime.now()] *)
  reads : nat;                (* readings taken so far *)
  pending : list Response;    (* reply lines not read yet *)
  written : list Request      (* requests written so far *)
}.

Definition M (A : Type) : Type := World -> result A * World.

Definition ret {A} (a : A) : M A := fun w => (Ok a, w).

Definition raise {A} (e : exn) : M A := fun w => (Raise e, w).

Definition bind {A B} (m : M A) (f : A -> M B) : M B :=
  fun w => match m w with
           | (Ok a, w') => f a w'
           | (Raise e, w') => (Raise e, w')
           end.

Notation "x <- m ;; k" := (bind m (fun x => k))
  (at level 100, m at next level, right associativity, only parsing).

Definition datetime_now : M datetime :=
  fun w => (Ok (clock w (reads w)),
            mkWorld (clock w) (S (reads w)) (pending w) (written w)).

Definition get_cutoff_date : M datetime :=
  now <- datetime_now ;;
  match minus_days 7 now with
  | Ok d => ret d
  | Raise e => raise e
  end.

(** One request written, one reply line read; at end of input the line is
    empty, which is not JSON. *)
Definition send_mcp_request (request_id : Z) (method : str) (params : Params)
  : M Response :=
  fun w =>
    let written' := written w ++ [mkRequest request_id method params] in
    match pending w with
    | [] => (Ok Undecodable, mkWorld (clock w) (reads w) [] written')
    | r :: rest => (Ok r, mkWorld (clock w) (reads w) rest written')
    end.

(** ** Selection *)

Definition FAVORITE_ARTISTS : list str :=
  [ lit "Lil Tecca"; lit "Playboi Carti"; lit "Travis Scott"; lit "Don Toliver";
    lit "Lil Uzi Vert"; lit "Future"; lit "Metro Boomin"; lit "21 Savage";
    lit "PlaqueBoyMax"; lit "4batz" ].

(** [artist.lower() in track['artist'].lower()]. *)
Definition by_artist (artist : str) (track : Track) : bool :=
  contains (lower artist) (lower (track_artist track)).

(** [any(t['id'] == track['id'] for t in found_tracks)]. *)
Definition already_found (found_tracks : list Track) (track : Track) : bool :=
  existsb (fun t => str_eqb (track_id t) (track_id track)) found_tracks.

(** The body of the loop over the tracks of one reply (lines 162-169 of
    [search_artist_tracks]). *)
Definition consider_track (artist : str) (cutoff_date : datetime)
    (found_tracks : list Track) (track : Track) : list Track :=
  if by_artist artist track then
    if is_recent_release (track_release_date track) cutoff_date then
      if negb (already_found found_tracks track) then found_tracks ++ [track]
      else found_tracks
    else found_tracks
  else found_tracks.

Definition consider_tracks (artist : str) (cutoff_date : datetime)
    (found_tracks tracks : list Track) : list Track :=
  fold_left (consider_track artist cutoff_date) tracks found_tracks.

Definition search_queries (artist : str) : list str :=
  [ lit "artist:" ++ artist; artist; artist ++ lit " 2025" ].

(** The loop over the queries (lines 147-169): one request per query, the
    request id incremented each time, the tracks of a reply that has a
    result considered in order. *)
Fixpoint search_loop (artist : str) (cutoff_date : datetime) (queries : list str)
    (found_tracks : list Track) (request_id : Z) : M (list Track * Z) :=
  match queries with
  | [] => ret (found_tracks, request_id)
  | query :: queries' =>
      search_response <-
        send_mcp_request request_id (lit "tools/call")
                         (SearchSpotify query (lit "track") 50) ;;
      let request_id := request_id + 1 in
      match search_response with
      | ResultText search_text =>
          let tracks := extract_track_info_with_dates search_text in
          search_loop artist cutoff_date queries'
                      (consider_tracks artist cutoff_date found_tracks tracks)
                      request_id
      | Malformed => raise BadReply
      | Undecodable | NoResult =>
          search_loop artist cutoff_date queries' found_tracks request_id
      end
  end.

Definition search_artist_tracks (request_id : Z) (artist : str) : M (list Track * Z) :=
  cutoff_date <- get_cutoff_date ;;
  r <- search_loop artist cutoff_date (search_queries artist) [] request_id ;;
  ret (take 3 (fst r), snd r).

(** The per-artist selection on a given list of candidates: the loop body
    over the candidates, then the slice [[:3]]. *)
Definition select_for_artist (candidates : list Track) (artist : str)
    (cutoff_date : datetime) : list Track :=
  take 3 (consider_tracks artist cutoff_date [] candidates).

(** ** The run: searching every artist, then filling the playlist *)

(** Step 3 of [create_weekly_playlist] (lines 258-273): the loop over the
    artists. *)
Fixpoint collect_tracks (artists : list str) (all_tracks : list Track)
    (track_ids_to_add : list str) (request_id : Z)
  : M (list Track * list str * Z) :=
  match artists with
  | [] => ret (all_tracks, track_ids_to_add, request_id)
  | artist :: artists' =>
      r <- search_artist_tracks request_id artist ;;
      let '(tracks, request_id) := r in
      let '(all_tracks, track_ids_to_add) :=
        fold_left (fun '(a, i) track => (a ++ [track], i ++ [track_id track]))
                  tracks (all_tracks, track_ids_to_add) in
      collect_tracks artists' all_tracks track_ids_to_add request_id
  end.

(** Step 4 (lines 276-304): the ids go to [addTracksToPlaylist] when there
    are any, and the reply is read: its text is taken out when it has a
    result, which raises on a malformed reply; what the text says only
    changes what is printed. *)
Definition add_tracks (playlist_id : str) (track_ids_to_add : list str)
    (request_id : Z) : M (option Response) :=
  match track_ids_to_add with
  | [] => ret None
  | _ :: _ =>
      add_response <-
        send_mcp_request request_id (lit "tools/call")
                         (AddTracksToPlaylist playlist_id track_ids_to_add) ;;
      match add_response with
      | Malformed => raise BadReply
      | Undecodable | NoResult | ResultText _ => ret (Some add_response)
      end
  end.

(** Steps 3 and 4 together, from the playlist id step 2 obtained. *)
Definition fill_playlist (artists : list str) (playlist_id : str) (request_id : Z)
  : M (list str) :=
  r <- collect_tracks artists [] [] request_id ;;
  let '(_, track_ids_to_add, request_id) := r in
  _ <- add_tracks playlist_id track_ids_to_add request_id ;;
  ret track_ids_to_add.

(** The ids handed to the playlist collaborator by the requests written. *)
Definition ids_handed_over (requests : list Request) : list (list str) :=
  flat_map (fun rq => match params rq with
                      | AddTracksToPlaylist _ ids => [ids]
                      | SearchSpotify _ _ _ => []
                      end) requests.

Definition fixed_clock (now : datetime) : nat -> datetime := fun _ => now.

Definition world_at (now : datetime) (replies : list Response) : World :=
  mkWorld (fixed_clock now) 0 replies [].


(** ** Notions used to state the properties *)

(** The candidates a reply contributes. *)
Definition reply_tracks (r : Response) : list Track :=
  match r with
  | ResultText search_text => extract_track_info_with_dates search_text
  | _ => []
  end.

(** The candidates of the replies read for one artist, in reading order;
    a malformed reply makes the reading fail. *)
Fixpoint candidates_read (replies : list Response) : result (list Track) :=
  match replies with
  | [] => Ok []
  | Malformed :: _ => Raise BadReply
  | r :: replies' =>
      match candidates_read replies' with
      | Ok tracks => Ok (reply_tracks r ++ tracks)
      | Raise e => Raise e
      end
  end.

(** The cutoff the next call of [get_cutoff_date] computes. *)
Definition cutoff_seen (w : World) : result datetime :=
  minus_days 7 (clock w (reads w)).

(** The three replies the next call of [search_artist_tracks] reads. *)
Definition replies_seen (w : World) : list Response := take 3 (pending w).

(** The world lets one call of [search_artist_tracks] return. *)
Definition served (w : World) : bool :=
  match cutoff_seen w, candidates_read (replies_seen w) with
  | Ok _, Ok _ => true
  | _, _ => false
  end.

(** The tracks a call returned, or what it raised. *)
Definition selected (r : result (list Track * Z) * World) : result (list Track) :=
  match fst r with
  | Ok (tracks, _) => Ok tracks
  | Raise e => Raise e
  end.

(** A candidate passes the artist and the recency tests. *)
Definition passes (artist : str) (cutoff_date : datetime) (t : Track) : Prop :=
  by_artist artist t = true /\
  is_recent_release (track_release_date t) cutoff_date = true.

(** Text of ASCII characters only. *)
Definition is_ascii (s : str) : Prop := forallb (between 0 127) s = true.

(** The same character, up to the case of an ASCII letter. *)
Definition same_letter (x y : char) : Prop :=
  x = y \/ (65 <= x <= 90 /\ y = x + 32) \/ (65 <= y <= 90 /\ x = y + 32).

(** Two texts are equal up to the case of their ASCII letters. *)
Definition same_ignoring_case (a b : str) : Prop := Forall2 same_letter a b.

(** [q] occurs in [s] as a contiguous run, up to the case of letters. *)
Definition occurs_ignoring_case (q s : str) : Prop :=
  exists pre mid post, s = pre ++ mid ++ post /\ same_ignoring_case q mid.

(** The lowercase of an ASCII character. *)
Definition ascii_lower (c : char) : char := if between 65 90 c then c + 32 else c.

(** The shapes of date tokens. *)
Definition all_digits (s : str) : Prop := forallb is_ascii_digit s = true.

(** The text [%Y] can match: four decimal digits, of any script. *)
Definition year_text (s : str) : Prop :=
  length s = 4%nat /\ forallb is_digit s = true.

Definition shape_year (s : str) : Prop :=
  length s = 4%nat /\ all_digits s.

(** Two decimal digits. *)
Definition two_digits (s : str) : Prop := length s = 2%nat /\ all_digits s.

Definition shape_year_month (s : str) : Prop :=
  exists y m, s = y ++ lit "-" ++ m /\ shape_year y /\ two_digits m.

Definition shape_full (s : str) : Prop :=
  exists y m d, s = y ++ lit "-" ++ m ++ lit "-" ++ d /\ shape_year y /\
                two_digits m /\ two_digits d.

(** The character after a run, if any, is not of the class of the run. *)
Definition stops (p : char -> bool) (rest : str) : Prop :=
  match rest with
  | [] => True
  | c :: _ => p c = false
  end.

(** A line as the catalog prints it, from its fields; [tail] is what
    comes after [ID: ]. *)
Definition printed_line (index title artist duration date tail : str) : str :=
  index ++ lit ". " ++ [dquote] ++ title ++ [dquote] ++ lit " by " ++
  artist ++ lit " (" ++ duration ++ lit ") - Released: " ++ date ++
  lit " - ID: " ++ tail.


(** The value of a text of decimal digits. *)
Definition number (s : str) : Z :=
  fold_left (fun acc c => 10 * acc + digit_value c) s 0.

(** The selection of an artist, for some candidates and cutoff. *)
Definition selection_of (artist : str) (sel : list Track) : Prop :=
  exists candidates cutoff_date, sel = select_for_artist candidates artist cutoff_date.

(** The texts [%m] and [%d] can match. *)
Definition month_text (M : str) : Prop :=
  match M with
  | [a] => between 49 57 a = true
  | [a; b] => (a = ch "1" /\ between 48 50 b = true)
              \/ (a = ch "0" /\ between 49 57 b = true)
  | _ => False
  end.

Definition day_text (D : str) : Prop :=
  match D with
  | [a] => between 49 57 a = true
  | [a; b] => (a = ch "3" /\ between 48 49 b = true)
              \/ (between 49 50 a = true /\ is_digit b = true)
              \/ (a = ch "0" /\ between 49 57 b = true)
              \/ (a = ch " " /\ between 49 57 b = true)
  | _ => False
  end.

(** The date a token denotes, when it is a date of the calendar. *)
Definition date_if_valid (y m d : Z) : option datetime :=
  if valid_date y m d then Some (midnight y m d) else None.

(** The shapes of date the catalog is expected to send. *)
Definition expected_shape (s : str) : Prop :=
  shape_full s \/ shape_year_month s \/ shape_year s.

(** ** Notions used to state the properties of the run *)

(** The search requests for a list of queries, numbered from
    [request_id]. *)
Fixpoint query_requests (request_id : Z) (queries : list str) : list Request :=
  match queries with
  | [] => []
  | query :: queries' =>
      mkRequest request_id (lit "tools/call") (SearchSpotify query (lit "track") 50)
      :: query_requests (request_id + 1) queries'
  end.

(** How many of the next [n] replies are read: all of them, or those up
    to the first malformed one, which is read too. *)
Fixpoint replies_read (n : nat) (replies : list Response) : nat :=
  match n with
  | O => O
  | S n' =>
      match replies with
      | Malformed :: _ => 1%nat
      | _ :: replies' => S (replies_read n' replies')
      | [] => S (replies_read n' [])
      end
  end.

(** The numbers [first], [first + 1], ... ([n] of them). *)
Fixpoint numbers_from (first : Z) (n : nat) : list Z :=
  match n with
  | O => []
  | S n' => first :: numbers_from (first + 1) n'
  end.

(** The candidate passes both tests, as a boolean. *)
Definition passesb (artist : str) (cutoff_date : datetime) (t : Track) : bool :=
  by_artist artist t && is_recent_release (track_release_date t) cutoff_date.

(** The selection the [i]-th artist of a run gets: from the clock reading
    and the three replies that are its own. *)
Definition selection_at (w : World) (i : nat) (artist : str) (sel : list Track) : Prop :=
  exists candidates cutoff_date,
    minus_days 7 (clock w (reads w + i)) = Ok cutoff_date
    /\ candidates_read (take 3 (drop (3 * i) (pending w))) = Ok candidates
    /\ sel = select_for_artist candidates artist cutoff_date.

(** The search requests of a run over [artists], numbered from
    [request_id]: three for each artist. *)
Fixpoint artist_requests (request_id : Z) (artists : list str) : list Request :=
  match artists with
  | [] => []
  | artist :: artists' =>
      query_requests request_id (search_queries artist)
      ++ artist_requests (request_id + 3) artists'
  end.

(** The request that hands the ids over, when there are any. *)
Definition add_request (playlist_id : str) (track_ids_to_add : list str)
    (request_id : Z) : list Request :=
  match track_ids_to_add with
  | [] => []
  | _ :: _ => [mkRequest request_id (lit "tools/call")
                 (AddTracksToPlaylist playlist_id track_ids_to_add)]
  end.

(** ** The playlist id *)

(** [re.search] for a pattern without [^]: the start positions are tried
    from left to right, the end of the text included, and the first
    position where the pattern matches gives the groups. *)
Fixpoint re_search (r : regex) (s : str) : option groups :=
  match match_prefix r s with
  | Some (_, _, g) => Some g
  | None =>
      match s with
      | [] => None
      | _ :: s' => re_search r s'
      end
  end.

Definition playlist_label : str := lit "Playlist ID: ".

(** [Playlist ID: ([a-zA-Z0-9]+)]. *)
Definition playlist_id_re : regex :=
  Seq (word playlist_label) (Grp 1 (plus is_alnum)).

(** [match.group(1) if match else None]. *)
Definition extract_playlist_id (response_text : str) : option str :=
  match re_search playlist_id_re response_text with
  | Some g => group 1 g
  | None => None
  end.

(** The label followed by a letter or digit starts at the head of [s]. *)
Definition id_starts (s : str) : Prop :=
  exists c after, s = playlist_label ++ c :: after /\ is_alnum c = true.

(** ** The week and the name of the playlist *)

(** [_days_before_year]: the days before January 1 of [y]. *)
Definition days_before_year (y : Z) : Z :=
  let y := y - 1 in
  y * 365 + y / 4 - y / 100 + y / 400.

(** [_DAYS_BEFORE_MONTH], with its placeholder at index 0. *)
Definition DAYS_BEFORE_MONTH : list Z :=
  [-1; 0; 31; 59; 90; 120; 151; 181; 212; 243; 273; 304; 334].

(** [_days_before_month]: the days of [y] before the first of month [m]. *)
Definition days_before_month (y m : Z) : Z :=
  nth (Z.to_nat m) DAYS_BEFORE_MONTH 0
  + (if (2 <? m) && is_leap y then 1 else 0).

(** [toordinal()]: 0001-01-01 is day 1. *)
Definition toordinal (d : datetime) : Z :=
  days_before_year (year d) + days_before_month (year d) (month d) + day d.

(** [weekday()]: Monday is 0 and Sunday 6. *)
Definition weekday (d : datetime) : Z := (toordinal d + 6) mod 7.

(** The ordinal of 9999-12-31. *)
Definition MAXORDINAL : Z := 3652059.

(** The day after, or [OverflowError] after 9999-12-31. *)
Definition next_day (d : datetime) : result datetime :=
  if day d <? days_in_month (year d) (month d) then
    Ok (mkDatetime (year d) (month d) (day d + 1)
                   (hour d) (minute d) (second d) (microsecond d))
  else if month d <? 12 then
    Ok (mkDatetime (year d) (month d + 1) 1
                   (hour d) (minute d) (second d) (microsecond d))
  else if year d <? 9999 then
    Ok (mkDatetime (year d + 1) 1 1
                   (hour d) (minute d) (second d) (microsecond d))
  else Raise OverflowError.

(** [d + timedelta(days=n)]. *)
Fixpoint plus_days (n : nat) (d : datetime) : result datetime :=
  match n with
  | O => Ok d
  | S n' => match next_day d with
            | Ok d' => plus_days n' d'
            | Raise e => Raise e
            end
  end.

Definition get_week_dates : M (datetime * datetime) :=
  today <- datetime_now ;;
  match minus_days (Z.to_nat (weekday today)) today with
  | Raise e => raise e
  | Ok start_of_week =>
      match plus_days 6 start_of_week with
      | Raise e => raise e
      | Ok end_of_week => ret (start_of_week, end_of_week)
      end
  end.

(** [%b] in the C locale, which is the locale of [LC_TIME] when the
    program sets none. *)
Definition month_abbr (m : Z) : str :=
  nth (Z.to_nat m)
      [ []; lit "Jan"; lit "Feb"; lit "Mar"; lit "Apr"; lit "May"; lit "Jun";
        lit "Jul"; lit "Aug"; lit "Sep"; lit "Oct"; lit "Nov"; lit "Dec" ] [].

Definition digit_char (n : Z) : char := 48 + n.

(** [%d]: two digits. *)
Definition two_digit (n : Z) : str := [digit_char (n / 10); digit_char (n mod 10)].

(** The decimal numeral of [n], without padding: what [%Y] gives with
    the C library of Linux. *)
Fixpoint decimal_digits (fuel : nat) (n : Z) : str :=
  match fuel with
  | O => []
  | S fuel' =>
      if n <? 10 then [digit_char n]
      else decimal_digits fuel' (n / 10) ++ [digit_char (n mod 10)]
  end.

Definition decimal (n : Z) : str := decimal_digits (S (Z.to_nat n)) n.

(** [strftime('%b %d')] and [strftime('%b %d, %Y')]. *)
Definition strftime_b_d (d : datetime) : str :=
  month_abbr (month d) ++ lit " " ++ two_digit (day d).

Definition strftime_b_d_Y (d : datetime) : str :=
  month_abbr (month d) ++ lit " " ++ two_digit (day d) ++ lit ", "
  ++ decimal (year d).

Definition generate_playlist_name : M str :=
  r <- get_week_dates ;;
  let '(start_week, end_week) := r in
  ret (lit "Weekly New Drops - " ++ strftime_b_d start_week ++ lit " to "
       ++ strftime_b_d_Y end_week).

(** ** Notions used to state the properties of the calendar *)

(** The date is one [datetime] can hold. *)
Definition valid (d : datetime) : Prop :=
  valid_date (year d) (month d) (day d) = true.

Definition time_of (d : datetime) : Z * Z * Z * Z :=
  (hour d, minute d, second d, microsecond d).

(** Same day of the calendar, whatever the time. *)
Definition same_day (a b : datetime) : Prop :=
  year a = year b /\ month a = month b /\ day a = day b.

(** The next reading of the clock. *)
Definition now_seen (w : World) : datetime := clock w (reads w).


(** ** Sample data *)

Definition good_vibes_line : str :=
  result_line "1" "Good Vibes" "Future" "3:20" "2025-01-01" "abc123".

Definition good_vibes : Track :=
  mkTrack (lit "Good Vibes") (lit "Future") (lit "2025-01-01") (lit "abc123").

Definition jan_5_2025 : datetime := mkDatetime 2025 1 5 12 0 0 0.
Definition jan_10_2025 : datetime := mkDatetime 2025 1 10 12 0 0 0.

(** Two worlds that differ in everything but the cutoff and the
    candidates the next call reads. *)
Definition sample_world_a : World :=
  mkWorld (fixed_clock jan_5_2025) 0 [ResultText good_vibes_line; NoResult] [].

Definition sample_world_b : World :=
  mkWorld (fun n => if Nat.eqb n 5 then jan_5_2025 else jan_10_2025) 5
          [Undecodable; ResultText good_vibes_line; NoResult; Malformed]
          [mkRequest 1 (lit "tools/call")
                     (SearchSpotify (lit "artist:Lil Tecca") (lit "track") 50)].

(** A track credited to two of the favorite artists, found for both. *)
Definition like_that_line : str :=
  result_line "1" "Like That" "Metro Boomin, Future" "4:27" "2025-01-08" "xyz999".

Definition two_credits_world : World :=
  world_at jan_10_2025
    (repeat NoResult 15
     ++ [ResultText like_that_line; NoResult; NoResult; ResultText like_that_line]).


(** An artist name and an artist text in Greek capitals: the letter U+03A3,
    and U+0391 followed by U+03A3. *)
Definition sigma_artist : str := [CAPITAL_SIGMA].

Definition sigma_track : Track :=
  mkTrack (lit "Song") [913; CAPITAL_SIGMA] (lit "2025-01-04") (lit "q1").

(** A credit written in capitals. *)
Definition shouted_track : Track :=
  mkTrack (lit "Like That") (lit "Metro Boomin, FUTURE") (lit "2025-01-08")
          (lit "xyz999").



Definition dashed_id_line : str :=
  result_line "1" "Good Vibes" "Future" "3:20" "2025-01-01" "abc-123".

(** The candidate of a line, as a list. *)
Definition line_tracks (line : str) : list Track :=
  match track_of_line line with
  | Some t => [t]
  | None => []
  end.

(** * Properties *)

(** The literals of the source, as code points. *)
Ltac literals :=
  repeat match goal with
         | |- context [lit ?s] =>
             let v := eval vm_compute in (lit s) in change (lit s) with v
         | |- context [ch ?a] =>
             let v := eval vm_compute in (ch a) in change (ch a) with v
         end.

Ltac literals_in H :=
  repeat match type of H with
         | context [lit ?s] =>
             let v := eval vm_compute in (lit s) in change (lit s) with v in H
         | context [ch ?a] =>
             let v := eval vm_compute in (ch a) in change (ch a) with v in H
         end.

(** ** Strings *)

Lemma str_eqb_eq (a b : str) : str_eqb a b = true <-> a = b.
Proof.
  revert b. induction a as [|x a IH]; intros [|y b]; simpl; split; intros H;
    try congruence; try reflexivity.
  - apply andb_true_iff in H as [Hx Hab]. apply Z.eqb_eq in Hx.
    apply IH in Hab. congruence.
  - injection H as -> ->. apply andb_true_iff. split.
    + apply Z.eqb_refl.
    + apply IH. reflexivity.
Qed.

Lemma str_eqb_refl (a : str) : str_eqb a a = true.
Proof. apply str_eqb_eq. reflexivity. Qed.

Lemma starts_with_spec (a s : str) :
  starts_with a s = true <-> exists post, s = a ++ post.
Proof.
  revert s. induction a as [|x a IH]; intros s; simpl.
  - split; [intros _; exists s; reflexivity | reflexivity].
  - destruct s as [|y s].
    + split; [discriminate | intros [post H]; discriminate].
    + rewrite andb_true_iff, IH. split.
      * intros [Hx [post ->]]. apply Z.eqb_eq in Hx. subst. exists post. reflexivity.
      * intros [post H]. injection H as -> ->. split; [apply Z.eqb_refl | eauto].
Qed.

Lemma contains_spec (a s : str) :
  contains a s = true <-> exists pre post, s = pre ++ a ++ post.
Proof.
  induction s as [|y s IH]; simpl.
  - rewrite orb_false_r, starts_with_spec. split.
    + intros [post H]. exists [], post. exact H.
    + intros [pre [post H]]. destruct pre; [exists post; exact H | discriminate].
  - rewrite orb_true_iff, starts_with_spec, IH. split.
    + intros [[post H] | [pre [post H]]].
      * exists [], post. exact H.
      * exists (y :: pre), post. simpl. congruence.
    + intros [[|z pre] [post H]].
      * left. exists post. exact H.
      * right. injection H as -> ->. eauto.
Qed.

(** ** The loop over the candidates *)

Section Selection.

Variable artist : str.
Variable cutoff_date : datetime.

Lemma consider_tracks_app found l1 l2 :
  consider_tracks artist cutoff_date found (l1 ++ l2)
  = consider_tracks artist cutoff_date (consider_tracks artist cutoff_date found l1) l2.
Proof. apply fold_left_app. Qed.

Lemma consider_tracks_cons found t l :
  consider_tracks artist cutoff_date found (t :: l)
  = consider_tracks artist cutoff_date (consider_track artist cutoff_date found t) l.
Proof. reflexivity. Qed.

Lemma already_found_false found t :
  already_found found t = false -> track_id t ∉ track_id <$> found.
Proof.
  unfold already_found. induction found as [|u found IH]; simpl; intros H.
  - apply not_elem_of_nil.
  - apply orb_false_iff in H as [Hu Hrest].
    rewrite not_elem_of_cons. split; [|auto].
    intros Heq. rewrite Heq, str_eqb_refl in Hu. discriminate.
Qed.

Lemma already_found_fresh found t :
  track_id t ∉ track_id <$> found -> already_found found t = false.
Proof.
  unfold already_found. induction found as [|u found IH]; simpl; intros H;
    [reflexivity|].
  apply not_elem_of_cons in H as [Hne Hrest].
  apply orb_false_iff. split; [|auto].
  destruct (str_eqb (track_id u) (track_id t)) eqn:E; [|reflexivity].
  apply str_eqb_eq in E. congruence.
Qed.

(** What one pass over candidates does to the accumulator: it appends a
    subsequence of them, made of passing tracks with fresh ids. *)
Lemma consider_tracks_extends tracks : forall found,
  exists ext,
    consider_tracks artist cutoff_date found tracks = found ++ ext
    /\ ext `sublist_of` tracks
    /\ Forall (passes artist cutoff_date) ext
    /\ (NoDup (track_id <$> found) -> NoDup (track_id <$> (found ++ ext))).
Proof.
  induction tracks as [|t tracks IH]; intros found.
  - exists []. rewrite app_nil_r. repeat split; auto; constructor.
  - rewrite consider_tracks_cons. unfold consider_track.
    destruct (by_artist artist t) eqn:Ha;
      [destruct (is_recent_release (track_release_date t) cutoff_date) eqn:Hr;
       [destruct (already_found found t) eqn:Hf|]|]; simpl;
      try (destruct (IH found) as (ext & -> & Hs & Hp & Hn);
           exists ext; repeat split; auto using sublist_cons).
    destruct (IH (found ++ [t])) as (ext & -> & Hs & Hp & Hn).
    exists (t :: ext). rewrite <- app_assoc. simpl. repeat split.
    + apply sublist_skip, Hs.
    + constructor; [split; assumption | exact Hp].
    + intros Hnd. rewrite <- app_assoc in Hn. simpl in Hn. apply Hn.
      rewrite fmap_app. simpl. apply NoDup_app. repeat split; [exact Hnd| |].
      * intros x Hx Hx'. apply list_elem_of_singleton in Hx'. subst.
        revert Hx. apply already_found_false, Hf.
      * apply NoDup_singleton.
Qed.

(** Candidates that all pass and carry fresh, distinct ids are all kept. *)
Lemma consider_tracks_keeps tracks : forall found,
  Forall (passes artist cutoff_date) tracks ->
  NoDup (track_id <$> (found ++ tracks)) ->
  consider_tracks artist cutoff_date found tracks = found ++ tracks.
Proof.
  induction tracks as [|t tracks IH]; intros found Hp Hnd.
  - simpl. rewrite app_nil_r. reflexivity.
  - apply Forall_cons in Hp as [[Ha Hr] Hp].
    rewrite consider_tracks_cons. unfold consider_track. rewrite Ha, Hr.
    rewrite already_found_fresh.
    + simpl. rewrite IH; [rewrite <- app_assoc; reflexivity | exact Hp |].
      rewrite <- app_assoc. exact Hnd.
    + rewrite fmap_app in Hnd. simpl in Hnd. apply NoDup_app in Hnd as (_ & Hd & _).
      intros Hin. apply (Hd _ Hin). left.
Qed.

Lemma select_for_artist_sublist candidates :
  select_for_artist candidates artist cutoff_date `sublist_of` candidates.
Proof.
  unfold select_for_artist.
  destruct (consider_tracks_extends candidates []) as (ext & -> & Hs & _).
  simpl. etransitivity; [apply sublist_take | exact Hs].
Qed.

Lemma select_for_artist_passes candidates :
  Forall (passes artist cutoff_date) (select_for_artist candidates artist cutoff_date).
Proof.
  unfold select_for_artist.
  destruct (consider_tracks_extends candidates []) as (ext & -> & _ & Hp & _).
  simpl. apply Forall_take, Hp.
Qed.

Lemma select_for_artist_NoDup candidates :
  NoDup (track_id <$> select_for_artist candidates artist cutoff_date).
Proof.
  unfold select_for_artist.
  destruct (consider_tracks_extends candidates []) as (ext & -> & _ & _ & Hn).
  simpl in *. rewrite fmap_take.
  eapply sublist_NoDup; [apply Hn; constructor | apply sublist_take].
Qed.

Lemma select_for_artist_length candidates :
  (length (select_for_artist candidates artist cutoff_date) <= 3)%nat.
Proof. unfold select_for_artist. rewrite length_take. lia. Qed.

End Selection.

(** ** One call of [search_artist_tracks] *)

Lemma search_loop_fst artist cutoff_date queries : forall found request_id w,
  fst (search_loop artist cutoff_date queries found request_id w)
  = match candidates_read (take (length queries) (pending w)) with
    | Ok tracks =>
        Ok (consider_tracks artist cutoff_date found tracks,
            request_id + Z.of_nat (length queries))
    | Raise e => Raise e
    end.
Proof.
  induction queries as [|q queries IH]; intros found request_id w.
  - simpl. rewrite Z.add_0_r. reflexivity.
  - cbn [search_loop length]. unfold bind, send_mcp_request.
    destruct (pending w) as [|r rest] eqn:Hp.
    + rewrite IH. simpl. rewrite take_nil. simpl.
      do 2 f_equal. lia.
    + destruct r; cbn [take candidates_read reply_tracks]; try reflexivity;
        rewrite IH; simpl;
        destruct (candidates_read (take (length queries) rest)) as [tracks|e];
        try reflexivity; simpl;
        rewrite ?consider_tracks_app; do 2 f_equal; lia.
Qed.

Lemma search_artist_tracks_fst request_id artist w :
  fst (search_artist_tracks request_id artist w)
  = match cutoff_seen w with
    | Ok cutoff_date =>
        match candidates_read (replies_seen w) with
        | Ok tracks =>
            Ok (select_for_artist tracks artist cutoff_date, request_id + 3)
        | Raise e => Raise e
        end
    | Raise e => Raise e
    end.
Proof.
  unfold search_artist_tracks, get_cutoff_date, cutoff_seen, replies_seen, bind,
    datetime_now.
  destruct (minus_days 7 (clock w (reads w))) as [cutoff_date|e]; [|reflexivity].
  unfold ret at 1.
  set (w1 := mkWorld (clock w) (S (reads w)) (pending w) (written w)).
  pose proof (search_loop_fst artist cutoff_date (search_queries artist) [] request_id w1)
    as H.
  destruct (search_loop artist cutoff_date (search_queries artist) [] request_id w1)
    as [[[found rid]|e] w2]; simpl in H |- *;
    destruct (candidates_read (take 3 (pending w))) as [tracks|e'];
    try discriminate; try (injection H as ->; reflexivity).
  injection H as -> ->. reflexivity.
Qed.

Lemma search_artist_tracks_selected request_id artist w :
  selected (search_artist_tracks request_id artist w)
  = match cutoff_seen w with
    | Ok cutoff_date =>
        match candidates_read (replies_seen w) with
        | Ok tracks => Ok (select_for_artist tracks artist cutoff_date)
        | Raise e => Raise e
        end
    | Raise e => Raise e
    end.
Proof.
  unfold selected. rewrite search_artist_tracks_fst.
  destruct (cutoff_seen w); [|reflexivity].
  destruct (candidates_read (replies_seen w)); reflexivity.
Qed.

(** A call that returns has selected among the candidates it read. *)
Lemma search_artist_tracks_returns request_id artist w tracks request_id' w' :
  search_artist_tracks request_id artist w = (Ok (tracks, request_id'), w') ->
  exists cutoff_date candidates,
    cutoff_seen w = Ok cutoff_date
    /\ candidates_read (replies_seen w) = Ok candidates
    /\ tracks = select_for_artist candidates artist cutoff_date
    /\ request_id' = request_id + 3.
Proof.
  intros H. pose proof (search_artist_tracks_fst request_id artist w) as F.
  rewrite H in F. simpl in F.
  destruct (cutoff_seen w) as [cutoff_date|]; [|discriminate].
  destruct (candidates_read (replies_seen w)) as [candidates|]; [|discriminate].
  injection F as -> ->. eauto 6.
Qed.

(** A served call returns. *)
Lemma search_artist_tracks_served request_id artist w :
  served w = true ->
  exists cutoff_date candidates w',
    cutoff_seen w = Ok cutoff_date
    /\ candidates_read (replies_seen w) = Ok candidates
    /\ search_artist_tracks request_id artist w
       = (Ok (select_for_artist candidates artist cutoff_date, request_id + 3), w').
Proof.
  unfold served. intros H.
  pose proof (search_artist_tracks_fst request_id artist w) as F.
  destruct (cutoff_seen w) as [cutoff_date|]; [|discriminate].
  destruct (candidates_read (replies_seen w)) as [candidates|]; [|discriminate].
  destruct (search_artist_tracks request_id artist w) as [r w'].
  simpl in F. subst r. eauto 7.
Qed.

(** ** The per-artist selection *)

(** C5.  The selection for one artist never has more than three tracks:
    on any list of candidates, and for any call of [search_artist_tracks]
    that the world serves, which then returns.  Once three tracks are
    selected, candidates that come later change nothing. *)
Theorem selection_capped_at_three :
  (forall candidates artist cutoff_date,
     (length (select_for_artist candidates artist cutoff_date) <= 3)%nat)
  /\ (forall candidates more artist cutoff_date,
        length (select_for_artist candidates artist cutoff_date) = 3%nat ->
        select_for_artist (candidates ++ more) artist cutoff_date
        = select_for_artist candidates artist cutoff_date)
  /\ (forall request_id artist w,
        served w = true ->
        exists tracks w',
          search_artist_tracks request_id artist w
          = (Ok (tracks, request_id + 3), w')
          /\ (length tracks <= 3)%nat).
Proof.
  split; [|split].
  - intros. apply select_for_artist_length.
  - intros candidates more artist cutoff_date Hlen. unfold select_for_artist in *.
    rewrite consider_tracks_app.
    destruct (consider_tracks_extends artist cutoff_date more
                (consider_tracks artist cutoff_date [] candidates))
      as (ext & -> & _).
    apply take_app_le. rewrite length_take in Hlen. lia.
  - intros request_id artist w Hs.
    destruct (search_artist_tracks_served request_id artist w Hs)
      as (cutoff_date & candidates & w' & _ & _ & ->).
    eexists _, _. split; [reflexivity | apply select_for_artist_length].
Qed.

Lemma selection_capped_at_three_witness :
  exists tracks w',
    search_artist_tracks 4 (lit "Future") sample_world_a = (Ok (tracks, 4 + 3), w')
    /\ (length tracks <= 3)%nat.
Proof.
  apply (proj2 (proj2 selection_capped_at_three) 4 (lit "Future") sample_world_a).
  vm_compute. reflexivity.
Defined.

(** C6.  The selection is a subsequence of the candidates, in their
    order: on any list of candidates, and for the candidates a returning
    call of [search_artist_tracks] has read.  No date enters the order. *)
Theorem selection_keeps_discovery_order :
  (forall candidates artist cutoff_date,
     select_for_artist candidates artist cutoff_date `sublist_of` candidates)
  /\ (forall request_id artist w tracks request_id' w',
        search_artist_tracks request_id artist w = (Ok (tracks, request_id'), w') ->
        exists candidates,
          candidates_read (replies_seen w) = Ok candidates
          /\ tracks `sublist_of` candidates).
Proof.
  split.
  - intros. apply select_for_artist_sublist.
  - intros request_id artist w tracks request_id' w' H.
    apply search_artist_tracks_returns in H
      as (cutoff_date & candidates & _ & Hc & -> & _).
    exists candidates. split; [exact Hc | apply select_for_artist_sublist].
Qed.

Lemma selection_keeps_discovery_order_witness :
  exists candidates,
    candidates_read (replies_seen sample_world_a) = Ok candidates
    /\ [good_vibes] `sublist_of` candidates.
Proof.
  apply (proj2 selection_keeps_discovery_order 4 (lit "Future") sample_world_a
               [good_vibes] 7
               (mkWorld (fixed_clock jan_5_2025) 1 []
                  (map (fun '(i, q) => mkRequest i (lit "tools/call")
                                         (SearchSpotify q (lit "track") 50))
                       [(4, lit "artist:Future"); (5, lit "Future");
                        (6, lit "Future 2025")]))).
  vm_compute. reflexivity.
Defined.

(** C7.  Selecting again among the selected tracks, for the same artist
    and cutoff, gives the same tracks. *)
Theorem selection_idempotent : forall candidates artist cutoff_date,
  select_for_artist (select_for_artist candidates artist cutoff_date)
                    artist cutoff_date
  = select_for_artist candidates artist cutoff_date.
Proof.
  intros candidates artist cutoff_date.
  set (out := select_for_artist candidates artist cutoff_date).
  unfold select_for_artist at 1.
  rewrite (consider_tracks_keeps artist cutoff_date out []).
  - simpl. apply take_ge. apply select_for_artist_length.
  - apply select_for_artist_passes.
  - simpl. apply select_for_artist_NoDup.
Qed.

(** C9.  What [search_artist_tracks] selects is a function of the cutoff,
    the candidates read and the artist: two calls that agree on these
    select the same tracks, whatever the request ids, the requests already
    written, the rest of the replies and the later clock readings are. *)
Theorem selection_is_a_function_of_its_inputs :
  forall request_id1 request_id2 artist w1 w2,
    cutoff_seen w1 = cutoff_seen w2 ->
    candidates_read (replies_seen w1) = candidates_read (replies_seen w2) ->
    selected (search_artist_tracks request_id1 artist w1)
    = selected (search_artist_tracks request_id2 artist w2).
Proof.
  intros request_id1 request_id2 artist w1 w2 Hc Hr.
  rewrite !search_artist_tracks_selected, Hc, Hr. reflexivity.
Qed.

Lemma selection_is_a_function_of_its_inputs_witness :
  selected (search_artist_tracks 4 (lit "Future") sample_world_a)
  = selected (search_artist_tracks 40 (lit "Future") sample_world_b).
Proof.
  apply selection_is_a_function_of_its_inputs; vm_compute; reflexivity.
Defined.

(** ** The run over the artists *)

Lemma ids_handed_over_app l1 l2 :
  ids_handed_over (l1 ++ l2) = ids_handed_over l1 ++ ids_handed_over l2.
Proof. unfold ids_handed_over. apply flat_map_app. Qed.

Lemma search_loop_hands_nothing artist cutoff_date queries :
  forall found request_id w,
    ids_handed_over (written (snd (search_loop artist cutoff_date queries found request_id w)))
    = ids_handed_over (written w).
Proof.
  induction queries as [|q queries IH]; intros found request_id w; [reflexivity|].
  cbn [search_loop]. unfold bind, send_mcp_request.
  destruct (pending w) as [|r rest];
    [|destruct r]; try rewrite IH; simpl;
    rewrite ids_handed_over_app; simpl; apply app_nil_r.
Qed.

Lemma search_artist_tracks_hands_nothing request_id artist w :
  ids_handed_over (written (snd (search_artist_tracks request_id artist w)))
  = ids_handed_over (written w).
Proof.
  unfold search_artist_tracks, get_cutoff_date, bind, datetime_now.
  destruct (minus_days 7 (clock w (reads w))) as [cutoff_date|e]; [|reflexivity].
  unfold ret at 1.
  set (w1 := mkWorld (clock w) (S (reads w)) (pending w) (written w)).
  pose proof (search_loop_hands_nothing artist cutoff_date (search_queries artist)
                [] request_id w1) as H.
  destruct (search_loop artist cutoff_date (search_queries artist) [] request_id w1)
    as [[r|e] w2]; exact H.
Qed.

Lemma append_tracks tracks : forall (all_tracks : list Track) (ids : list str),
  fold_left (fun '(a, i) track => (a ++ [track], i ++ [track_id track]))
            tracks (all_tracks, ids)
  = (all_tracks ++ tracks, ids ++ (track_id <$> tracks)).
Proof.
  induction tracks as [|t tracks IH]; intros all_tracks ids; simpl.
  - rewrite !app_nil_r. reflexivity.
  - rewrite IH, <- !app_assoc. reflexivity.
Qed.

Lemma collect_tracks_returns artists :
  forall all_tracks ids request_id w all_tracks' ids' request_id' w',
    collect_tracks artists all_tracks ids request_id w
    = (Ok (all_tracks', ids', request_id'), w') ->
    exists per_artist,
      Forall2 selection_of artists per_artist
      /\ all_tracks' = all_tracks ++ concat per_artist
      /\ ids' = ids ++ (track_id <$> concat per_artist)
      /\ ids_handed_over (written w') = ids_handed_over (written w).
Proof.
  induction artists as [|artist artists IH];
    intros all_tracks ids request_id w all_tracks' ids' request_id' w' H.
  - injection H as <- <- <- <-. exists []. simpl. rewrite !app_nil_r.
    repeat split. constructor.
  - cbn [collect_tracks] in H. unfold bind in H.
    pose proof (search_artist_tracks_hands_nothing request_id artist w) as Hw.
    destruct (search_artist_tracks request_id artist w) as [[[tracks rid]|e] w1] eqn:Hs;
      [|discriminate].
    rewrite append_tracks in H. apply IH in H as (per & Hf & -> & -> & Hh).
    apply search_artist_tracks_returns in Hs as (cutoff_date & candidates & _ & _ & -> & _).
    exists (select_for_artist candidates artist cutoff_date :: per).
    simpl in *. rewrite fmap_app, <- !app_assoc. repeat split.
    + constructor; [eexists _, _; reflexivity | exact Hf].
    + congruence.
Qed.

(** X23.  What the test under [# Avoid duplicates] reaches: ids are
    pairwise distinct within the selection of each artist.  The list a run
    hands to the playlist collaborator is the per-artist selections put
    end to end, in the order of the artists; it is handed over in one
    request, and only when it is not empty. *)
Theorem ids_distinct_within_each_artist :
  (forall candidates artist cutoff_date,
     NoDup (track_id <$> select_for_artist candidates artist cutoff_date))
  /\ (forall artists playlist_id request_id w track_ids_to_add w',
        fill_playlist artists playlist_id request_id w = (Ok track_ids_to_add, w') ->
        exists per_artist,
          Forall2 selection_of artists per_artist
          /\ Forall (fun sel => NoDup (track_id <$> sel)) per_artist
          /\ track_ids_to_add = track_id <$> concat per_artist
          /\ ids_handed_over (written w')
             = ids_handed_over (written w)
               ++ match track_ids_to_add with [] => [] | _ :: _ => [track_ids_to_add] end).
Proof.
  split; [intros; apply select_for_artist_NoDup|].
  intros artists playlist_id request_id w ids w' H.
  unfold fill_playlist, bind in H.
  destruct (collect_tracks artists [] [] request_id w)
    as [[[[all_tracks ids1] rid]|e] w1] eqn:Hc; [|discriminate].
  apply collect_tracks_returns in Hc as (per & Hf & _ & -> & Hh).
  simpl in H. exists per.
  assert (Hnd : Forall (fun sel => NoDup (track_id <$> sel)) per).
  { clear -Hf. induction Hf as [|artist sel artists per (c & d & ->) _ IH];
      constructor; [apply select_for_artist_NoDup | exact IH]. }
  destruct (track_id <$> concat per) as [|i ids2] eqn:E; simpl in H.
  - injection H as <- <-. rewrite app_nil_r. auto.
  - unfold bind, send_mcp_request, ret, raise in H.
    destruct (pending w1) as [|r rest]; [|destruct r]; try discriminate H;
      injection H as <- <-; simpl;
      rewrite ids_handed_over_app, Hh; auto.
Qed.

Lemma ids_distinct_within_each_artist_witness :
  exists per_artist,
    Forall2 selection_of FAVORITE_ARTISTS per_artist
    /\ Forall (fun sel => NoDup (track_id <$> sel)) per_artist
    /\ [lit "xyz999"; lit "xyz999"] = track_id <$> concat per_artist
    /\ ids_handed_over
         (written (snd (fill_playlist FAVORITE_ARTISTS (lit "pl1") 3 two_credits_world)))
       = ids_handed_over (written two_credits_world)
         ++ [[lit "xyz999"; lit "xyz999"]].
Proof.
  apply (proj2 ids_distinct_within_each_artist FAVORITE_ARTISTS (lit "pl1") 3
               two_credits_world [lit "xyz999"; lit "xyz999"]
               (snd (fill_playlist FAVORITE_ARTISTS (lit "pl1") 3 two_credits_world))).
  vm_compute. reflexivity.
Defined.

(** C1.  The run on [two_credits_world]: the searches for Future and for
    Metro Boomin both return the track credited to ["Metro Boomin, Future"],
    the test under [# Avoid duplicates] looks at the tracks found for the
    artist at hand only, and the run hands the id ["xyz999"] over twice in
    its one request.  The list handed over is not free of duplicates. *)
Lemma run_hands_over_an_id_twice :
  let r := fill_playlist FAVORITE_ARTISTS (lit "pl1") 3 two_credits_world in
  fst r = Ok [lit "xyz999"; lit "xyz999"]
  /\ ids_handed_over (written (snd r)) = [[lit "xyz999"; lit "xyz999"]]
  /\ ~ NoDup [lit "xyz999"; lit "xyz999"].
Proof.
  split; [vm_compute; reflexivity | split; [vm_compute; reflexivity|]].
  intros H. apply NoDup_cons in H as [H _]. apply H. left.
Qed.

(** ** Recency *)

Lemma datetime_ge_not_before (a b : datetime) :
  datetime_ge a b = true <-> not_before a b.
Proof.
  unfold datetime_ge, datetime_compare, not_before, fields.
  destruct a as [y1 m1 d1 h1 n1 s1 u1], b as [y2 m2 d2 h2 n2 s2 u2]. simpl.
  destruct (Z.compare_spec y1 y2); [|split; [discriminate | lia]|split; [lia | reflexivity]].
  destruct (Z.compare_spec m1 m2); [|split; [discriminate | lia]|split; [lia | reflexivity]].
  destruct (Z.compare_spec d1 d2); [|split; [discriminate | lia]|split; [lia | reflexivity]].
  destruct (Z.compare_spec h1 h2); [|split; [discriminate | lia]|split; [lia | reflexivity]].
  destruct (Z.compare_spec n1 n2); [|split; [discriminate | lia]|split; [lia | reflexivity]].
  destruct (Z.compare_spec s1 s2); [|split; [discriminate | lia]|split; [lia | reflexivity]].
  destruct (Z.compare_spec u1 u2); split; try discriminate; try reflexivity; lia.
Qed.

Lemma not_before_refl (a : datetime) : not_before a a.
Proof. unfold not_before, fields. simpl. lia. Qed.

(** C3.  A release whose date is unknown is never recent; a release with
    a date is recent exactly when the date is not before the cutoff, a date
    equal to the cutoff included. *)
Theorem recent_iff_not_before_cutoff :
  (forall cutoff_date, is_recent_release (lit "Unknown") cutoff_date = false)
  /\ (forall s cutoff_date,
        parse_spotify_date s = None -> is_recent_release s cutoff_date = false)
  /\ (forall s d cutoff_date,
        parse_spotify_date s = Some d ->
        (is_recent_release s cutoff_date = true <-> not_before d cutoff_date))
  /\ (forall s d, parse_spotify_date s = Some d -> is_recent_release s d = true).
Proof.
  repeat split.
  - intros s cutoff_date H. unfold is_recent_release. rewrite H. reflexivity.
  - unfold is_recent_release. rewrite H. apply datetime_ge_not_before.
  - unfold is_recent_release. rewrite H. apply datetime_ge_not_before.
  - intros s d H. unfold is_recent_release. rewrite H.
    apply datetime_ge_not_before, not_before_refl.
Qed.

Lemma recent_iff_not_before_cutoff_witness :
  is_recent_release (lit "2025-01-01") (mkDatetime 2024 12 29 12 0 0 0) = true
  <-> not_before (midnight 2025 1 1) (mkDatetime 2024 12 29 12 0 0 0).
Proof.
  apply (proj1 (proj2 (proj2 recent_iff_not_before_cutoff))
               (lit "2025-01-01") (midnight 2025 1 1)).
  vm_compute. reflexivity.
Defined.

(** ** The artist test *)

Lemma lower_char_ascii c : 0 <= c <= 127 -> lower_char c = [ascii_lower c].
Proof.
  intros Hc.
  assert (Hall : forallb (fun c => str_eqb (lower_char c) [ascii_lower c])
                   (map Z.of_nat (List.seq 0 128)) = true)
    by (vm_compute; reflexivity).
  rewrite forallb_forall in Hall. apply str_eqb_eq, Hall.
  replace c with (Z.of_nat (Z.to_nat c)) by lia. apply in_map, in_seq. lia.
Qed.

Lemma lower_from_ascii s : forall before,
  is_ascii s -> lower_from before s = map ascii_lower s.
Proof.
  unfold is_ascii. induction s as [|c s IH]; intros before H; [reflexivity|].
  cbn [forallb] in H. apply andb_true_iff in H as [Hc Hs].
  unfold between in Hc. apply andb_true_iff in Hc as [H0 H127].
  apply Z.leb_le in H0, H127.
  cbn [lower_from map]. rewrite IH by exact Hs.
  destruct (Z.eqb_spec c CAPITAL_SIGMA) as [E|_]; [unfold CAPITAL_SIGMA in E; lia|].
  rewrite lower_char_ascii by lia. reflexivity.
Qed.

Lemma lower_ascii s : is_ascii s -> lower s = map ascii_lower s.
Proof. apply lower_from_ascii. Qed.

Lemma ascii_lower_same x y : ascii_lower x = ascii_lower y <-> same_letter x y.
Proof.
  unfold ascii_lower, between, same_letter.
  destruct (Z.leb_spec 65 x), (Z.leb_spec x 90), (Z.leb_spec 65 y), (Z.leb_spec y 90);
    cbn [andb]; lia.
Qed.

Lemma same_ignoring_case_ascii_lower (a b : str) :
  same_ignoring_case a b <-> map ascii_lower a = map ascii_lower b.
Proof.
  unfold same_ignoring_case. split.
  - induction 1 as [|x y a b Hxy _ IH]; simpl; [reflexivity|].
    apply ascii_lower_same in Hxy. congruence.
  - revert b. induction a as [|x a IH]; intros [|y b] H; simpl in H;
      try discriminate; constructor.
    + apply ascii_lower_same. congruence.
    + apply IH. congruence.
Qed.

Lemma by_artist_ascii artist track :
  is_ascii artist -> is_ascii (track_artist track) ->
  (by_artist artist track = true
   <-> occurs_ignoring_case artist (track_artist track)).
Proof.
  intros Ha Ht. unfold by_artist, occurs_ignoring_case.
  rewrite (lower_ascii _ Ha), (lower_ascii _ Ht), contains_spec. split.
  - intros (pre & post & H).
    apply map_eq_app in H as (pre' & rest & -> & <- & H).
    apply map_eq_app in H as (mid & post' & -> & Hm & <-).
    exists pre', mid, post'. split; [reflexivity|].
    apply same_ignoring_case_ascii_lower. symmetry. exact Hm.
  - intros (pre & mid & post & -> & H). apply same_ignoring_case_ascii_lower in H.
    exists (map ascii_lower pre), (map ascii_lower post).
    rewrite !map_app, H. reflexivity.
Qed.

(** C8.  The artist test lowers both texts with [str.lower()], which is
    not a caseless comparison: a capital sigma becomes a final sigma or a
    plain one after what surrounds it.  The artist name made of the one
    letter U+03A3 occurs in the artist text U+0391 U+03A3 letter for
    letter; the test fails all the same, and the loop drops the
    candidate, which is recent and whose id is new. *)
Theorem artist_test_misses_a_final_sigma :
  contains sigma_artist (track_artist sigma_track) = true
  /\ lower sigma_artist = [SMALL_SIGMA]
  /\ lower (track_artist sigma_track) = [945; SMALL_FINAL_SIGMA]
  /\ by_artist sigma_artist sigma_track = false
  /\ is_recent_release (track_release_date sigma_track) (midnight 2024 12 29) = true
  /\ consider_track sigma_artist (midnight 2024 12 29) [] sigma_track = [].
Proof. vm_compute. repeat split. Qed.

(** X22.  On ASCII text the artist test is a caseless containment, and it
    decides what the loop does with a candidate: the artist name occurs in
    the candidate's artist text as a contiguous run, up to the case of the
    letters, exactly when the test holds; a candidate without such an
    occurrence is never accumulated, and one with it is accumulated when
    it is recent and its id is new. *)
Theorem artist_test_on_ascii_text artist cutoff_date found track :
  is_ascii artist -> is_ascii (track_artist track) ->
  (by_artist artist track = true
   <-> occurs_ignoring_case artist (track_artist track))
  /\ (~ occurs_ignoring_case artist (track_artist track) ->
      consider_track artist cutoff_date found track = found)
  /\ (occurs_ignoring_case artist (track_artist track) ->
      is_recent_release (track_release_date track) cutoff_date = true ->
      already_found found track = false ->
      consider_track artist cutoff_date found track = found ++ [track]).
Proof.
  intros Ha Ht. pose proof (by_artist_ascii artist track Ha Ht) as Hiff.
  split; [exact Hiff|]. split.
  - intros Hn. unfold consider_track.
    destruct (by_artist artist track) eqn:E; [|reflexivity].
    exfalso. apply Hn, Hiff. reflexivity.
  - intros Ho Hr Hf. unfold consider_track.
    rewrite (proj2 Hiff Ho), Hr, Hf. reflexivity.
Qed.

Lemma artist_test_on_ascii_text_witness :
  consider_track (lit "future") (midnight 2025 1 3) [] shouted_track
  = [] ++ [shouted_track].
Proof.
  apply (proj2 (proj2 (artist_test_on_ascii_text (lit "future") (midnight 2025 1 3) []
                         shouted_track eq_refl eq_refl))).
  - exists (lit "Metro Boomin, "), (lit "FUTURE"), []. split; [reflexivity|].
    unfold same_ignoring_case. literals.
    repeat (constructor; [right; right; split; lia|]). constructor.
  - vm_compute. reflexivity.
  - reflexivity.
Defined.

(** ** The matcher *)

Lemma many_sound {R} p s : forall (k : str -> str -> option R) x,
  many p s k = Some x ->
  exists m rest, s = m ++ rest /\ forallb p m = true /\ k m rest = Some x.
Proof.
  induction s as [|c s IH]; intros k x H; simpl in H.
  - exists [], []. auto.
  - destruct (p c) eqn:Hc; [|exists [], (c :: s); auto].
    destruct (many p s (fun m r => k (c :: m) r)) as [y|] eqn:Hm.
    + injection H as ->. apply IH in Hm as (m & rest & -> & Hp & Hk).
      exists (c :: m), rest. simpl. rewrite Hc, Hp. auto.
    + exists [], (c :: s). auto.
Qed.

(** A repetition that nothing can make fail afterwards takes the longest
    run. *)
Lemma many_greedy {R} p s : forall (k : str -> str -> option R),
  (forall m rest, k m rest <> None) ->
  many p s k = k (take_while p s) (drop_while p s).
Proof.
  induction s as [|c s IH]; intros k Hk; simpl; [reflexivity|].
  destruct (p c); [|reflexivity].
  rewrite IH by (intros; apply Hk).
  destruct (k (c :: take_while p s) (drop_while p s)) eqn:E; [reflexivity|].
  exfalso. exact (Hk _ _ E).
Qed.

(** What the matcher finds is a match. *)
Lemma run_sound {R} r : forall s g (k : str -> str -> groups -> option R) x,
  run r s g k = Some x ->
  exists m rest g', s = m ++ rest /\ matches r m g g' /\ k m rest g' = Some x.
Proof.
  induction r as [|c|p|p|a IHa b IHb|a IHa b IHb|n a IHa]; intros s g k x H;
    simpl in H.
  - exists [], s, g. repeat split; [constructor | exact H].
  - destruct s as [|y s]; [discriminate|].
    destruct ((y =? c)) eqn:E; [|discriminate].
    apply Z.eqb_eq in E. subst y.
    exists [c], s, g. repeat split; [constructor | exact H].
  - destruct s as [|y s]; [discriminate|].
    destruct (p y) eqn:E; [|discriminate].
    exists [y], s, g. repeat split; [constructor; exact E | exact H].
  - apply many_sound in H as (m & rest & -> & Hp & Hk).
    exists m, rest, g. repeat split; [constructor; exact Hp | exact Hk].
  - apply IHa in H as (m1 & s1 & g1 & -> & Ha & H).
    apply IHb in H as (m2 & s2 & g2 & -> & Hb & H).
    exists (m1 ++ m2), s2, g2. rewrite <- app_assoc.
    repeat split; [econstructor; eassumption | exact H].
  - destruct (run a s g k) as [y|] eqn:E.
    + injection H as ->. apply IHa in E as (m & rest & g' & -> & Ha & H).
      exists m, rest, g'. repeat split; [apply M_AltL; exact Ha | exact H].
    + apply IHb in H as (m & rest & g' & -> & Hb & H).
      exists m, rest, g'. repeat split; [apply M_AltR; exact Hb | exact H].
  - apply IHa in H as (m & rest & g' & -> & Ha & H).
    exists m, rest, ((n, m) :: g'). repeat split; [constructor; exact Ha | exact H].
Qed.

Lemma matches_word w : forall m g g', matches (word w) m g g' -> m = w /\ g' = g.
Proof.
  induction w as [|c w IH]; intros m g g' H.
  - inversion H. auto.
  - destruct w as [|d w].
    + inversion H. auto.
    + change (word (c :: d :: w)) with (Seq (Chr c) (word (d :: w))) in H.
      inversion H as [| | | |a b m1 m2 g0 g1 g2 H1 H2| | |]; subst.
      inversion H1; subst. apply IH in H2 as [-> ->]. auto.
Qed.

(** ** Whitespace around what the pattern captures *)

Lemma between_spec lo hi c : between lo hi c = true <-> lo <= c <= hi.
Proof. unfold between. rewrite andb_true_iff, !Z.leb_le. reflexivity. Qed.

Lemma in_ranges_spec ranges c :
  in_ranges ranges c = true <-> exists lo hi, In (lo, hi) ranges /\ lo <= c <= hi.
Proof.
  unfold in_ranges. rewrite existsb_exists. split.
  - intros ([lo hi] & Hin & Hb). apply between_spec in Hb. eauto.
  - intros (lo & hi & Hin & Hb). exists (lo, hi). split; [exact Hin|].
    apply between_spec, Hb.
Qed.

(** A character outside every range of a table. *)
Ltac outside_ranges :=
  apply not_true_is_false; intros Hin;
  apply in_ranges_spec in Hin as (lo & hi & Hin & Hb);
  simpl in Hin;
  repeat (destruct Hin as [Hin|Hin]; [injection Hin as <- <-; lia|]);
  destruct Hin.

Lemma is_alnum_spec c :
  is_alnum c = true <-> 97 <= c <= 122 \/ 65 <= c <= 90 \/ 48 <= c <= 57.
Proof. unfold is_alnum. rewrite !orb_true_iff, !between_spec. tauto. Qed.

Lemma alnum_not_space c : is_alnum c = true -> is_space c = false.
Proof.
  intros H. apply is_alnum_spec in H. unfold is_space, WHITESPACE. outside_ranges.
Qed.

Lemma take_while_all p s : forallb p (take_while p s) = true.
Proof.
  induction s as [|c s IH]; simpl; [reflexivity|].
  destruct (p c) eqn:E; simpl; [rewrite E; exact IH | reflexivity].
Qed.

Lemma drop_while_spaces ws s :
  forallb is_space ws = true -> drop_while is_space (ws ++ s) = drop_while is_space s.
Proof.
  induction ws as [|c ws IH]; simpl; intros H; [reflexivity|].
  apply andb_true_iff in H as [-> H]. auto.
Qed.

Lemma drop_while_alnum s :
  forallb is_alnum s = true -> drop_while is_space s = s.
Proof.
  destruct s as [|c s]; simpl; intros H; [reflexivity|].
  apply andb_true_iff in H as [H _]. rewrite (alnum_not_space c H). reflexivity.
Qed.

Lemma strip_alnum s : forallb is_alnum s = true -> strip s = s.
Proof.
  intros H. unfold strip. rewrite (drop_while_alnum s H).
  rewrite drop_while_alnum; [apply rev_involutive|].
  apply forallb_forall. intros c Hc. apply in_rev in Hc.
  revert c Hc. apply forallb_forall. exact H.
Qed.

(** ** Track lines *)

Lemma run_Seq {R} a b s g (k : str -> str -> groups -> option R) :
  run (Seq a b) s g k
  = run a s g (fun m1 s1 g1 => run b s1 g1 (fun m2 s2 g2 => k (m1 ++ m2) s2 g2)).
Proof. reflexivity. Qed.

Lemma run_word {R} w : forall s g (k : str -> str -> groups -> option R),
  run (word w) (w ++ s) g k = k w s g.
Proof.
  induction w as [|c w IH]; intros s g k; [reflexivity|].
  destruct w as [|d w].
  - simpl. rewrite Z.eqb_refl. reflexivity.
  - change (word (c :: d :: w)) with (Seq (Chr c) (word (d :: w))).
    rewrite run_Seq. change ((c :: d :: w) ++ s) with (c :: (d :: w) ++ s).
    cbn [run]. rewrite Z.eqb_refl. rewrite IH. reflexivity.
Qed.

Lemma extract_lines lines : forall tracks,
  fold_left (fun tracks line =>
               match track_of_line line with
               | Some t => tracks ++ [t]
               | None => tracks
               end) lines tracks
  = tracks ++ flat_map line_tracks lines.
Proof.
  induction lines as [|line lines IH]; intros tracks; simpl.
  - rewrite app_nil_r. reflexivity.
  - rewrite IH. unfold line_tracks at 2.
    destruct (track_of_line line); [rewrite <- app_assoc|]; reflexivity.
Qed.

Lemma extract_by_line search_text :
  extract_track_info_with_dates search_text
  = flat_map line_tracks (split newline search_text).
Proof. unfold extract_track_info_with_dates. apply extract_lines. Qed.





(** ** Date tokens *)

Ltac invert_matches :=
  repeat match goal with
         | H : matches (Seq _ _) _ _ _ |- _ => inversion H; clear H; subst
         | H : matches (Alt _ _) _ _ _ |- _ => inversion H; clear H; subst
         | H : matches (Grp _ _) _ _ _ |- _ => inversion H; clear H; subst
         | H : matches (Chr _) _ _ _ |- _ => inversion H; clear H; subst
         | H : matches (Cls _) _ _ _ |- _ => inversion H; clear H; subst
         end.

Lemma matches_directive_Y Y g g' :
  matches directive_Y Y g g' -> year_text Y /\ g' = g.
Proof.
  cbv [directive_Y times]. intros H. invert_matches.
  unfold year_text. simpl.
  repeat match goal with H : is_digit _ = true |- _ => rewrite H; clear H end.
  auto.
Qed.

Lemma matches_directive_m M g g' :
  matches directive_m M g g' -> month_text M /\ g' = g.
Proof.
  cbv [directive_m alts]. intros H. invert_matches; simpl; auto.
Qed.

Lemma matches_directive_d D g g' :
  matches directive_d D g g' -> day_text D /\ g' = g.
Proof.
  cbv [directive_d alts]. intros H. invert_matches; simpl; auto 6.
Qed.

Lemma matches_format_Ymd m g g' :
  matches format_Ymd m g g' ->
  exists Y M D,
    m = Y ++ lit "-" ++ M ++ lit "-" ++ D
    /\ year_text Y /\ month_text M /\ day_text D
    /\ g' = (3%nat, D) :: (2%nat, M) :: (1%nat, Y) :: g.
Proof.
  unfold format_Ymd. intros H. invert_matches.
  repeat match goal with
         | H : matches directive_Y _ _ _ |- _ =>
             apply matches_directive_Y in H as [? ->]
         | H : matches directive_m _ _ _ |- _ =>
             apply matches_directive_m in H as [? ->]
         | H : matches directive_d _ _ _ |- _ =>
             apply matches_directive_d in H as [? ->]
         end.
  eexists _, _, _. split; [reflexivity | auto].
Qed.

(** A text [strptime] accepts is a year, a month and a day it can read,
    and they make a date of the calendar. *)
Lemma strptime_Ymd_inr s dt :
  strptime_Ymd s = inr dt ->
  exists Y M D,
    s = Y ++ lit "-" ++ M ++ lit "-" ++ D
    /\ year_text Y /\ month_text M /\ day_text D
    /\ valid_date (int Y) (int M) (int D) = true
    /\ dt = midnight (int Y) (int M) (int D).
Proof.
  unfold strptime_Ymd, match_prefix. intros H.
  destruct (run format_Ymd s [] (fun m rest g => Some (m, rest, g)))
    as [[[m rest] g]|] eqn:E; [|discriminate].
  apply run_sound in E as (m' & rest' & g' & -> & Hm & E).
  injection E as <- <- <-.
  destruct rest' as [|c rest']; [|discriminate].
  apply matches_format_Ymd in Hm as (Y & M & D & -> & HY & HM & HD & ->).
  cbn [group Nat.eqb] in H.
  destruct (valid_date (int Y) (int M) (int D)) eqn:V; [|discriminate].
  injection H as <-. rewrite app_nil_r. eauto 10.
Qed.

Lemma between_cases lo hi c :
  0 <= lo -> between lo hi c = true ->
  In c (map Z.of_nat (List.seq (Z.to_nat lo) (S (Z.to_nat hi) - Z.to_nat lo))).
Proof.
  intros Hlo H. apply between_spec in H.
  replace c with (Z.of_nat (Z.to_nat c)) by lia.
  apply in_map, in_seq. lia.
Qed.

Ltac cases_of H :=
  unfold is_ascii_digit in H; apply between_cases in H; [|lia];
  vm_compute in H;
  repeat (destruct H as [<- | H]); [..| contradiction].

Lemma digit_alnum c : is_ascii_digit c = true -> is_alnum c = true.
Proof. unfold is_ascii_digit, is_alnum. intros ->. apply orb_true_r. Qed.

(** An ASCII digit is a decimal digit. *)
Lemma ascii_digit_is_digit c : is_ascii_digit c = true -> is_digit c = true.
Proof. intros H. cases_of H; reflexivity. Qed.

Lemma digit_not_space c : is_ascii_digit c = true -> is_space c = false.
Proof. intros H. apply alnum_not_space, digit_alnum, H. Qed.

Lemma all_digits_alnum s : all_digits s -> forallb is_alnum s = true.
Proof.
  unfold all_digits. induction s as [|c s IH]; simpl; [reflexivity|].
  intros H. apply andb_true_iff in H as [Hc H].
  rewrite (digit_alnum c Hc). auto.
Qed.

Lemma int_digits s : all_digits s -> int s = number s.
Proof.
  intros H. unfold int, number. rewrite strip_alnum by apply all_digits_alnum, H.
  reflexivity.
Qed.

Lemma run_Grp {R} n a s g (k : str -> str -> groups -> option R) :
  run (Grp n a) s g k = run a s g (fun m s' g' => k m s' ((n, m) :: g')).
Proof. reflexivity. Qed.

Lemma run_Chr_same {R} c s g (k : str -> str -> groups -> option R) :
  run (Chr c) (c :: s) g k = k [c] s g.
Proof. simpl. rewrite Z.eqb_refl. reflexivity. Qed.

Lemma run_year {R} y1 y2 y3 y4 s g (k : str -> str -> groups -> option R) :
  is_digit y1 = true -> is_digit y2 = true ->
  is_digit y3 = true -> is_digit y4 = true ->
  run (Grp 1 directive_Y) (y1 :: y2 :: y3 :: y4 :: s) g k
  = k [y1; y2; y3; y4] s ((1%nat, [y1; y2; y3; y4]) :: g).
Proof.
  intros H1 H2 H3 H4. cbn [run directive_Y times]. rewrite H1, H2, H3, H4.
  reflexivity.
Qed.

Ltac eval_classes :=
  literals;
  repeat match goal with
         | |- context [between ?lo ?hi (Zpos ?p)] =>
             let v := eval vm_compute in (between lo hi (Zpos p)) in
             change (between lo hi (Zpos p)) with v
         | |- context [is_digit (Zpos ?p)] =>
             let v := eval vm_compute in (is_digit (Zpos p)) in
             change (is_digit (Zpos p)) with v
         | |- context [Zpos ?p =? Zpos ?q] =>
             let v := eval vm_compute in (Zpos p =? Zpos q) in
             change (Zpos p =? Zpos q) with v
         end;
  cbn -[between is_digit Z.eqb].

(** The continuation succeeds on the first alternative that matches. *)
Ltac continue_with Hk :=
  match goal with
  | |- match ?t with Some _ => _ | None => _ end = Some ?x =>
      replace t with (Some x) by (symmetry; exact Hk); reflexivity
  | |- _ => exact Hk
  end.

Lemma run_month {R} m1 m2 s g (k : str -> str -> groups -> option R) x :
  month_text [m1; m2] ->
  k [m1; m2] s ((2%nat, [m1; m2]) :: g) = Some x ->
  run (Grp 2 directive_m) (m1 :: m2 :: s) g k = Some x.
Proof.
  intros [[-> Hb] | [-> Hb]] Hk; cbn -[between]; rewrite Hb; eval_classes;
    continue_with Hk.
Qed.

Lemma run_day {R} d1 d2 s g (k : str -> str -> groups -> option R) x :
  day_text [d1; d2] ->
  k [d1; d2] s ((3%nat, [d1; d2]) :: g) = Some x ->
  run (Grp 3 directive_d) (d1 :: d2 :: s) g k = Some x.
Proof.
  intros [[-> Hb] | [[Ha Hb] | [[-> Hb] | [-> Hb]]]] Hk.
  - cbn -[between is_digit]. rewrite Hb. eval_classes. continue_with Hk.
  - cases_of Ha; cbn -[between is_digit]; rewrite Hb; eval_classes;
      continue_with Hk.
  - cbn -[between is_digit]. rewrite Hb. eval_classes. continue_with Hk.
  - cbn -[between is_digit]. rewrite Hb. eval_classes. continue_with Hk.
Qed.

(** A text of ten characters whose month and day [strptime] can read is
    accepted when it is a date of the calendar, and only then. *)
Lemma strptime_Ymd_accepts y1 y2 y3 y4 m1 m2 d1 d2 :
  is_digit y1 = true -> is_digit y2 = true ->
  is_digit y3 = true -> is_digit y4 = true ->
  month_text [m1; m2] -> day_text [d1; d2] ->
  strptime_Ymd ([y1; y2; y3; y4] ++ lit "-" ++ [m1; m2] ++ lit "-" ++ [d1; d2])
  = if valid_date (int [y1; y2; y3; y4]) (int [m1; m2]) (int [d1; d2])
    then inr (midnight (int [y1; y2; y3; y4]) (int [m1; m2]) (int [d1; d2]))
    else inl value_error.
Proof.
  intros H1 H2 H3 H4 Hm Hd.
  assert (E : match_prefix format_Ymd
                ([y1; y2; y3; y4] ++ lit "-" ++ [m1; m2] ++ lit "-" ++ [d1; d2])
              = Some ([y1; y2; y3; y4] ++ lit "-" ++ [m1; m2] ++ lit "-" ++ [d1; d2],
                      [],
                      [(3%nat, [d1; d2]); (2%nat, [m1; m2]);
                       (1%nat, [y1; y2; y3; y4])])).
  { unfold match_prefix, format_Ymd. simpl app.
    rewrite run_Seq, run_year by assumption.
    rewrite run_Seq, run_Chr_same. rewrite run_Seq.
    apply run_month; [exact Hm|].
    rewrite run_Seq, run_Chr_same. apply run_day; [exact Hd|]. reflexivity. }
  unfold strptime_Ymd. rewrite E. cbn [group Nat.eqb]. reflexivity.
Qed.

Lemma month_text_digits m1 m2 :
  is_ascii_digit m1 = true -> is_ascii_digit m2 = true ->
  (month_text [m1; m2] <-> 1 <= number [m1; m2] <= 12).
Proof.
  intros H1 H2. cases_of H1; cases_of H2; vm_compute;
    intuition (discriminate || congruence).
Qed.

Lemma day_text_digits d1 d2 :
  is_ascii_digit d1 = true -> is_ascii_digit d2 = true ->
  (day_text [d1; d2] <-> 1 <= number [d1; d2] <= 31).
Proof.
  intros H1 H2. cases_of H1; cases_of H2; vm_compute;
    intuition (discriminate || congruence).
Qed.



Lemma days_in_month_le_31 y m : days_in_month y m <= 31.
Proof.
  unfold days_in_month.
  destruct (m =? 2); [destruct (is_leap y); lia|].
  destruct ((m =? 4) || (m =? 6) || (m =? 9) || (m =? 11)); lia.
Qed.

Lemma valid_date_ranges y m d :
  valid_date y m d = true -> 1 <= m <= 12 /\ 1 <= d <= 31.
Proof.
  unfold valid_date. intros H.
  repeat (apply andb_true_iff in H as [H ?]).
  pose proof (days_in_month_le_31 y m). lia.
Qed.

(** A text of ten characters that [strptime] accepts. *)
Lemma strptime_Ymd_ten s dt :
  strptime_Ymd s = inr dt -> length s = 10%nat ->
  exists y1 y2 y3 y4 m1 m2 d1 d2,
    s = [y1; y2; y3; y4] ++ lit "-" ++ [m1; m2] ++ lit "-" ++ [d1; d2]
    /\ forallb is_digit [y1; y2; y3; y4] = true
    /\ month_text [m1; m2] /\ day_text [d1; d2]
    /\ valid_date (int [y1; y2; y3; y4]) (int [m1; m2]) (int [d1; d2]) = true
    /\ dt = midnight (int [y1; y2; y3; y4]) (int [m1; m2]) (int [d1; d2]).
Proof.
  intros H Hlen.
  apply strptime_Ymd_inr in H as (Y & M & D & -> & [HL HY] & HM & HD & V & ->).
  destruct Y as [|y1 [|y2 [|y3 [|y4 [|]]]]]; try discriminate HL.
  destruct M as [|m1 [|m2 [|]]]; try contradiction;
    destruct D as [|d1 [|d2 [|]]]; try contradiction;
    try discriminate Hlen.
  eexists _, _, _, _, _, _, _, _. split; [reflexivity | auto].
Qed.

(** [strptime] on a year of four digits, a month of two digits and a day
    of two digits. *)
Lemma strptime_Ymd_digits y1 y2 y3 y4 m1 m2 d1 d2 :
  all_digits [y1; y2; y3; y4] -> all_digits [m1; m2] -> all_digits [d1; d2] ->
  strptime_Ymd ([y1; y2; y3; y4] ++ lit "-" ++ [m1; m2] ++ lit "-" ++ [d1; d2])
  = if valid_date (number [y1; y2; y3; y4]) (number [m1; m2]) (number [d1; d2])
    then inr (midnight (number [y1; y2; y3; y4]) (number [m1; m2]) (number [d1; d2]))
    else inl value_error.
Proof.
  intros HY HM HD.
  assert (Hy := HY). assert (Hm := HM). assert (Hd := HD).
  unfold all_digits in Hy, Hm, Hd. simpl in Hy, Hm, Hd.
  repeat match goal with
         | H : _ && _ = true |- _ => apply andb_true_iff in H as [? H]
         end.
  destruct (valid_date (number [y1; y2; y3; y4]) (number [m1; m2]) (number [d1; d2]))
    eqn:V.
  - apply valid_date_ranges in V as V'. destruct V' as [Vm Vd].
    rewrite strptime_Ymd_accepts;
      try assumption; try (apply ascii_digit_is_digit; assumption).
    + rewrite !int_digits by assumption. rewrite V. reflexivity.
    + apply month_text_digits; assumption.
    + apply day_text_digits; assumption.
  - destruct (strptime_Ymd _) as [[]|dt] eqn:E; [reflexivity|].
    exfalso. apply strptime_Ymd_ten in E; [|reflexivity].
    destruct E as (a1 & a2 & a3 & a4 & b1 & b2 & c1 & c2 & Heq & _ & _ & _ & V' & _).
    injection Heq as <- <- <- <- <- <- <- <-.
    rewrite !int_digits in V' by assumption. congruence.
Qed.

(** ** Trimming *)




Lemma strip_fixed s :
  drop_while is_space s = s -> drop_while is_space (rev s) = rev s -> strip s = s.
Proof. intros H1 H2. unfold strip. rewrite H1, H2. apply rev_involutive. Qed.


Lemma strip_between_digits c s d :
  is_ascii_digit c = true -> is_ascii_digit d = true -> strip (c :: s ++ [d]) = c :: s ++ [d].
Proof.
  intros Hc Hd. apply strip_fixed.
  - simpl. rewrite (digit_not_space c Hc). reflexivity.
  - rewrite app_comm_cons, rev_app_distr. simpl.
    rewrite (digit_not_space d Hd). reflexivity.
Qed.

Lemma digit_not_U c : is_ascii_digit c = true -> (c =? ch "U") = false.
Proof. intros H. cases_of H; reflexivity. Qed.

(** ** [parse_spotify_date] *)


Lemma parse_ten c s d :
  is_ascii_digit c = true -> is_ascii_digit d = true -> length s = 8%nat ->
  parse_spotify_date (c :: s ++ [d])
  = match strptime_Ymd (c :: s ++ [d]) with
    | inr dt => Some dt
    | inl _ => None
    end.
Proof.
  intros Hc Hd Hl. unfold parse_spotify_date.
  rewrite strip_between_digits by assumption.
  cbn [str_eqb lit list_ascii_of_string map]. rewrite (digit_not_U c Hc).
  cbn [andb length]. rewrite length_app, Hl. cbn [length Nat.add Nat.eqb].
  destruct (strptime_Ymd (c :: s ++ [d])) as [[]|]; reflexivity.
Qed.

Lemma parse_seven c s d :
  is_ascii_digit c = true -> is_ascii_digit d = true -> length s = 5%nat ->
  parse_spotify_date (c :: s ++ [d])
  = match strptime_Ymd ((c :: s ++ [d]) ++ lit "-01") with
    | inr dt => Some dt
    | inl _ => None
    end.
Proof.
  intros Hc Hd Hl. unfold parse_spotify_date.
  rewrite strip_between_digits by assumption.
  cbn [str_eqb lit list_ascii_of_string map]. rewrite (digit_not_U c Hc).
  cbn [andb length]. rewrite length_app, Hl. cbn [length Nat.add Nat.eqb].
  destruct (strptime_Ymd _) as [[]|]; reflexivity.
Qed.

Lemma parse_four c s d :
  is_ascii_digit c = true -> is_ascii_digit d = true -> length s = 2%nat ->
  parse_spotify_date (c :: s ++ [d])
  = match strptime_Ymd ((c :: s ++ [d]) ++ lit "-01-01") with
    | inr dt => Some dt
    | inl _ => None
    end.
Proof.
  intros Hc Hd Hl. unfold parse_spotify_date.
  rewrite strip_between_digits by assumption.
  cbn [str_eqb lit list_ascii_of_string map]. rewrite (digit_not_U c Hc).
  cbn [andb length]. rewrite length_app, Hl. cbn [length Nat.add Nat.eqb].
  destruct (strptime_Ymd _) as [[]|]; reflexivity.
Qed.

Lemma shape_year_chars Y :
  shape_year Y ->
  exists y1 y2 y3 y4, Y = [y1; y2; y3; y4] /\ all_digits [y1; y2; y3; y4].
Proof.
  intros [HL HY].
  destruct Y as [|y1 [|y2 [|y3 [|y4 [|]]]]]; try discriminate HL. eauto 6.
Qed.

Lemma two_digits_chars M :
  two_digits M -> exists m1 m2, M = [m1; m2] /\ all_digits [m1; m2].
Proof.
  intros [HL HM]. destruct M as [|m1 [|m2 [|]]]; try discriminate HL. eauto.
Qed.

Lemma all_digits_first c s : all_digits (c :: s) -> is_ascii_digit c = true.
Proof. unfold all_digits. simpl. intros H. apply andb_true_iff in H. tauto. Qed.

Lemma all_digits_second a c s : all_digits (a :: c :: s) -> is_ascii_digit c = true.
Proof.
  unfold all_digits. simpl. intros H.
  apply andb_true_iff in H as [_ H]. apply andb_true_iff in H. tauto.
Qed.

Lemma all_digits_fourth a b c d : all_digits [a; b; c; d] -> is_ascii_digit d = true.
Proof.
  unfold all_digits. simpl. intros H.
  do 3 (apply andb_true_iff in H as [_ H]). apply andb_true_iff in H. tauto.
Qed.


Lemma parse_full Y M D :
  shape_year Y -> two_digits M -> two_digits D ->
  parse_spotify_date (Y ++ lit "-" ++ M ++ lit "-" ++ D)
  = date_if_valid (number Y) (number M) (number D).
Proof.
  intros HY HM HD.
  apply shape_year_chars in HY as (y1 & y2 & y3 & y4 & -> & HY).
  apply two_digits_chars in HM as (m1 & m2 & -> & HM).
  apply two_digits_chars in HD as (d1 & d2 & -> & HD).
  pose proof (strptime_Ymd_digits y1 y2 y3 y4 m1 m2 d1 d2 HY HM HD) as E.
  change ([y1; y2; y3; y4] ++ lit "-" ++ [m1; m2] ++ lit "-" ++ [d1; d2])
    with (y1 :: [y2; y3; y4; ch "-"; m1; m2; ch "-"; d1] ++ [d2]) in E |- *.
  rewrite parse_ten, E;
    [|exact (all_digits_first _ _ HY)|exact (all_digits_second _ _ _ HD)|reflexivity].
  unfold date_if_valid. destruct (valid_date _ _ _); reflexivity.
Qed.

Lemma parse_year_month Y M :
  shape_year Y -> two_digits M ->
  parse_spotify_date (Y ++ lit "-" ++ M)
  = date_if_valid (number Y) (number M) 1.
Proof.
  intros HY HM.
  apply shape_year_chars in HY as (y1 & y2 & y3 & y4 & -> & HY).
  apply two_digits_chars in HM as (m1 & m2 & -> & HM).
  assert (H01 : all_digits (lit "01")) by reflexivity.
  pose proof (strptime_Ymd_digits y1 y2 y3 y4 m1 m2 (ch "0") (ch "1") HY HM H01) as E.
  change ([y1; y2; y3; y4] ++ lit "-" ++ [m1; m2])
    with (y1 :: [y2; y3; y4; ch "-"; m1] ++ [m2]).
  rewrite parse_seven;
    [|exact (all_digits_first _ _ HY)|exact (all_digits_second _ _ _ HM)|reflexivity].
  change ((y1 :: [y2; y3; y4; ch "-"; m1] ++ [m2]) ++ lit "-01")
    with ([y1; y2; y3; y4] ++ lit "-" ++ [m1; m2] ++ lit "-" ++ [ch "0"; ch "1"]).
  rewrite E. change (number [ch "0"; ch "1"]) with 1.
  unfold date_if_valid. destruct (valid_date _ _ _); reflexivity.
Qed.

Lemma parse_year Y :
  shape_year Y ->
  parse_spotify_date Y = date_if_valid (number Y) 1 1.
Proof.
  intros HY.
  apply shape_year_chars in HY as (y1 & y2 & y3 & y4 & -> & HY).
  assert (H01 : all_digits (lit "01")) by reflexivity.
  pose proof (strptime_Ymd_digits y1 y2 y3 y4 (ch "0") (ch "1") (ch "0") (ch "1")
                HY H01 H01) as E.
  change [y1; y2; y3; y4] with (y1 :: [y2; y3] ++ [y4]) at 1.
  rewrite parse_four;
    [|exact (all_digits_first _ _ HY)|exact (all_digits_fourth _ _ _ _ HY)|reflexivity].
  change ((y1 :: [y2; y3] ++ [y4]) ++ lit "-01-01")
    with ([y1; y2; y3; y4] ++ lit "-" ++ [ch "0"; ch "1"] ++ lit "-"
          ++ [ch "0"; ch "1"]).
  rewrite E. change (number [ch "0"; ch "1"]) with 1.
  unfold date_if_valid. destruct (valid_date _ _ _); reflexivity.
Qed.










Lemma strip_shape D : expected_shape D -> strip D = D.
Proof.
  intros [(y & m & d & -> & Hy & Hm & Hd)|[(y & m & -> & Hy & Hm)|Hy]].
  - destruct (shape_year_chars y Hy) as (a & b & c & e & -> & Ha).
    destruct (two_digits_chars d Hd) as (d1 & d2 & -> & Hd').
    destruct (two_digits_chars m Hm) as (m1 & m2 & -> & _).
    apply (strip_between_digits a [b; c; e; ch "-"; m1; m2; ch "-"; d1] d2).
    + exact (all_digits_first _ _ Ha).
    + exact (all_digits_second _ _ _ Hd').
  - destruct (shape_year_chars y Hy) as (a & b & c & e & -> & Ha).
    destruct (two_digits_chars m Hm) as (m1 & m2 & -> & Hm').
    apply (strip_between_digits a [b; c; e; ch "-"; m1] m2).
    + exact (all_digits_first _ _ Ha).
    + exact (all_digits_second _ _ _ Hm').
  - destruct (shape_year_chars D Hy) as (a & b & c & e & -> & Ha).
    apply (strip_between_digits a [b; c] e).
    + exact (all_digits_first _ _ Ha).
    + exact (all_digits_fourth _ _ _ _ Ha).
Qed.

(** ** The id of a track line *)

(** The id the pattern captures is the longest run of letters and digits
    that follows [ID:] and the blanks after it, where [ID:] is the one
    that comes right after a match of the head of the pattern. *)
Lemma search_track_line_id line title artist release_date tid :
  search_track_line line = Some (title, artist, release_date, tid) ->
  exists pre after g,
    line = pre ++ lit "ID:" ++ after
    /\ matches track_line_head pre [] g
    /\ tid = take_while is_alnum (drop_while is_space after)
    /\ tid <> [].
Proof.
  unfold search_track_line, match_prefix. intros H.
  destruct (run track_line_re line [] (fun m rest g => Some (m, rest, g)))
    as [[[m rest] g]|] eqn:E; [|discriminate].
  unfold track_line_re in E.
  rewrite run_Seq in E. apply run_sound in E as (pre & s1 & g1 & -> & Hhead & E).
  rewrite run_Seq in E. apply run_sound in E as (w & s2 & g2 & -> & Hw & E).
  apply matches_word in Hw as [-> ->].
  rewrite run_Seq in E. apply run_sound in E as (ws & s3 & g3 & -> & Hs & E).
  inversion Hs as [| | |p m0 g0 Hws| | | |]; subst.
  destruct s3 as [|c s3]; [discriminate|]. cbn [run plus] in E.
  destruct (is_alnum c) eqn:Hc; [|discriminate].
  rewrite many_greedy in E by discriminate. injection E as <- <- <-.
  cbn [group Nat.eqb] in H.
  destruct (group 1 g3), (group 2 g3), (group 3 g3); try discriminate.
  injection H as <- <- <- <-.
  exists pre, (ws ++ c :: s3), g3. repeat split.
  - exact Hhead.
  - rewrite drop_while_spaces by exact Hws. simpl.
    rewrite (alnum_not_space c Hc). simpl. rewrite Hc. reflexivity.
  - discriminate.
Qed.

(** *** Lines as the catalog prints them *)

(** A repetition takes the longest run first; when the rest of the
    pattern accepts it, that is the match. *)
Lemma many_first {R} p m rest : forall (k : str -> str -> option R) x,
  forallb p m = true -> stops p rest -> k m rest = Some x ->
  many p (m ++ rest) k = Some x.
Proof.
  induction m as [|c m IH]; intros k x Hm Hr Hk.
  - destruct rest as [|c rest]; simpl in *; [exact Hk|]. rewrite Hr. exact Hk.
  - cbn [forallb] in Hm. apply andb_true_iff in Hm as [Hc Hm].
    cbn [app many]. rewrite Hc.
    rewrite (IH (fun m' r => k (c :: m') r) x Hm Hr Hk). reflexivity.
Qed.

Lemma run_Many_first {R} p m rest g (k : str -> str -> groups -> option R) x :
  forallb p m = true -> stops p rest -> k m rest g = Some x ->
  run (Many p) (m ++ rest) g k = Some x.
Proof. intros Hm Hr Hk. cbn [run]. apply many_first; assumption. Qed.

Lemma run_plus_first {R} p m rest g (k : str -> str -> groups -> option R) x :
  m <> [] -> forallb p m = true -> stops p rest -> k m rest g = Some x ->
  run (plus p) (m ++ rest) g k = Some x.
Proof.
  intros Hne Hm Hr Hk. destruct m as [|c m]; [contradiction|].
  cbn [forallb] in Hm. apply andb_true_iff in Hm as [Hc Hm].
  unfold plus. rewrite run_Seq. cbn [app run]. rewrite Hc.
  apply many_first; assumption.
Qed.

Lemma run_word_first {R} w s g (k : str -> str -> groups -> option R) x :
  k w s g = Some x -> run (word w) (w ++ s) g k = Some x.
Proof. intros Hk. rewrite run_word. exact Hk. Qed.

Lemma run_Chr_first {R} c s g (k : str -> str -> groups -> option R) x :
  k [c] s g = Some x -> run (Chr c) (c :: s) g k = Some x.
Proof. intros Hk. rewrite run_Chr_same. exact Hk. Qed.

(** The date token of a printed line, which a blank follows. *)
Lemma run_date_token {R} date s g (k : str -> str -> groups -> option R) x :
  date = lit "Unknown" \/ expected_shape date ->
  k date (ch " " :: s) ((3%nat, date) :: g) = Some x ->
  run (Grp 3 date_token_re) (date ++ ch " " :: s) g k = Some x.
Proof.
  intros Hd Hk. rewrite run_Grp.
  destruct Hd as [-> | [(Y & M & D & -> & HY & HM & HD)
                       | [(Y & M & -> & HY & HM) | HY]]].
  - cbv [date_token_re alts seq times]. cbn [run]. literals. cbn [app].
    eval_classes. literals_in Hk. exact Hk.
  - apply shape_year_chars in HY as (y1 & y2 & y3 & y4 & -> & HY).
    apply two_digits_chars in HM as (m1 & m2 & -> & HM).
    apply two_digits_chars in HD as (d1 & d2 & -> & HD).
    unfold all_digits in HY, HM, HD. cbn [forallb] in HY, HM, HD.
    repeat match goal with
           | H : _ && _ = true |- _ => apply andb_true_iff in H as [? H]
           end.
    cbv [date_token_re alts seq times]. cbn [run]. literals. cbn [app].
    repeat match goal with
           | H : is_ascii_digit _ = true |- _ => rewrite H
           end.
    rewrite ?Z.eqb_refl. cbn [app]. literals_in Hk. cbn [app] in Hk.
    continue_with Hk.
  - apply shape_year_chars in HY as (y1 & y2 & y3 & y4 & -> & HY).
    apply two_digits_chars in HM as (m1 & m2 & -> & HM).
    unfold all_digits in HY, HM. cbn [forallb] in HY, HM.
    repeat match goal with
           | H : _ && _ = true |- _ => apply andb_true_iff in H as [? H]
           end.
    cbv [date_token_re alts seq times]. cbn [run]. literals. cbn [app].
    repeat match goal with
           | H : is_ascii_digit _ = true |- _ => rewrite H
           end.
    rewrite ?Z.eqb_refl. eval_classes. cbn [app]. literals_in Hk. cbn [app] in Hk.
    continue_with Hk.
  - apply shape_year_chars in HY as (y1 & y2 & y3 & y4 & -> & HY).
    unfold all_digits in HY. cbn [forallb] in HY.
    repeat match goal with
           | H : _ && _ = true |- _ => apply andb_true_iff in H as [? H]
           end.
    cbv [date_token_re alts seq times]. cbn [run]. literals. cbn [app].
    repeat match goal with
           | H : is_ascii_digit _ = true |- _ => rewrite H
           end.
    eval_classes. cbn [app]. literals_in Hk. cbn [app] in Hk.
    continue_with Hk.
Qed.

Lemma strip_trailing_blank c a :
  is_space c = false -> strip ((c :: a) ++ lit " ") = strip (c :: a).
Proof.
  intros Hc. unfold strip. cbn [app drop_while]. rewrite Hc.
  change (c :: a ++ lit " ") with ((c :: a) ++ lit " ").
  rewrite rev_app_distr. reflexivity.
Qed.

(** What the pattern finds in a printed line. *)
Lemma match_printed_line index title artist duration date tid rest :
  index <> [] -> forallb is_digit index = true ->
  title <> [] -> forallb (is_not dquote) title = true ->
  artist <> [] -> stops is_space artist ->
  forallb (is_not (ch "(")) artist = true ->
  duration <> [] -> forallb (is_not (ch ")")) duration = true ->
  date = lit "Unknown" \/ expected_shape date ->
  tid <> [] -> forallb is_alnum tid = true -> stops is_alnum rest ->
  search_track_line (printed_line index title artist duration date (tid ++ rest))
  = Some (title, artist ++ lit " ", date, tid).
Proof.
  intros Hi1 Hi2 Ht1 Ht2 Ha1 Ha2 Ha3 Hd1 Hd2 Hdate Hid1 Hid2 Hrest.
  assert (E : exists m s,
            match_prefix track_line_re
              (printed_line index title artist duration date (tid ++ rest))
            = Some (m, s, [(4%nat, tid); (3%nat, date);
                           (2%nat, artist ++ lit " "); (1%nat, title)])).
  { unfold match_prefix, track_line_re, track_line_head, printed_line.
    cbn [seq]. eexists _, _.
    rewrite !run_Seq. apply run_plus_first; [assumption..|reflexivity|].
    cbn [app lit list_ascii_of_string map].
    rewrite !run_Seq. apply run_Chr_first.
    rewrite !run_Seq. apply (run_Many_first is_space [ch " "]); [reflexivity..|].
    rewrite !run_Seq. apply run_Chr_first.
    rewrite !run_Seq, run_Grp.
    apply run_plus_first; [assumption..|unfold stops, is_not; apply negb_false_iff, Z.eqb_refl|].
    rewrite !run_Seq. apply run_Chr_first.
    rewrite !run_Seq. apply (run_plus_first is_space [ch " "]);
      [discriminate|reflexivity..|].
    rewrite !run_Seq. apply (run_word_first (lit "by")).
    rewrite !run_Seq. apply (run_plus_first is_space [ch " "]);
      [discriminate|reflexivity|..].
    { destruct artist as [|c a]; [contradiction | exact Ha2]. }
    rewrite !run_Seq, run_Grp.
    replace (artist ++ ch " " :: ch "(" :: duration ++ _)
      with ((artist ++ lit " ") ++ ch "(" :: duration ++
            lit ") - Released: " ++ date ++ lit " - ID: " ++ tid ++ rest)
      by (rewrite <- app_assoc; reflexivity).
    apply run_plus_first.
    { destruct artist; [contradiction | discriminate]. }
    { rewrite forallb_app, Ha3. reflexivity. }
    { reflexivity. }
    rewrite !run_Seq. apply (run_Many_first is_space []); [reflexivity..|].
    rewrite !run_Seq. apply run_Chr_first.
    cbn [app lit list_ascii_of_string map].
    rewrite !run_Seq.
    apply run_plus_first; [assumption..|unfold stops, is_not; apply negb_false_iff, Z.eqb_refl|].
    rewrite !run_Seq. apply run_Chr_first.
    rewrite !run_Seq. apply (run_Many_first is_space [ch " "]); [reflexivity..|].
    rewrite !run_Seq. apply run_Chr_first.
    rewrite !run_Seq. apply (run_Many_first is_space [ch " "]); [reflexivity..|].
    rewrite !run_Seq. apply (run_word_first (lit "Released:")).
    rewrite !run_Seq. apply (run_Many_first is_space [ch " "]); [reflexivity|..].
    { destruct Hdate as [-> | [(Y & M & D & -> & HY & _)
                               | [(Y & M & -> & HY & _) | HY]]];
        [reflexivity|..];
        apply shape_year_chars in HY as (y1 & y2 & y3 & y4 & -> & HY);
        apply all_digits_first in HY; apply digit_not_space, HY. }
    rewrite !run_Seq. apply run_date_token; [exact Hdate|].
    rewrite !run_Seq. apply (run_Many_first is_space [ch " "]); [reflexivity..|].
    rewrite !run_Seq. apply run_Chr_first.
    apply (run_Many_first is_space [ch " "]); [reflexivity..|].
    rewrite !run_Seq. apply (run_word_first (lit "ID:")).
    rewrite !run_Seq. apply (run_Many_first is_space [ch " "]); [reflexivity|..].
    { destruct tid as [|c t]; [contradiction|]. cbn [forallb] in Hid2.
      apply andb_true_iff in Hid2 as [Hc _]. exact (alnum_not_space c Hc). }
    rewrite run_Grp. apply run_plus_first; [assumption..|]. reflexivity. }
  destruct E as (m & s & E). unfold search_track_line. rewrite E. reflexivity.
Qed.

(** A printed line gives a candidate, whatever comes after its id. *)
Lemma track_of_printed_line index title artist duration date tid rest :
  index <> [] -> forallb is_digit index = true ->
  title <> [] -> forallb (is_not dquote) title = true ->
  artist <> [] -> stops is_space artist ->
  forallb (is_not (ch "(")) artist = true ->
  duration <> [] -> forallb (is_not (ch ")")) duration = true ->
  date = lit "Unknown" \/ expected_shape date ->
  tid <> [] -> forallb is_alnum tid = true -> stops is_alnum rest ->
  track_of_line (printed_line index title artist duration date (tid ++ rest))
  = Some (mkTrack (strip title) (strip artist) date tid).
Proof.
  intros Hi1 Hi2 Ht1 Ht2 Ha1 Ha2 Ha3 Hd1 Hd2 Hdate Hid1 Hid2 Hrest.
  unfold track_of_line. rewrite match_printed_line by assumption.
  f_equal. f_equal.
  - destruct artist as [|c a]; [contradiction|]. apply strip_trailing_blank, Ha2.
  - destruct Hdate as [-> | Hs]; [reflexivity | apply strip_shape, Hs].
  - apply strip_alnum, Hid2.
Qed.

(** C10.  The id of a candidate is the longest run of ASCII letters and
    digits that follows [ID:] and the blanks after it, and it is not
    empty: so it is for every candidate, where [ID:] is the one that ends
    the part of the line the pattern has matched so far; and every line
    printed in the catalog's format gives a candidate with that id,
    whatever follows the run.  A later character of another kind ends the
    id without ending the match, as in ["abc-123"], which gives
    ["abc"]. *)
Theorem id_is_the_leading_alphanumeric_run :
  (forall line t,
     track_of_line line = Some t ->
     exists pre after g,
       line = pre ++ lit "ID:" ++ after
       /\ matches track_line_head pre [] g
       /\ track_id t = take_while is_alnum (drop_while is_space after)
       /\ track_id t <> [])
  /\ (forall index title artist duration date tid rest,
        index <> [] -> forallb is_digit index = true ->
        title <> [] -> forallb (is_not dquote) title = true ->
        artist <> [] -> stops is_space artist ->
        forallb (is_not (ch "(")) artist = true ->
        duration <> [] -> forallb (is_not (ch ")")) duration = true ->
        date = lit "Unknown" \/ expected_shape date ->
        tid <> [] -> forallb is_alnum tid = true -> stops is_alnum rest ->
        track_of_line (printed_line index title artist duration date (tid ++ rest))
        = Some (mkTrack (strip title) (strip artist) date tid))
  /\ extract_track_info_with_dates dashed_id_line
     = [mkTrack (lit "Good Vibes") (lit "Future") (lit "2025-01-01") (lit "abc")].
Proof.
  split; [|split; [exact track_of_printed_line | vm_compute; reflexivity]].
  intros line t H. unfold track_of_line in H.
  destruct (search_track_line line) as [[[[title artist] release_date] tid]|] eqn:E;
    [|discriminate].
  injection H as <-. simpl.
  apply search_track_line_id in E as (pre & after & g & -> & Hhead & -> & Hne).
  exists pre, after, g. rewrite strip_alnum by apply take_while_all. auto.
Qed.

Lemma id_is_the_leading_alphanumeric_run_witness :
  (exists pre after g,
     dashed_id_line = pre ++ lit "ID:" ++ after
     /\ matches track_line_head pre [] g
     /\ lit "abc" = take_while is_alnum (drop_while is_space after)
     /\ lit "abc" <> [])
  /\ track_of_line
       (printed_line (lit "1") (lit "Good Vibes") (lit "Future") (lit "3:20")
          (lit "2025-01-01") (lit "abc" ++ lit "-123"))
     = Some (mkTrack (strip (lit "Good Vibes")) (strip (lit "Future"))
               (lit "2025-01-01") (lit "abc")).
Proof.
  split.
  - apply (proj1 id_is_the_leading_alphanumeric_run dashed_id_line
             (mkTrack (lit "Good Vibes") (lit "Future") (lit "2025-01-01") (lit "abc"))).
    vm_compute. reflexivity.
  - apply (proj1 (proj2 id_is_the_leading_alphanumeric_run));
      try discriminate; try reflexivity.
    right. left. exists (lit "2025"), (lit "01"), (lit "01").
    repeat split.
Defined.

(** * Further properties of the code *)

(** ** What one call of [search_artist_tracks] does to the subprocess *)

Lemma search_loop_snd artist cutoff_date queries : forall found request_id w,
  snd (search_loop artist cutoff_date queries found request_id w)
  = let k := replies_read (length queries) (pending w) in
    mkWorld (clock w) (reads w) (drop k (pending w))
            (written w ++ query_requests request_id (take k queries)).
Proof.
  induction queries as [|q queries IH]; intros found request_id w.
  - destruct w; simpl. rewrite app_nil_r. reflexivity.
  - cbn [search_loop length replies_read]. unfold bind, send_mcp_request.
    destruct (pending w) as [|r rest] eqn:Hp.
    + rewrite IH. cbn. rewrite drop_nil, <- app_assoc. reflexivity.
    + destruct r; cbn; try rewrite IH; cbn; rewrite <- ?app_assoc; reflexivity.
Qed.

Lemma replies_read_all n : forall replies candidates,
  candidates_read (take n replies) = Ok candidates ->
  replies_read n replies = n.
Proof.
  induction n as [|n IH]; intros replies candidates H; [reflexivity|].
  destruct replies as [|r rest]; simpl.
  - f_equal. apply (IH [] []). rewrite take_nil. reflexivity.
  - cbn [take candidates_read] in H.
    destruct r; try discriminate;
      destruct (candidates_read (take n rest)) as [c|] eqn:Hc;
      try discriminate; f_equal; eapply IH; eassumption.
Qed.

Lemma replies_read_bad n : forall replies e,
  candidates_read (take n replies) = Raise e ->
  exists k, (k < n)%nat
    /\ replies !! k = Some Malformed
    /\ (forall j, (j < k)%nat -> replies !! j <> Some Malformed)
    /\ replies_read n replies = S k
    /\ e = BadReply.
Proof.
  induction n as [|n IH]; intros replies e H; [discriminate|].
  destruct replies as [|r rest]; [discriminate|].
  cbn [take candidates_read] in H.
  assert (Hrest : r <> Malformed ->
            candidates_read (take n rest) = Raise e ->
            exists k, (k < S n)%nat /\ (r :: rest) !! k = Some Malformed
              /\ (forall j, (j < k)%nat -> (r :: rest) !! j <> Some Malformed)
              /\ S (replies_read n rest) = S k /\ e = BadReply).
  { intros Hr Hc. destruct (IH rest e Hc) as (k & Hk & Hm & Hb & Hn & He).
    exists (S k). repeat split; auto; try lia.
    intros [|j] Hj; simpl; [congruence | apply Hb; lia]. }
  destruct r; simpl;
    try (destruct (candidates_read (take n rest)) as [c|e'] eqn:Hc;
         [discriminate | injection H as ->; apply Hrest; [discriminate | reflexivity]]).
  injection H as <-. exists 0%nat. repeat split; auto; try lia.
Qed.

Lemma search_artist_tracks_snd request_id artist w cutoff_date :
  cutoff_seen w = Ok cutoff_date ->
  snd (search_artist_tracks request_id artist w)
  = let k := replies_read 3 (pending w) in
    mkWorld (clock w) (S (reads w)) (drop k (pending w))
            (written w ++ query_requests request_id (take k (search_queries artist))).
Proof.
  unfold cutoff_seen. intros Hc.
  unfold search_artist_tracks, get_cutoff_date, bind, datetime_now.
  rewrite Hc. unfold ret at 1.
  set (w1 := mkWorld (clock w) (S (reads w)) (pending w) (written w)).
  pose proof (search_loop_snd artist cutoff_date (search_queries artist) []
                request_id w1) as H.
  destruct (search_loop artist cutoff_date (search_queries artist) [] request_id w1)
    as [[r|e] w2]; exact H.
Qed.

Lemma search_artist_tracks_overflow request_id artist w e :
  cutoff_seen w = Raise e ->
  search_artist_tracks request_id artist w
  = (Raise e, mkWorld (clock w) (S (reads w)) (pending w) (written w)).
Proof.
  unfold cutoff_seen. intros Hc.
  unfold search_artist_tracks, get_cutoff_date, bind, datetime_now.
  rewrite Hc. reflexivity.
Qed.



(** X2. When one of the three replies of a call is malformed (its
    ["result"] cannot be subscripted), the call raises at the first such
    reply: the requests up to that one have been written and their replies
    read, and nothing is written or read after it. *)
Theorem malformed_reply_stops_the_call request_id artist w cutoff_date e :
  cutoff_seen w = Ok cutoff_date ->
  candidates_read (replies_seen w) = Raise e ->
  exists k, (k < 3)%nat
    /\ pending w !! k = Some Malformed
    /\ (forall j, (j < k)%nat -> pending w !! j <> Some Malformed)
    /\ search_artist_tracks request_id artist w
       = (Raise BadReply,
          mkWorld (clock w) (S (reads w)) (drop (S k) (pending w))
            (written w
             ++ query_requests request_id (take (S k) (search_queries artist)))).
Proof.
  intros Hc Hr. unfold replies_seen in Hr.
  destruct (replies_read_bad 3 _ _ Hr) as (k & Hk & Hm & Hb & Hn & ->).
  exists k. repeat split; auto.
  pose proof (search_artist_tracks_snd request_id artist w cutoff_date Hc) as Hw.
  pose proof (search_artist_tracks_fst request_id artist w) as Hf.
  rewrite Hc in Hf. unfold replies_seen in Hf. rewrite Hr in Hf.
  rewrite Hn in Hw. cbv zeta in Hw.
  destruct (search_artist_tracks request_id artist w) as [r w'].
  cbn [fst snd] in Hf, Hw. subst. reflexivity.
Qed.

Lemma malformed_reply_stops_the_call_witness :
  exists k, (k < 3)%nat
    /\ pending (world_at jan_10_2025 [NoResult; Malformed; NoResult; NoResult]) !! k
       = Some Malformed
    /\ (forall j, (j < k)%nat ->
          pending (world_at jan_10_2025 [NoResult; Malformed; NoResult; NoResult]) !! j
          <> Some Malformed)
    /\ search_artist_tracks 4 (lit "Future")
         (world_at jan_10_2025 [NoResult; Malformed; NoResult; NoResult])
       = (Raise BadReply,
          mkWorld (clock (world_at jan_10_2025 [NoResult; Malformed; NoResult; NoResult]))
            (S (reads (world_at jan_10_2025 [NoResult; Malformed; NoResult; NoResult])))
            (drop (S k) (pending (world_at jan_10_2025
                                    [NoResult; Malformed; NoResult; NoResult])))
            (written (world_at jan_10_2025 [NoResult; Malformed; NoResult; NoResult])
             ++ query_requests 4 (take (S k) (search_queries (lit "Future"))))).
Proof.
  apply (malformed_reply_stops_the_call 4 (lit "Future")
           (world_at jan_10_2025 [NoResult; Malformed; NoResult; NoResult])
           (mkDatetime 2025 1 3 12 0 0 0) BadReply);
    vm_compute; reflexivity.
Defined.

(** ** The requests of a run *)

Lemma length_query_requests queries : forall request_id,
  length (query_requests request_id queries) = length queries.
Proof.
  induction queries as [|q queries IH]; intros request_id; simpl; auto.
Qed.

Lemma query_requests_numbered queries : forall request_id,
  jsonrpc_id <$> query_requests request_id queries
  = numbers_from request_id (length queries).
Proof.
  induction queries as [|q queries IH]; intros request_id; simpl; [reflexivity|].
  f_equal. apply IH.
Qed.

Lemma numbers_from_app n m : forall first,
  numbers_from first (n + m)
  = numbers_from first n ++ numbers_from (first + Z.of_nat n) m.
Proof.
  induction n as [|n IH]; intros first.
  - simpl. rewrite Z.add_0_r. reflexivity.
  - cbn [Nat.add numbers_from app]. rewrite IH. do 3 f_equal. lia.
Qed.

Lemma numbers_from_NoDup n : forall first, NoDup (numbers_from first n).
Proof.
  assert (Hlow : forall n first x, x ∈ numbers_from first n -> first <= x).
  { induction n0 as [|n0 IH]; intros first x Hx; simpl in Hx.
    - inversion Hx.
    - apply elem_of_cons in Hx as [->|Hx]; [lia|]. apply IH in Hx. lia. }
  induction n as [|n IH]; intros first; simpl; constructor; [|apply IH].
  intros Hin. apply Hlow in Hin. lia.
Qed.

Lemma search_artist_tracks_world request_id artist w tracks request_id' w' :
  search_artist_tracks request_id artist w = (Ok (tracks, request_id'), w') ->
  w' = mkWorld (clock w) (S (reads w)) (drop 3 (pending w))
         (written w ++ query_requests request_id (search_queries artist)).
Proof.
  intros H.
  destruct (search_artist_tracks_returns _ _ _ _ _ _ H)
    as (cutoff_date & candidates & Hc & Hr & _ & _).
  pose proof (search_artist_tracks_snd request_id artist w cutoff_date Hc) as Hw.
  rewrite H in Hw. cbn [snd] in Hw.
  rewrite (replies_read_all 3 _ _ Hr) in Hw. exact Hw.
Qed.

(** The loop over the artists, when it returns: the [i]-th artist gets
    the selection made from the [i]-th clock reading and the [i]-th three
    replies. *)
Lemma collect_tracks_run artists :
  forall all_tracks ids request_id w all_tracks' ids' request_id' w',
    collect_tracks artists all_tracks ids request_id w
    = (Ok (all_tracks', ids', request_id'), w') ->
    request_id' = request_id + 3 * Z.of_nat (length artists)
    /\ w' = mkWorld (clock w) (reads w + length artists)
              (drop (3 * length artists) (pending w))
              (written w ++ artist_requests request_id artists)
    /\ exists per_artist,
         length per_artist = length artists
         /\ (forall i artist sel,
               artists !! i = Some artist -> per_artist !! i = Some sel ->
               selection_at w i artist sel)
         /\ all_tracks' = all_tracks ++ concat per_artist
         /\ ids' = ids ++ (track_id <$> concat per_artist).
Proof.
  induction artists as [|artist artists IH];
    intros all_tracks ids request_id w all_tracks' ids' request_id' w' H.
  - injection H as <- <- <- <-. split; [simpl; lia|]. split.
    + destruct w; simpl. rewrite Nat.add_0_r, app_nil_r. reflexivity.
    + exists []. simpl. rewrite !app_nil_r.
      repeat split; auto. intros i a sel Hi. inversion Hi.
  - cbn [collect_tracks] in H. unfold bind in H.
    destruct (search_artist_tracks request_id artist w)
      as [[[tracks request_id1]|e] w1] eqn:Hcall; [|discriminate].
    pose proof (search_artist_tracks_world _ _ _ _ _ _ Hcall) as Hw1.
    apply search_artist_tracks_returns in Hcall
      as (cutoff_date & candidates & Hc & Hr & -> & ->).
    rewrite append_tracks in H.
    apply IH in H as (-> & -> & per_artist & Hlen & Hsel & -> & ->).
    subst w1. cbn [clock reads pending written length].
    split; [lia|]. split.
    + f_equal.
      * lia.
      * rewrite drop_drop. f_equal. lia.
      * cbn [artist_requests]. rewrite <- app_assoc. reflexivity.
    + exists (select_for_artist candidates artist cutoff_date :: per_artist).
      split; [simpl; congruence|]. split; [|split].
      * intros [|i] a sel Ha Hs; simpl in Ha, Hs.
        -- injection Ha as <-. injection Hs as <-.
           exists candidates, cutoff_date. rewrite Nat.add_0_r.
           repeat split; auto.
        -- destruct (Hsel i a sel Ha Hs) as (cands & cutoff & H1 & H2 & H3).
           cbn [clock reads pending] in H1, H2.
           exists cands, cutoff. repeat split; auto.
           ++ rewrite <- H1. f_equal. f_equal. lia.
           ++ rewrite <- H2. rewrite drop_drop. do 3 f_equal. lia.
      * cbn [concat]. rewrite <- app_assoc. reflexivity.
      * cbn [concat]. rewrite fmap_app, <- app_assoc. reflexivity.
Qed.

(** The requests the loop over the artists writes are numbered one after
    the other, however the loop ends. *)
Lemma collect_tracks_numbered artists :
  forall all_tracks ids request_id w,
    exists new,
      written (snd (collect_tracks artists all_tracks ids request_id w))
      = written w ++ new
      /\ jsonrpc_id <$> new = numbers_from request_id (length new)
      /\ forall x, fst (collect_tracks artists all_tracks ids request_id w) = Ok x ->
                   snd x = request_id + Z.of_nat (length new).
Proof.
  induction artists as [|artist artists IH]; intros all_tracks ids request_id w.
  - exists []. simpl. rewrite app_nil_r. repeat split; auto.
    intros x [= <-]. simpl. lia.
  - cbn [collect_tracks]. unfold bind.
    destruct (search_artist_tracks request_id artist w)
      as [[[tracks request_id1]|e] w1] eqn:Hcall.
    + pose proof (search_artist_tracks_world _ _ _ _ _ _ Hcall) as Hw1.
      apply search_artist_tracks_returns in Hcall as (_ & _ & _ & _ & _ & ->).
      rewrite append_tracks. subst w1.
      destruct (IH (all_tracks ++ tracks) (ids ++ (track_id <$> tracks))
                   (request_id + 3)
                   (mkWorld (clock w) (S (reads w)) (drop 3 (pending w))
                      (written w
                       ++ query_requests request_id (search_queries artist))))
        as (new & Hw & Hn & Hr).
      exists (query_requests request_id (search_queries artist) ++ new).
      rewrite Hw. cbn [written]. rewrite <- app_assoc.
      split; [reflexivity|]. split.
      * rewrite fmap_app, query_requests_numbered, Hn, length_app,
          length_query_requests, numbers_from_app. reflexivity.
      * intros x Hx. rewrite (Hr x Hx), length_app, length_query_requests.
        simpl. lia.
    + cbn [fst snd]. destruct (cutoff_seen w) as [cutoff_date|e'] eqn:Hc.
      * pose proof (search_artist_tracks_snd request_id artist w cutoff_date Hc) as Hw.
        rewrite Hcall in Hw. cbn [snd] in Hw. rewrite Hw. cbv zeta. cbn [written].
        eexists. split; [reflexivity|]. split; [|discriminate].
        rewrite query_requests_numbered, length_query_requests. reflexivity.
      * rewrite (search_artist_tracks_overflow _ _ _ _ Hc) in Hcall.
        injection Hcall as _ <-. exists []. cbn [written].
        rewrite app_nil_r. repeat split; auto. discriminate.
Qed.

(** X3. The requests of a run that returns: for each artist in turn the
    three searches, then - only when some id was selected - one
    [addTracksToPlaylist] with all the ids; the clock has been read once
    for each artist and one reply taken for each request. *)
Theorem requests_of_a_run artists playlist_id request_id w track_ids_to_add w' :
  fill_playlist artists playlist_id request_id w = (Ok track_ids_to_add, w') ->
  let last_id := request_id + 3 * Z.of_nat (length artists) in
  let add := add_request playlist_id track_ids_to_add last_id in
  w' = mkWorld (clock w) (reads w + length artists)
         (drop (3 * length artists + length add) (pending w))
         (written w ++ artist_requests request_id artists ++ add).
Proof.
  intros H. unfold fill_playlist, bind in H.
  destruct (collect_tracks artists [] [] request_id w)
    as [[[[all_tracks ids1] rid]|e] w1] eqn:Hc; [|discriminate].
  apply collect_tracks_run in Hc as (-> & -> & _).
  cbv zeta. destruct ids1 as [|i ids1]; cbn [add_tracks] in H.
  - injection H as <- <-. cbn [add_request length].
    rewrite (Nat.add_0_r (3 * length artists)), !app_nil_r. reflexivity.
  - unfold bind, send_mcp_request, ret, raise in H.
    cbn [pending clock reads written] in H.
    destruct (drop (3 * length artists) (pending w)) as [|r rest] eqn:Hd;
      [|destruct r]; try discriminate H;
      injection H as <- <-; cbn [add_request length];
      rewrite <- app_assoc; f_equal.
    1: { symmetry. apply drop_ge.
         assert (Hl : length (drop (3 * length artists) (pending w)) = 0%nat)
           by (rewrite Hd; reflexivity).
         rewrite length_drop in Hl. lia. }
    all: rewrite <- drop_drop, Hd; reflexivity.
Qed.

Lemma requests_of_a_run_witness :
  snd (fill_playlist FAVORITE_ARTISTS (lit "pl1") 3 two_credits_world)
  = mkWorld (clock two_credits_world)
      (reads two_credits_world + length FAVORITE_ARTISTS)
      (drop (3 * length FAVORITE_ARTISTS
             + length (add_request (lit "pl1") [lit "xyz999"; lit "xyz999"]
                         (3 + 3 * Z.of_nat (length FAVORITE_ARTISTS))))
            (pending two_credits_world))
      (written two_credits_world ++ artist_requests 3 FAVORITE_ARTISTS
       ++ add_request (lit "pl1") [lit "xyz999"; lit "xyz999"]
            (3 + 3 * Z.of_nat (length FAVORITE_ARTISTS))).
Proof.
  apply (requests_of_a_run FAVORITE_ARTISTS (lit "pl1") 3 two_credits_world
           [lit "xyz999"; lit "xyz999"]).
  vm_compute. reflexivity.
Defined.

(** X4. However a run ends - it returns, a reply is malformed, or the
    clock is too early for a cutoff - the requests it has written carry
    the numbers [request_id], [request_id + 1], ... in this order: no
    number is skipped and none is used twice. *)
Theorem request_ids_are_consecutive artists playlist_id request_id w :
  exists new,
    written (snd (fill_playlist artists playlist_id request_id w)) = written w ++ new
    /\ jsonrpc_id <$> new = numbers_from request_id (length new)
    /\ NoDup (jsonrpc_id <$> new).
Proof.
  assert (exists new,
    written (snd (fill_playlist artists playlist_id request_id w)) = written w ++ new
    /\ jsonrpc_id <$> new = numbers_from request_id (length new))
    as (new & Hw & Hn);
    [|exists new; repeat split; auto; rewrite Hn; apply numbers_from_NoDup].
  unfold fill_playlist, bind.
  destruct (collect_tracks_numbered artists [] [] request_id w)
    as (new & Hw & Hn & Hr).
  destruct (collect_tracks artists [] [] request_id w)
    as [[[[all_tracks ids1] rid]|e] w1]; cbn [fst snd] in *; [|eauto].
  specialize (Hr _ eq_refl). cbn [snd] in Hr. subst rid.
  destruct ids1 as [|i ids1]; cbn [add_tracks]; [cbn; eauto|].
  unfold bind, send_mcp_request, ret, raise.
  exists (new ++ [mkRequest (request_id + Z.of_nat (length new)) (lit "tools/call")
                    (AddTracksToPlaylist playlist_id (i :: ids1))]).
  split.
  - destruct (pending w1) as [|r rest]; [|destruct r]; cbn [snd written];
      rewrite Hw, <- app_assoc; reflexivity.
  - rewrite fmap_app, Hn, length_app, numbers_from_app. reflexivity.
Qed.

Lemma elem_of_concat {A} (x : A) (ls : list (list A)) :
  x ∈ concat ls -> exists l, x ∈ l /\ l ∈ ls.
Proof.
  induction ls as [|l ls IH]; simpl; intros H.
  - inversion H.
  - apply elem_of_app in H as [H|H].
    + exists l. split; [exact H | left].
    + destruct (IH H) as (l' & Hx & Hl). exists l'. split; [exact Hx | right; exact Hl].
Qed.

Lemma fill_playlist_returns artists playlist_id request_id w track_ids_to_add w' :
  fill_playlist artists playlist_id request_id w = (Ok track_ids_to_add, w') ->
  exists all_tracks request_id' w1,
    collect_tracks artists [] [] request_id w
    = (Ok (all_tracks, track_ids_to_add, request_id'), w1).
Proof.
  intros H. unfold fill_playlist, bind in H.
  destruct (collect_tracks artists [] [] request_id w)
    as [[[[all_tracks ids1] rid]|e] w1]; [|discriminate].
  exists all_tracks, rid, w1.
  destruct ids1 as [|i ids1]; cbn [add_tracks] in H.
  - injection H as <- _. reflexivity.
  - unfold bind, send_mcp_request, ret, raise in H.
    destruct (pending w1) as [|r rest]; [|destruct r]; try discriminate H;
      injection H as <- _; reflexivity.
Qed.

Lemma fill_playlist_selections artists playlist_id request_id w track_ids_to_add w' :
  fill_playlist artists playlist_id request_id w = (Ok track_ids_to_add, w') ->
  exists per_artist,
    length per_artist = length artists
    /\ (forall i artist sel,
          artists !! i = Some artist -> per_artist !! i = Some sel ->
          selection_at w i artist sel)
    /\ track_ids_to_add = track_id <$> concat per_artist.
Proof.
  intros H. apply fill_playlist_returns in H as (all_tracks & rid & w1 & H).
  apply collect_tracks_run in H as (_ & _ & per_artist & Hlen & Hsel & _ & Hids).
  exists per_artist. auto.
Qed.

(** X5. The ids a returning run hands over are, artist after artist, the
    ids of the artist's selection; the selection of the [i]-th artist is
    made with the cutoff of the [i]-th clock reading of the run, from the
    candidates of replies [3 i], [3 i + 1] and [3 i + 2]. *)
Theorem run_selects_artist_by_artist
    artists playlist_id request_id w track_ids_to_add w' :
  fill_playlist artists playlist_id request_id w = (Ok track_ids_to_add, w') ->
  exists per_artist,
    length per_artist = length artists
    /\ (forall i artist sel,
          artists !! i = Some artist -> per_artist !! i = Some sel ->
          exists candidates cutoff_date,
            minus_days 7 (clock w (reads w + i)) = Ok cutoff_date
            /\ candidates_read (take 3 (drop (3 * i) (pending w))) = Ok candidates
            /\ sel = select_for_artist candidates artist cutoff_date)
    /\ track_ids_to_add = track_id <$> concat per_artist.
Proof.
  intros H. apply fill_playlist_returns in H as (all_tracks & rid & w1 & H).
  apply collect_tracks_run in H as (_ & _ & per_artist & Hlen & Hsel & _ & Hids).
  exists per_artist. split; [exact Hlen|]. split; [|exact Hids].
  intros i artist sel Ha Hs. exact (Hsel i artist sel Ha Hs).
Qed.

Lemma run_selects_artist_by_artist_witness :
  exists per_artist,
    length per_artist = length FAVORITE_ARTISTS
    /\ (forall i artist sel,
          FAVORITE_ARTISTS !! i = Some artist -> per_artist !! i = Some sel ->
          exists candidates cutoff_date,
            minus_days 7 (clock two_credits_world (reads two_credits_world + i))
            = Ok cutoff_date
            /\ candidates_read (take 3 (drop (3 * i) (pending two_credits_world)))
               = Ok candidates
            /\ sel = select_for_artist candidates artist cutoff_date)
    /\ [lit "xyz999"; lit "xyz999"] = track_id <$> concat per_artist.
Proof.
  apply (run_selects_artist_by_artist FAVORITE_ARTISTS (lit "pl1") 3
           two_credits_world [lit "xyz999"; lit "xyz999"]
           (snd (fill_playlist FAVORITE_ARTISTS (lit "pl1") 3 two_credits_world))).
  vm_compute. reflexivity.
Defined.

(** X6. Every id a returning run hands over is the id of a candidate read
    for one of the artists, which is credited to that artist and was
    released on or after the cutoff computed for that artist. *)
Theorem handed_ids_pass_the_tests
    artists playlist_id request_id w track_ids_to_add w' :
  fill_playlist artists playlist_id request_id w = (Ok track_ids_to_add, w') ->
  forall id, id ∈ track_ids_to_add ->
    exists i artist cutoff_date candidates t,
      artists !! i = Some artist
      /\ minus_days 7 (clock w (reads w + i)) = Ok cutoff_date
      /\ candidates_read (take 3 (drop (3 * i) (pending w))) = Ok candidates
      /\ t ∈ candidates
      /\ track_id t = id
      /\ passes artist cutoff_date t.
Proof.
  intros H id Hid.
  apply fill_playlist_selections in H as (per_artist & Hlen & Hsel & ->).
  apply list_elem_of_fmap in Hid as (t & -> & Ht).
  apply elem_of_concat in Ht as (sel & Ht & Hs).
  apply list_elem_of_lookup in Hs as (i & Hi).
  assert (Ha : is_Some (artists !! i)).
  { apply lookup_lt_is_Some. rewrite <- Hlen. eapply lookup_lt_Some, Hi. }
  destruct Ha as (artist & Ha).
  destruct (Hsel i artist sel Ha Hi) as (candidates & cutoff_date & Hc & Hr & ->).
  exists i, artist, cutoff_date, candidates, t. repeat split; auto.
  - eapply elem_of_sublist; [exact Ht | apply select_for_artist_sublist].
  - pose proof (select_for_artist_passes artist cutoff_date candidates) as Hp.
    rewrite Forall_forall in Hp. apply Hp, Ht.
  - pose proof (select_for_artist_passes artist cutoff_date candidates) as Hp.
    rewrite Forall_forall in Hp. apply Hp, Ht.
Qed.

Lemma handed_ids_pass_the_tests_witness :
  exists i artist cutoff_date candidates t,
    FAVORITE_ARTISTS !! i = Some artist
    /\ minus_days 7 (clock two_credits_world (reads two_credits_world + i))
       = Ok cutoff_date
    /\ candidates_read (take 3 (drop (3 * i) (pending two_credits_world)))
       = Ok candidates
    /\ t ∈ candidates
    /\ track_id t = lit "xyz999"
    /\ passes artist cutoff_date t.
Proof.
  apply (handed_ids_pass_the_tests FAVORITE_ARTISTS (lit "pl1") 3
           two_credits_world [lit "xyz999"; lit "xyz999"]
           (snd (fill_playlist FAVORITE_ARTISTS (lit "pl1") 3 two_credits_world))).
  - vm_compute. reflexivity.
  - apply list_elem_of_here.
Defined.

(** X7. A returning run hands over at most three ids for each artist of
    the list: at most thirty for the ten favorite artists. *)
Theorem run_hands_over_at_most_three_per_artist
    artists playlist_id request_id w track_ids_to_add w' :
  fill_playlist artists playlist_id request_id w = (Ok track_ids_to_add, w') ->
  (length track_ids_to_add <= 3 * length artists)%nat.
Proof.
  intros H.
  apply fill_playlist_selections in H as (per_artist & Hlen & Hsel & ->).
  rewrite length_fmap, <- Hlen.
  assert (Hall : Forall (fun sel => (length sel <= 3)%nat) per_artist).
  { apply Forall_lookup. intros i sel Hi.
    assert (Ha : is_Some (artists !! i)).
    { apply lookup_lt_is_Some. rewrite <- Hlen. eapply lookup_lt_Some, Hi. }
    destruct Ha as (artist & Ha).
    destruct (Hsel i artist sel Ha Hi) as (candidates & cutoff_date & _ & _ & ->).
    apply select_for_artist_length. }
  clear -Hall. induction Hall as [|sel per Hs _ IH]; simpl; [lia|].
  rewrite length_app. lia.
Qed.

Lemma run_hands_over_at_most_three_per_artist_witness :
  (length [lit "xyz999"; lit "xyz999"] <= 3 * length FAVORITE_ARTISTS)%nat.
Proof.
  apply (run_hands_over_at_most_three_per_artist FAVORITE_ARTISTS (lit "pl1") 3
           two_credits_world [lit "xyz999"; lit "xyz999"]
           (snd (fill_playlist FAVORITE_ARTISTS (lit "pl1") 3 two_credits_world))).
  vm_compute. reflexivity.
Defined.

(** ** What the selection leaves out *)

Lemma already_found_true found t :
  already_found found t = true -> track_id t ∈ track_id <$> found.
Proof.
  unfold already_found. induction found as [|u found IH]; simpl; intros H;
    [discriminate|].
  apply orb_true_iff in H as [Hu|Hrest].
  - apply str_eqb_eq in Hu. rewrite Hu. left.
  - right. auto.
Qed.

Lemma consider_tracks_has artist cutoff_date tracks : forall found t,
  (t ∈ tracks /\ passes artist cutoff_date t) \/ track_id t ∈ track_id <$> found ->
  track_id t ∈ track_id <$> consider_tracks artist cutoff_date found tracks.
Proof.
  induction tracks as [|u tracks IH]; intros found t H.
  - destruct H as [[H _]|H]; [inversion H | exact H].
  - rewrite consider_tracks_cons. apply IH.
    destruct H as [[H Hp]|H].
    + apply elem_of_cons in H as [<-|H]; [|left; auto].
      right. destruct Hp as [Ha Hr]. unfold consider_track. rewrite Ha, Hr.
      destruct (already_found found t) eqn:Hf; simpl.
      * apply already_found_true, Hf.
      * rewrite fmap_app. apply elem_of_app. right. left.
    + right. unfold consider_track.
      destruct (by_artist artist u); [|exact H].
      destruct (is_recent_release (track_release_date u) cutoff_date); [|exact H].
      destruct (negb (already_found found u)); [|exact H].
      rewrite fmap_app. apply elem_of_app. left. exact H.
Qed.

(** X8. The selection loses a candidate that passes both tests only to
    the cap: when a candidate credited to the artist and recent enough is
    among those read, either its id is among the ids selected, or three
    tracks have been selected. *)
Theorem only_the_cap_leaves_out candidates artist cutoff_date t :
  t ∈ candidates ->
  passes artist cutoff_date t ->
  track_id t ∈ track_id <$> select_for_artist candidates artist cutoff_date
  \/ length (select_for_artist candidates artist cutoff_date) = 3%nat.
Proof.
  intros Ht Hp. unfold select_for_artist.
  pose proof (consider_tracks_has artist cutoff_date candidates [] t
                (or_introl (conj Ht Hp))) as Hin.
  destruct (le_lt_dec (length (consider_tracks artist cutoff_date [] candidates)) 3)
    as [Hle|Hgt].
  - left. rewrite take_ge by exact Hle. exact Hin.
  - right. rewrite length_take. lia.
Qed.

Lemma only_the_cap_leaves_out_witness :
  track_id good_vibes
    ∈ track_id <$> select_for_artist [good_vibes; good_vibes] (lit "Future")
                     (midnight 2024 12 29)
  \/ length (select_for_artist [good_vibes; good_vibes] (lit "Future")
               (midnight 2024 12 29)) = 3%nat.
Proof.
  apply (only_the_cap_leaves_out [good_vibes; good_vibes] (lit "Future")
           (midnight 2024 12 29) good_vibes).
  - apply list_elem_of_here.
  - split; vm_compute; reflexivity.
Defined.

(** ** Search texts *)

Lemma split_not_nil sep s : split sep s <> [].
Proof.
  destruct s as [|c s]; simpl; [discriminate|].
  destruct ((c =? sep)); [discriminate|].
  destruct (split sep s); discriminate.
Qed.

Lemma split_app sep a : forall b,
  split sep (a ++ sep :: b) = split sep a ++ split sep b.
Proof.
  induction a as [|c a IH]; intros b; simpl.
  - rewrite Z.eqb_refl. reflexivity.
  - destruct ((c =? sep)); rewrite IH; [reflexivity|].
    pose proof (split_not_nil sep a) as Hn.
    destruct (split sep a) as [|l ls]; [contradiction | reflexivity].
Qed.

Lemma flat_map_line_tracks_app l1 l2 :
  flat_map line_tracks (l1 ++ l2) = flat_map line_tracks l1 ++ flat_map line_tracks l2.
Proof. apply flat_map_app. Qed.

(** X9. Lines are read one by one: the tracks of two texts joined by a
    newline are the tracks of the first followed by the tracks of the
    second, so that no line changes what another contributes, and a text
    without a newline gives at most one track. *)
Theorem extract_line_by_line :
  (forall a b,
     extract_track_info_with_dates (a ++ newline :: b)
     = extract_track_info_with_dates a ++ extract_track_info_with_dates b)
  /\ (forall line,
        newline ∉ line ->
        extract_track_info_with_dates line
        = match track_of_line line with Some t => [t] | None => [] end).
Proof.
  split.
  - intros a b. rewrite !extract_by_line, split_app. apply flat_map_app.
  - intros line Hn. rewrite extract_by_line.
    assert (Hs : split newline line = [line]).
    { induction line as [|c line IH]; [reflexivity|]. simpl.
      apply not_elem_of_cons in Hn as [Hc Hn].
      destruct ((c =? newline)) eqn:E.
      - apply Z.eqb_eq in E. congruence.
      - rewrite (IH Hn). reflexivity. }
    rewrite Hs. simpl. unfold line_tracks. apply app_nil_r.
Qed.

Lemma extract_line_by_line_witness :
  extract_track_info_with_dates good_vibes_line
  = match track_of_line good_vibes_line with Some t => [t] | None => [] end.
Proof.
  apply (proj2 extract_line_by_line good_vibes_line).
  vm_compute. intros H.
  repeat (apply elem_of_cons in H as [H|H]; [discriminate H|]).
  inversion H.
Defined.

Ltac invert_pattern :=
  repeat match goal with
         | H : matches (Seq _ _) _ _ _ |- _ => inversion H; clear H; subst
         | H : matches (Grp _ _) _ _ _ |- _ => inversion H; clear H; subst
         | H : matches (Chr _) _ _ _ |- _ => inversion H; clear H; subst
         | H : matches (Cls _) _ _ _ |- _ => inversion H; clear H; subst
         | H : matches (Many _) _ _ _ |- _ => inversion H; clear H; subst
         end.

Lemma matches_date_token D g g' :
  matches date_token_re D g g' ->
  (D = lit "Unknown" \/ expected_shape D) /\ g' = g.
Proof.
  cbv [date_token_re alts seq times word lit list_ascii_of_string map].
  intros H. invert_matches; (split; [|reflexivity]).
  - right. left. eexists [_; _; _; _], [_; _], [_; _].
    split; [reflexivity|]. unfold shape_year, two_digits, all_digits. simpl.
    repeat match goal with H : is_ascii_digit _ = true |- _ => rewrite H; clear H end.
    repeat split.
  - right. right. left. eexists [_; _; _; _], [_; _].
    split; [reflexivity|]. unfold shape_year, two_digits, all_digits. simpl.
    repeat match goal with H : is_ascii_digit _ = true |- _ => rewrite H; clear H end.
    repeat split.
  - right. right. right.
    unfold shape_year, all_digits. simpl.
    repeat match goal with H : is_ascii_digit _ = true |- _ => rewrite H; clear H end.
    repeat split.
  - left. reflexivity.
Qed.

(** What the four groups of a matching line are made of. *)
Lemma search_track_line_groups line title artist release_date tid :
  search_track_line line = Some (title, artist, release_date, tid) ->
  (title <> [] /\ forallb (is_not dquote) title = true)
  /\ (artist <> [] /\ forallb (is_not (ch "(")) artist = true)
  /\ (release_date = lit "Unknown" \/ expected_shape release_date)
  /\ (tid <> [] /\ forallb is_alnum tid = true).
Proof.
  unfold search_track_line, match_prefix. intros H.
  destruct (run track_line_re line [] (fun m rest g => Some (m, rest, g)))
    as [[[m rest] g]|] eqn:E; [|discriminate].
  apply run_sound in E as (m' & rest' & g' & -> & Hm & [= <- <- <-]).
  remember date_token_re as dt eqn:Hdt.
  cbv [track_line_re track_line_head seq plus word lit list_ascii_of_string map] in Hm.
  invert_pattern.
  match goal with
  | Hd : matches date_token_re _ _ _ |- _ =>
      apply matches_date_token in Hd as [Hd ->]
  end.
  cbn [group Nat.eqb] in H. injection H as <- <- <- <-.
  repeat split; try discriminate; try assumption;
    simpl; match goal with Hc : ?p ?c = true |- (?p ?c && _ = true) =>
                             rewrite Hc; assumption end.
Qed.

Lemma forallb_drop_while (p q : char -> bool) s :
  forallb p s = true -> forallb p (drop_while q s) = true.
Proof.
  induction s as [|c s IH]; simpl; [auto|]. intros H.
  apply andb_true_iff in H as [Hc Hs].
  destruct (q c); [auto | simpl; rewrite Hc, Hs; reflexivity].
Qed.

Lemma forallb_rev (p : char -> bool) s :
  forallb p s = true -> forallb p (rev s) = true.
Proof.
  rewrite !forallb_forall. intros H c Hc. apply H, in_rev, Hc.
Qed.

Lemma forallb_strip (p : char -> bool) s :
  forallb p s = true -> forallb p (strip s) = true.
Proof.
  intros H. unfold strip.
  apply forallb_rev, forallb_drop_while, forallb_rev, forallb_drop_while, H.
Qed.

Lemma extract_elem text t :
  t ∈ extract_track_info_with_dates text ->
  exists line, line ∈ split newline text /\ track_of_line line = Some t.
Proof.
  rewrite extract_by_line, list_elem_of_In, in_flat_map.
  intros (line & Hl & Ht). exists line. split; [apply list_elem_of_In, Hl|].
  unfold line_tracks in Ht. destruct (track_of_line line) as [u|]; [|destruct Ht].
  destruct Ht as [->|[]]. reflexivity.
Qed.

(** X10. The fields of every track taken from a search text: the release
    date is [Unknown] or has one of the three shapes of digits and dashes
    (nothing is checked about the numbers); the id is a non-empty run of
    ASCII letters and digits; the title holds no double quote and the
    artist no opening parenthesis. *)
Theorem fields_of_extracted_tracks text t :
  t ∈ extract_track_info_with_dates text ->
  (track_release_date t = lit "Unknown" \/ expected_shape (track_release_date t))
  /\ (track_id t <> [] /\ forallb is_alnum (track_id t) = true)
  /\ forallb (is_not dquote) (track_title t) = true
  /\ forallb (is_not (ch "(")) (track_artist t) = true.
Proof.
  intros Ht. apply extract_elem in Ht as (line & _ & Ht).
  unfold track_of_line in Ht.
  destruct (search_track_line line) as [[[[title artist] release_date] tid]|] eqn:E;
    [|discriminate].
  injection Ht as <-. cbn [track_release_date track_id track_title track_artist].
  apply search_track_line_groups in E
    as ((_ & Htitle) & (_ & Hartist) & Hdate & (Hne & Hid)).
  split; [|split; [|split]].
  - destruct Hdate as [->|Hs]; [left; reflexivity|].
    right. rewrite (strip_shape _ Hs). exact Hs.
  - rewrite (strip_alnum _ Hid). auto.
  - apply forallb_strip, Htitle.
  - apply forallb_strip, Hartist.
Qed.

Lemma fields_of_extracted_tracks_witness :
  (track_release_date good_vibes = lit "Unknown"
   \/ expected_shape (track_release_date good_vibes))
  /\ (track_id good_vibes <> [] /\ forallb is_alnum (track_id good_vibes) = true)
  /\ forallb (is_not dquote) (track_title good_vibes) = true
  /\ forallb (is_not (ch "(")) (track_artist good_vibes) = true.
Proof.
  apply (fields_of_extracted_tracks good_vibes_line good_vibes).
  vm_compute. apply list_elem_of_here.
Defined.

(** ** Dates and recency *)

Lemma not_before_trans a b c : not_before a b -> not_before b c -> not_before a c.
Proof.
  unfold not_before, fields.
  destruct a as [y1 m1 d1 h1 n1 s1 u1], b as [y2 m2 d2 h2 n2 s2 u2],
    c as [y3 m3 d3 h3 n3 s3 u3]. simpl. lia.
Qed.

Lemma datetime_ge_trans a b c :
  datetime_ge a b = true -> datetime_ge b c = true -> datetime_ge a c = true.
Proof.
  rewrite !datetime_ge_not_before. apply not_before_trans.
Qed.

(** X11. A release date that [parse_spotify_date] reads is a date of the
    calendar - its month has that day, in a year from 1 to 9999 - at
    midnight. *)
Theorem parsed_dates_are_calendar_dates s dt :
  parse_spotify_date s = Some dt ->
  valid_date (year dt) (month dt) (day dt) = true
  /\ hour dt = 0 /\ minute dt = 0 /\ second dt = 0 /\ microsecond dt = 0.
Proof.
  unfold parse_spotify_date. generalize (strip s) as t. intros t H. cbv zeta in H.
  destruct (str_eqb t (lit "Unknown")); [discriminate|].
  assert (Hs : exists u, strptime_Ymd u = inr dt).
  { destruct (Nat.eqb (length t) 10);
      [|destruct (Nat.eqb (length t) 7);
        [|destruct (Nat.eqb (length t) 4); [|discriminate]]];
      match type of H with
      | context [strptime_Ymd ?u] =>
          exists u; destruct (strptime_Ymd u) as [[]|dt']; [discriminate|];
          injection H as ->; reflexivity
      end. }
  destruct Hs as (u & Hu).
  apply strptime_Ymd_inr in Hu as (Y & M & D & _ & _ & _ & _ & Hv & ->).
  simpl. auto.
Qed.

Lemma parsed_dates_are_calendar_dates_witness :
  valid_date (year (midnight 2025 3 1)) (month (midnight 2025 3 1))
             (day (midnight 2025 3 1)) = true
  /\ hour (midnight 2025 3 1) = 0 /\ minute (midnight 2025 3 1) = 0
  /\ second (midnight 2025 3 1) = 0 /\ microsecond (midnight 2025 3 1) = 0.
Proof.
  apply (parsed_dates_are_calendar_dates (lit "2025-03") (midnight 2025 3 1)).
  vm_compute. reflexivity.
Defined.

(** X12. A later cutoff is a stricter one: a release that is recent for a
    cutoff is recent for every cutoff that is not after it. *)
Theorem recent_for_every_earlier_cutoff release_date_str cutoff_date earlier :
  not_before cutoff_date earlier ->
  is_recent_release release_date_str cutoff_date = true ->
  is_recent_release release_date_str earlier = true.
Proof.
  unfold is_recent_release. intros Hc H.
  destruct (parse_spotify_date release_date_str) as [release_date|]; [|discriminate].
  apply datetime_ge_not_before. apply datetime_ge_not_before in H.
  eapply not_before_trans; eassumption.
Qed.

Lemma recent_for_every_earlier_cutoff_witness :
  is_recent_release (lit "2025-01-01") (midnight 2024 12 25) = true.
Proof.
  apply (recent_for_every_earlier_cutoff (lit "2025-01-01") (midnight 2024 12 29)
           (midnight 2024 12 25)).
  - unfold not_before. simpl. lia.
  - vm_compute. reflexivity.
Defined.

Lemma date_if_valid_recent y m d cutoff_date :
  match date_if_valid y m d with
  | Some release_date => datetime_ge release_date cutoff_date
  | None => false
  end = true ->
  valid_date y m d = true /\ datetime_ge (midnight y m d) cutoff_date = true.
Proof.
  unfold date_if_valid. destruct (valid_date y m d); [auto | discriminate].
Qed.

Lemma midnight_not_before y m d d' : d' <= d -> not_before (midnight y m d) (midnight y m d').
Proof. unfold not_before, fields. simpl. lia. Qed.

(** X13. Reading a date without a day as the first of its month, and one
    without a month as the first of January, cannot overstate recency:
    when a year-month token is recent, so is every date of the calendar in
    that month; when a year token is recent, so is every month of that
    year. *)
Theorem coarse_dates_never_overstate Y M D cutoff_date :
  shape_year Y -> two_digits M -> two_digits D ->
  (is_recent_release (Y ++ lit "-" ++ M) cutoff_date = true ->
   parse_spotify_date (Y ++ lit "-" ++ M ++ lit "-" ++ D) <> None ->
   is_recent_release (Y ++ lit "-" ++ M ++ lit "-" ++ D) cutoff_date = true)
  /\ (is_recent_release Y cutoff_date = true ->
      parse_spotify_date (Y ++ lit "-" ++ M) <> None ->
      is_recent_release (Y ++ lit "-" ++ M) cutoff_date = true).
Proof.
  intros HY HM HD. unfold is_recent_release.
  rewrite (parse_full Y M D HY HM HD), (parse_year_month Y M HY HM), (parse_year Y HY).
  split; intros H Hv.
  - apply date_if_valid_recent in H as [_ H].
    unfold date_if_valid in *.
    destruct (valid_date (number Y) (number M) (number D)) eqn:E; [|congruence].
    apply valid_date_ranges in E.
    eapply datetime_ge_trans; [|exact H].
    apply datetime_ge_not_before, midnight_not_before. lia.
  - apply date_if_valid_recent in H as [_ H].
    unfold date_if_valid in *.
    destruct (valid_date (number Y) (number M) 1) eqn:E; [|congruence].
    apply valid_date_ranges in E.
    eapply datetime_ge_trans; [|exact H].
    apply datetime_ge_not_before. unfold not_before, fields. simpl. lia.
Qed.

Lemma coarse_dates_never_overstate_witness :
  (is_recent_release (lit "2025" ++ lit "-" ++ lit "01") (midnight 2024 12 29) = true ->
   parse_spotify_date (lit "2025" ++ lit "-" ++ lit "01" ++ lit "-" ++ lit "15") <> None ->
   is_recent_release (lit "2025" ++ lit "-" ++ lit "01" ++ lit "-" ++ lit "15")
     (midnight 2024 12 29) = true)
  /\ (is_recent_release (lit "2025") (midnight 2024 12 29) = true ->
      parse_spotify_date (lit "2025" ++ lit "-" ++ lit "01") <> None ->
      is_recent_release (lit "2025" ++ lit "-" ++ lit "01") (midnight 2024 12 29) = true).
Proof.
  apply (coarse_dates_never_overstate (lit "2025") (lit "01") (lit "15")
           (midnight 2024 12 29));
    split; reflexivity.
Defined.

(** ** The playlist id *)

Lemma match_playlist_id_sound s m rest g :
  match_prefix playlist_id_re s = Some (m, rest, g) ->
  exists c after,
    s = playlist_label ++ c :: after
    /\ is_alnum c = true
    /\ g = [(1%nat, take_while is_alnum (c :: after))].
Proof.
  unfold match_prefix, playlist_id_re. intros E.
  rewrite run_Seq in E. apply run_sound in E as (w & s1 & g1 & -> & Hw & E).
  apply matches_word in Hw as [-> ->].
  destruct s1 as [|c s1]; [discriminate|]. cbn [run plus] in E.
  destruct (is_alnum c) eqn:Hc; [|discriminate].
  rewrite many_greedy in E by discriminate. injection E as <- <- <-.
  exists c, s1. repeat split; auto. simpl. rewrite Hc. reflexivity.
Qed.

Lemma match_playlist_id_complete c after :
  is_alnum c = true ->
  exists m rest,
    match_prefix playlist_id_re (playlist_label ++ c :: after)
    = Some (m, rest, [(1%nat, take_while is_alnum (c :: after))]).
Proof.
  intros Hc. unfold match_prefix, playlist_id_re.
  rewrite run_Seq, run_word. cbn [run plus].
  rewrite Hc, many_greedy by discriminate.
  simpl take_while. rewrite Hc. eauto.
Qed.

Lemma match_playlist_id_none s :
  ~ id_starts s -> match_prefix playlist_id_re s = None.
Proof.
  intros Hn. destruct (match_prefix playlist_id_re s) as [[[m rest] g]|] eqn:E;
    [|reflexivity].
  exfalso. apply Hn. apply match_playlist_id_sound in E as (c & after & -> & Hc & _).
  exists c, after. auto.
Qed.

(** The search stops at the first position where the pattern matches. *)
Lemma re_search_some r s : forall g,
  re_search r s = Some g ->
  exists pre s' m rest,
    s = pre ++ s'
    /\ match_prefix r s' = Some (m, rest, g)
    /\ forall pre1 pre2, pre = pre1 ++ pre2 -> pre2 <> [] ->
                         match_prefix r (pre2 ++ s') = None.
Proof.
  induction s as [|c s IH]; intros g H; cbn [re_search] in H.
  - destruct (match_prefix r []) as [[[m rest] g0]|] eqn:E; [|discriminate].
    injection H as ->. exists [], [], m, rest. repeat split; auto.
    intros pre1 pre2 Hp Hne. symmetry in Hp. apply app_eq_nil in Hp as [_ ->].
    contradiction.
  - destruct (match_prefix r (c :: s)) as [[[m rest] g0]|] eqn:E.
    + injection H as ->. exists [], (c :: s), m, rest. repeat split; auto.
      intros pre1 pre2 Hp Hne. symmetry in Hp. apply app_eq_nil in Hp as [_ ->].
      contradiction.
    + apply IH in H as (pre & s' & m & rest & -> & Hm & Hfirst).
      exists (c :: pre), s', m, rest. repeat split; auto.
      intros pre1 pre2 Hp Hne. destruct pre1 as [|x pre1]; simpl in Hp.
      * subst pre2. exact E.
      * injection Hp as _ Hp. eapply Hfirst; eassumption.
Qed.

Lemma re_search_none r s :
  re_search r s = None <->
  forall pre s', s = pre ++ s' -> match_prefix r s' = None.
Proof.
  induction s as [|c s IH]; cbn [re_search].
  - destruct (match_prefix r []) as [[[m rest] g0]|] eqn:E; split.
    + discriminate.
    + intros H. specialize (H [] [] eq_refl). congruence.
    + intros _ pre s' Hp. symmetry in Hp. apply app_eq_nil in Hp as [_ ->]. exact E.
    + reflexivity.
  - destruct (match_prefix r (c :: s)) as [[[m rest] g0]|] eqn:E; split.
    + discriminate.
    + intros H. specialize (H [] (c :: s) eq_refl). congruence.
    + intros H pre s' Hp. destruct pre as [|x pre]; simpl in Hp.
      * subst s'. exact E.
      * injection Hp as _ Hp. exact (proj1 IH H pre s' Hp).
    + intros H. apply IH. intros pre s' Hp. apply (H (c :: pre) s'). simpl.
      congruence.
Qed.

Lemma app_split_longer {A} (pre' : list A) : forall pre a b,
  pre ++ a = pre' ++ b -> (length pre' < length pre)%nat ->
  exists pre2, pre2 <> [] /\ pre = pre' ++ pre2 /\ b = pre2 ++ a.
Proof.
  induction pre' as [|x pre' IH]; intros pre a b H Hl.
  - exists pre. repeat split; auto. intros ->. simpl in Hl. lia.
  - destruct pre as [|y pre]; [simpl in Hl; lia|].
    simpl in H. injection H as -> H. simpl in Hl.
    destruct (IH pre a b H ltac:(lia)) as (pre2 & Hne & -> & ->).
    exists pre2. auto.
Qed.

(** X14. The playlist id taken from the reply to [createPlaylist] is the
    longest run of ASCII letters and digits right after the leftmost
    [Playlist ID: ] that is followed by one; it is never empty. *)
Theorem playlist_id_is_the_first_labelled_run response_text id :
  extract_playlist_id response_text = Some id ->
  exists pre after,
    response_text = pre ++ playlist_label ++ after
    /\ id = take_while is_alnum after
    /\ id <> []
    /\ forall pre' s, response_text = pre' ++ s -> id_starts s ->
                      (length pre <= length pre')%nat.
Proof.
  unfold extract_playlist_id. intros H.
  destruct (re_search playlist_id_re response_text) as [g|] eqn:E; [|discriminate].
  apply re_search_some in E as (pre & s' & m & rest & -> & Hm & Hfirst).
  apply match_playlist_id_sound in Hm as (c & after & -> & Hc & ->).
  cbn [group Nat.eqb] in H. injection H as <-.
  exists pre, (c :: after). repeat split.
  - simpl. rewrite Hc. discriminate.
  - intros pre' s Hs (c' & after' & -> & Hc').
    destruct (le_lt_dec (length pre) (length pre')) as [Hle|Hlt]; [exact Hle|].
    exfalso.
    destruct (app_split_longer pre' pre _ _ Hs Hlt) as (pre2 & Hne & Hp & Hb).
    pose proof (Hfirst pre' pre2 Hp Hne) as Hnone.
    rewrite <- Hb in Hnone.
    destruct (match_playlist_id_complete c' after' Hc') as (m' & rest' & Hsome).
    congruence.
Qed.

Lemma playlist_id_is_the_first_labelled_run_witness :
  exists pre after,
    lit "Created. Playlist ID: - Playlist ID: 37i9dQZF1DX (private)"
    = pre ++ playlist_label ++ after
    /\ lit "37i9dQZF1DX" = take_while is_alnum after
    /\ lit "37i9dQZF1DX" <> []
    /\ forall pre' s,
         lit "Created. Playlist ID: - Playlist ID: 37i9dQZF1DX (private)" = pre' ++ s ->
         id_starts s -> (length pre <= length pre')%nat.
Proof.
  apply (playlist_id_is_the_first_labelled_run
           (lit "Created. Playlist ID: - Playlist ID: 37i9dQZF1DX (private)")
           (lit "37i9dQZF1DX")).
  vm_compute. reflexivity.
Defined.

(** X15. No playlist id is found exactly when the reply has no
    [Playlist ID: ] followed by an ASCII letter or digit: a label at the
    end of the text, or followed by another character, gives nothing. *)
Theorem no_playlist_id_iff_no_labelled_run response_text :
  extract_playlist_id response_text = None
  <-> forall pre s, response_text = pre ++ s -> ~ id_starts s.
Proof.
  unfold extract_playlist_id. split.
  - intros H pre s Hs (c & after & -> & Hc).
    destruct (re_search playlist_id_re response_text) as [g|] eqn:E.
    + apply re_search_some in E as (pre0 & s' & m & rest & _ & Hm & _).
      apply match_playlist_id_sound in Hm as (c0 & after0 & _ & _ & Hg).
      subst g. discriminate.
    + destruct (match_playlist_id_complete c after Hc) as (m' & rest' & Hsome).
      rewrite (proj1 (re_search_none _ _) E pre _ Hs) in Hsome. discriminate.
  - intros H.
    assert (E : re_search playlist_id_re response_text = None).
    { apply re_search_none. intros pre s Hs.
      apply match_playlist_id_none. eauto. }
    rewrite E. reflexivity.
Qed.

Lemma no_playlist_id_iff_no_labelled_run_witness :
  extract_playlist_id (lit "Playlist ID: ") = None
  /\ (extract_playlist_id (lit "Playlist ID: ") = None
      <-> forall pre s, lit "Playlist ID: " = pre ++ s -> ~ id_starts s).
Proof.
  split; [vm_compute; reflexivity|].
  apply (no_playlist_id_iff_no_labelled_run (lit "Playlist ID: ")).
Defined.

(** ** The calendar *)

Lemma days_before_year_succ y :
  1 <= y ->
  days_before_year (y + 1)
  = days_before_year y + 365 + (if is_leap y then 1 else 0).
Proof.
  intros Hy. unfold days_before_year, is_leap. cbv zeta.
  replace (y + 1 - 1) with y by lia.
  destruct (Z.eqb_spec (y mod 4) 0) as [H4|H4];
    destruct (Z.eqb_spec (y mod 100) 0) as [H100|H100];
    destruct (Z.eqb_spec (y mod 400) 0) as [H400|H400];
    cbn [negb andb orb]; Z.div_mod_to_equations; lia.
Qed.

Lemma days_before_year_nonneg y : 1 <= y -> 0 <= days_before_year y.
Proof.
  intros Hy. unfold days_before_year. cbv zeta.
  Z.div_mod_to_equations. lia.
Qed.

Lemma month_cases m :
  1 <= m <= 12 ->
  m = 1 \/ m = 2 \/ m = 3 \/ m = 4 \/ m = 5 \/ m = 6 \/ m = 7 \/ m = 8 \/ m = 9
  \/ m = 10 \/ m = 11 \/ m = 12.
Proof. lia. Qed.

Ltac each_month H :=
  apply month_cases in H;
  repeat (destruct H as [H|H]); subst.

Lemma days_before_month_succ y m :
  1 <= m <= 11 ->
  days_before_month y (m + 1) = days_before_month y m + days_in_month y m.
Proof.
  intros Hm. assert (Hm' : 1 <= m <= 12) by lia.
  each_month Hm'; try lia;
    unfold days_before_month, days_in_month; simpl;
    destruct (is_leap y); reflexivity.
Qed.

Lemma days_before_month_nonneg y m : 1 <= m <= 12 -> 0 <= days_before_month y m.
Proof.
  intros Hm. each_month Hm; unfold days_before_month; simpl;
    destruct (is_leap y); lia.
Qed.

Lemma valid_fields d :
  valid d ->
  1 <= year d <= 9999 /\ 1 <= month d <= 12
  /\ 1 <= day d <= days_in_month (year d) (month d).
Proof.
  unfold valid, valid_date. intros H.
  repeat (apply andb_true_iff in H as [H ?]). lia.
Qed.

Lemma valid_intro y m d h n s u :
  1 <= y <= 9999 -> 1 <= m <= 12 -> 1 <= d <= days_in_month y m ->
  valid (mkDatetime y m d h n s u).
Proof.
  intros Hy Hm Hd. unfold valid, valid_date. simpl.
  repeat (apply andb_true_iff; split); lia.
Qed.

Lemma days_in_month_pos y m : 28 <= days_in_month y m.
Proof.
  unfold days_in_month.
  destruct (m =? 2); [destruct (is_leap y); lia|].
  destruct ((m =? 4) || (m =? 6) || (m =? 9) || (m =? 11)); lia.
Qed.

Lemma toordinal_pos d : valid d -> 1 <= toordinal d.
Proof.
  intros H. apply valid_fields in H as (Hy & Hm & Hd). unfold toordinal.
  pose proof (days_before_year_nonneg (year d)).
  pose proof (days_before_month_nonneg (year d) (month d)). lia.
Qed.

Lemma previous_day_ordinal d d' :
  valid d -> previous_day d = Ok d' ->
  toordinal d' = toordinal d - 1 /\ valid d' /\ time_of d' = time_of d.
Proof.
  intros Hv H. apply valid_fields in Hv as (Hy & Hm & Hd).
  unfold previous_day in H.
  destruct (Z.ltb_spec 1 (day d)) as [Hd1|Hd1].
  - injection H as <-. unfold toordinal, time_of. simpl.
    repeat split; [lia|]. apply valid_intro; lia.
  - destruct (Z.ltb_spec 1 (month d)) as [Hm1|Hm1].
    + injection H as <-. unfold toordinal, time_of. simpl.
      repeat split.
      * pose proof (days_before_month_succ (year d) (month d - 1) ltac:(lia)) as E.
        replace (month d - 1 + 1) with (month d) in E by lia. lia.
      * pose proof (days_in_month_pos (year d) (month d - 1)).
        apply valid_intro; lia.
    + destruct (Z.ltb_spec 1 (year d)) as [Hy1|Hy1]; [|discriminate].
      injection H as <-. unfold toordinal, time_of. simpl.
      repeat split.
      * pose proof (days_before_year_succ (year d - 1) ltac:(lia)) as E.
        replace (year d - 1 + 1) with (year d) in E by lia.
        replace (month d) with 1 by lia.
        unfold days_before_month. simpl. destruct (is_leap (year d - 1)); lia.
      * apply valid_intro; try lia. unfold days_in_month. simpl. lia.
Qed.

Lemma previous_day_raises d e :
  valid d -> previous_day d = Raise e -> toordinal d = 1 /\ e = OverflowError.
Proof.
  intros Hv H. apply valid_fields in Hv as (Hy & Hm & Hd).
  unfold previous_day in H.
  destruct (Z.ltb_spec 1 (day d)); [discriminate|].
  destruct (Z.ltb_spec 1 (month d)); [discriminate|].
  destruct (Z.ltb_spec 1 (year d)); [discriminate|].
  injection H as <-. split; [|reflexivity].
  unfold toordinal. replace (year d) with 1 by lia. replace (month d) with 1 by lia.
  replace (day d) with 1 by lia. reflexivity.
Qed.

Lemma next_day_ordinal d d' :
  valid d -> next_day d = Ok d' ->
  toordinal d' = toordinal d + 1 /\ valid d' /\ time_of d' = time_of d.
Proof.
  intros Hv H. apply valid_fields in Hv as (Hy & Hm & Hd).
  unfold next_day in H.
  destruct (Z.ltb_spec (day d) (days_in_month (year d) (month d))) as [Hd1|Hd1].
  - injection H as <-. unfold toordinal, time_of. simpl.
    repeat split; [lia|]. apply valid_intro; lia.
  - destruct (Z.ltb_spec (month d) 12) as [Hm1|Hm1].
    + injection H as <-. unfold toordinal, time_of. simpl.
      repeat split.
      * pose proof (days_before_month_succ (year d) (month d) ltac:(lia)). lia.
      * pose proof (days_in_month_pos (year d) (month d + 1)).
        apply valid_intro; lia.
    + destruct (Z.ltb_spec (year d) 9999) as [Hy1|Hy1]; [|discriminate].
      injection H as <-. unfold toordinal, time_of. simpl.
      repeat split.
      * pose proof (days_before_year_succ (year d) ltac:(lia)) as E.
        assert (Em : month d = 12) by lia. rewrite Em in *.
        assert (Ed : day d = 31) by (unfold days_in_month in *; simpl in *; lia).
        rewrite Ed. unfold days_before_month. simpl.
        destruct (is_leap (year d)); lia.
      * apply valid_intro; try lia. unfold days_in_month. simpl. lia.
Qed.

Lemma next_day_raises d e :
  valid d -> next_day d = Raise e -> toordinal d = MAXORDINAL /\ e = OverflowError.
Proof.
  intros Hv H. apply valid_fields in Hv as (Hy & Hm & Hd).
  unfold next_day in H.
  destruct (Z.ltb_spec (day d) (days_in_month (year d) (month d))) as [|Hd1];
    [discriminate|].
  destruct (Z.ltb_spec (month d) 12); [discriminate|].
  destruct (Z.ltb_spec (year d) 9999); [discriminate|].
  injection H as <-. split; [|reflexivity].
  assert (Ey : year d = 9999) by lia. assert (Em : month d = 12) by lia.
  unfold toordinal. rewrite Ey, Em in *.
  change (days_in_month 9999 12) with 31 in *.
  assert (Ed : day d = 31) by lia.
  rewrite Ed. reflexivity.
Qed.

Lemma minus_days_ok n : forall d,
  valid d -> Z.of_nat n < toordinal d ->
  exists d', minus_days n d = Ok d'
    /\ toordinal d' = toordinal d - Z.of_nat n
    /\ valid d' /\ time_of d' = time_of d.
Proof.
  induction n as [|n IH]; intros d Hv Hn.
  - exists d. simpl. repeat split; auto; lia.
  - cbn [minus_days]. destruct (previous_day d) as [d1|e] eqn:E.
    + destruct (previous_day_ordinal d d1 Hv E) as (Ho & Hv1 & Ht).
      destruct (IH d1 Hv1 ltac:(lia)) as (d' & Hm & Ho' & Hv' & Ht').
      exists d'. repeat split; auto; [lia | congruence].
    + destruct (previous_day_raises d e Hv E) as [Ho _]. lia.
Qed.

Lemma minus_days_overflow n : forall d,
  valid d -> toordinal d <= Z.of_nat n -> minus_days n d = Raise OverflowError.
Proof.
  induction n as [|n IH]; intros d Hv Hn.
  - pose proof (toordinal_pos d Hv). simpl in Hn. lia.
  - cbn [minus_days]. destruct (previous_day d) as [d1|e] eqn:E.
    + destruct (previous_day_ordinal d d1 Hv E) as (Ho & Hv1 & _).
      apply IH; [exact Hv1 | lia].
    + destruct (previous_day_raises d e Hv E) as [_ ->]. reflexivity.
Qed.

Lemma plus_days_ok n : forall d,
  valid d -> toordinal d + Z.of_nat n <= MAXORDINAL ->
  exists d', plus_days n d = Ok d'
    /\ toordinal d' = toordinal d + Z.of_nat n
    /\ valid d' /\ time_of d' = time_of d.
Proof.
  induction n as [|n IH]; intros d Hv Hn.
  - exists d. simpl. repeat split; auto; lia.
  - cbn [plus_days]. destruct (next_day d) as [d1|e] eqn:E.
    + destruct (next_day_ordinal d d1 Hv E) as (Ho & Hv1 & Ht).
      destruct (IH d1 Hv1 ltac:(lia)) as (d' & Hm & Ho' & Hv' & Ht').
      exists d'. repeat split; auto; [lia | congruence].
    + destruct (next_day_raises d e Hv E) as [Ho _]. lia.
Qed.

Lemma days_before_year_mono y1 y2 :
  1 <= y1 <= y2 -> days_before_year y1 <= days_before_year y2.
Proof.
  intros H. replace y2 with (y1 + Z.of_nat (Z.to_nat (y2 - y1))) by lia.
  generalize (Z.to_nat (y2 - y1)) as k. intros k.
  induction k as [|k IH]; [rewrite Z.add_0_r; lia|].
  replace (y1 + Z.of_nat (S k)) with (y1 + Z.of_nat k + 1) by lia.
  rewrite days_before_year_succ by lia.
  destruct (is_leap (y1 + Z.of_nat k)); lia.
Qed.

Lemma day_of_year_bounds y m d :
  1 <= m <= 12 -> 1 <= d <= days_in_month y m ->
  1 <= days_before_month y m + d <= 365 + (if is_leap y then 1 else 0).
Proof.
  intros Hm Hd. unfold days_before_month, days_in_month in *.
  each_month Hm; simpl in *; destruct (is_leap y); lia.
Qed.

Lemma toordinal_year_bounds d :
  valid d ->
  days_before_year (year d) < toordinal d <= days_before_year (year d + 1).
Proof.
  intros Hv. apply valid_fields in Hv as (Hy & Hm & Hd).
  pose proof (day_of_year_bounds (year d) (month d) (day d) Hm Hd).
  rewrite days_before_year_succ by lia. unfold toordinal. lia.
Qed.

Lemma toordinal_le_max d : valid d -> toordinal d <= MAXORDINAL.
Proof.
  intros Hv. pose proof (toordinal_year_bounds d Hv) as [_ H].
  apply valid_fields in Hv as (Hy & _ & _).
  pose proof (days_before_year_mono (year d + 1) 10000 ltac:(lia)) as Hm.
  change (days_before_year 10000) with MAXORDINAL in Hm. lia.
Qed.

Lemma plus_days_overflow n : forall d,
  valid d -> MAXORDINAL < toordinal d + Z.of_nat n ->
  plus_days n d = Raise OverflowError.
Proof.
  induction n as [|n IH]; intros d Hv Hn.
  - pose proof (toordinal_le_max d Hv). simpl in Hn. lia.
  - cbn [plus_days]. destruct (next_day d) as [d1|e] eqn:E.
    + destruct (next_day_ordinal d d1 Hv E) as (Ho & Hv1 & _).
      apply IH; [exact Hv1 | lia].
    + destruct (next_day_raises d e Hv E) as [_ ->]. reflexivity.
Qed.

(** Two dates of the calendar with the same ordinal are the same day. *)
Lemma toordinal_inj a b :
  valid a -> valid b -> toordinal a = toordinal b -> same_day a b.
Proof.
  intros Ha Hb E.
  pose proof (toordinal_year_bounds a Ha) as Ba.
  pose proof (toordinal_year_bounds b Hb) as Bb.
  apply valid_fields in Ha as (Hya & Hma & Hda).
  apply valid_fields in Hb as (Hyb & Hmb & Hdb).
  destruct a as [ya ma da ha na sa ua], b as [yb mb db hb nb sb ub].
  unfold same_day, toordinal in *. cbn [year month day] in *.
  assert (Ey : ya = yb).
  { destruct (Z.lt_trichotomy ya yb) as [Hlt|[Heq|Hgt]]; [|exact Heq|].
    - pose proof (days_before_year_mono (ya + 1) yb ltac:(lia)). lia.
    - pose proof (days_before_year_mono (yb + 1) ya ltac:(lia)). lia. }
  subst yb. split; [reflexivity|].
  assert (E' : days_before_month ya ma + da = days_before_month ya mb + db) by lia.
  clear -E' Hma Hmb Hda Hdb.
  unfold days_before_month, days_in_month in *.
  each_month Hma; each_month Hmb; simpl in *; destruct (is_leap ya); lia.
Qed.

(** ** The cutoff and the week *)

Lemma weekday_range d : 0 <= weekday d < 7.
Proof. unfold weekday. apply Z.mod_pos_bound. lia. Qed.

Lemma weekday_below_ordinal d : valid d -> weekday d < toordinal d.
Proof.
  intros Hv. pose proof (toordinal_pos d Hv). unfold weekday.
  Z.div_mod_to_equations. lia.
Qed.

Lemma get_week_dates_ok w :
  valid (now_seen w) ->
  toordinal (now_seen w) - weekday (now_seen w) + 6 <= MAXORDINAL ->
  exists start_of_week end_of_week,
    get_week_dates w
    = (Ok (start_of_week, end_of_week),
       mkWorld (clock w) (S (reads w)) (pending w) (written w))
    /\ toordinal start_of_week = toordinal (now_seen w) - weekday (now_seen w)
    /\ toordinal end_of_week = toordinal start_of_week + 6
    /\ valid start_of_week /\ valid end_of_week
    /\ time_of start_of_week = time_of (now_seen w)
    /\ time_of end_of_week = time_of (now_seen w).
Proof.
  intros Hv Hmax. unfold get_week_dates, bind, datetime_now. fold (now_seen w).
  pose proof (weekday_range (now_seen w)) as Hr.
  pose proof (weekday_below_ordinal _ Hv) as Hb.
  destruct (minus_days_ok (Z.to_nat (weekday (now_seen w))) (now_seen w) Hv
              ltac:(lia)) as (s & Hs & Hos & Hvs & Hts).
  rewrite Z2Nat.id in Hos by lia.
  destruct (plus_days_ok 6 s Hvs ltac:(simpl; lia)) as (e & He & Hoe & Hve & Hte).
  rewrite Hs, He. exists s, e. repeat split; auto. congruence.
Qed.

Lemma get_week_dates_overflow w :
  valid (now_seen w) ->
  MAXORDINAL < toordinal (now_seen w) - weekday (now_seen w) + 6 ->
  get_week_dates w
  = (Raise OverflowError, mkWorld (clock w) (S (reads w)) (pending w) (written w)).
Proof.
  intros Hv Hmax. unfold get_week_dates, bind, datetime_now. fold (now_seen w).
  pose proof (weekday_range (now_seen w)) as Hr.
  pose proof (weekday_below_ordinal _ Hv) as Hb.
  destruct (minus_days_ok (Z.to_nat (weekday (now_seen w))) (now_seen w) Hv
              ltac:(lia)) as (s & Hs & Hos & Hvs & Hts).
  rewrite Z2Nat.id in Hos by lia.
  rewrite Hs, (plus_days_overflow 6 s Hvs) by (simpl; lia). reflexivity.
Qed.

(** X16. The cutoff is the reading of the clock seven days back: same
    time of day, same day of the week, ordinal less by 7.  The subtraction
    raises [OverflowError] exactly for a clock in the first seven days of
    year 1; the clock has been read either way. *)
Theorem cutoff_is_seven_days_back w :
  valid (now_seen w) ->
  (7 < toordinal (now_seen w) ->
   exists cutoff_date,
     get_cutoff_date w
     = (Ok cutoff_date, mkWorld (clock w) (S (reads w)) (pending w) (written w))
     /\ toordinal cutoff_date = toordinal (now_seen w) - 7
     /\ weekday cutoff_date = weekday (now_seen w)
     /\ time_of cutoff_date = time_of (now_seen w)
     /\ valid cutoff_date)
  /\ (toordinal (now_seen w) <= 7 ->
      get_cutoff_date w
      = (Raise OverflowError,
         mkWorld (clock w) (S (reads w)) (pending w) (written w))).
Proof.
  intros Hv. unfold get_cutoff_date, bind, datetime_now. fold (now_seen w). split.
  - intros Ho.
    destruct (minus_days_ok 7 (now_seen w) Hv ltac:(simpl; lia))
      as (c & Hc & Hoc & Hvc & Htc).
    rewrite Hc. exists c. repeat split; auto.
    unfold weekday. rewrite Hoc. Z.div_mod_to_equations. lia.
  - intros Ho. rewrite (minus_days_overflow 7 _ Hv) by (simpl; lia). reflexivity.
Qed.

Lemma cutoff_is_seven_days_back_witness :
  (7 < toordinal (now_seen sample_world_a) ->
   exists cutoff_date,
     get_cutoff_date sample_world_a
     = (Ok cutoff_date,
        mkWorld (clock sample_world_a) (S (reads sample_world_a))
          (pending sample_world_a) (written sample_world_a))
     /\ toordinal cutoff_date = toordinal (now_seen sample_world_a) - 7
     /\ weekday cutoff_date = weekday (now_seen sample_world_a)
     /\ time_of cutoff_date = time_of (now_seen sample_world_a)
     /\ valid cutoff_date)
  /\ (toordinal (now_seen sample_world_a) <= 7 ->
      get_cutoff_date sample_world_a
      = (Raise OverflowError,
         mkWorld (clock sample_world_a) (S (reads sample_world_a))
           (pending sample_world_a) (written sample_world_a))).
Proof.
  apply (cutoff_is_seven_days_back sample_world_a). vm_compute. reflexivity.
Defined.

(** X17. [get_week_dates] gives the Monday and the Sunday of the week of
    the clock's reading, both at the time of day of the reading.  Going
    back to Monday never leaves the calendar, since 0001-01-01 is a
    Monday; going on to Sunday raises [OverflowError] exactly in the last
    week of year 9999, whose Sunday would be in year 10000. *)
Theorem week_runs_from_monday_to_sunday w :
  valid (now_seen w) ->
  (toordinal (now_seen w) - weekday (now_seen w) + 6 <= MAXORDINAL ->
   exists start_of_week end_of_week,
     get_week_dates w
     = (Ok (start_of_week, end_of_week),
        mkWorld (clock w) (S (reads w)) (pending w) (written w))
     /\ weekday start_of_week = 0 /\ weekday end_of_week = 6
     /\ toordinal start_of_week <= toordinal (now_seen w) <= toordinal end_of_week
     /\ toordinal end_of_week = toordinal start_of_week + 6
     /\ time_of start_of_week = time_of (now_seen w)
     /\ time_of end_of_week = time_of (now_seen w)
     /\ valid start_of_week /\ valid end_of_week)
  /\ (MAXORDINAL < toordinal (now_seen w) - weekday (now_seen w) + 6 ->
      get_week_dates w
      = (Raise OverflowError,
         mkWorld (clock w) (S (reads w)) (pending w) (written w))).
Proof.
  intros Hv. split; [|apply get_week_dates_overflow, Hv].
  intros Hmax.
  destruct (get_week_dates_ok w Hv Hmax)
    as (s & e & Hg & Hos & Hoe & Hvs & Hve & Hts & Hte).
  pose proof (weekday_range (now_seen w)) as Hr.
  exists s, e. repeat split; auto; try lia.
  - unfold weekday in *. rewrite Hos. Z.div_mod_to_equations. lia.
  - unfold weekday in *. rewrite Hoe, Hos. Z.div_mod_to_equations. lia.
Qed.

Lemma week_runs_from_monday_to_sunday_witness :
  (toordinal (now_seen sample_world_a) - weekday (now_seen sample_world_a) + 6
   <= MAXORDINAL ->
   exists start_of_week end_of_week,
     get_week_dates sample_world_a
     = (Ok (start_of_week, end_of_week),
        mkWorld (clock sample_world_a) (S (reads sample_world_a))
          (pending sample_world_a) (written sample_world_a))
     /\ weekday start_of_week = 0 /\ weekday end_of_week = 6
     /\ toordinal start_of_week <= toordinal (now_seen sample_world_a)
        <= toordinal end_of_week
     /\ toordinal end_of_week = toordinal start_of_week + 6
     /\ time_of start_of_week = time_of (now_seen sample_world_a)
     /\ time_of end_of_week = time_of (now_seen sample_world_a)
     /\ valid start_of_week /\ valid end_of_week)
  /\ (MAXORDINAL
      < toordinal (now_seen sample_world_a) - weekday (now_seen sample_world_a) + 6 ->
      get_week_dates sample_world_a
      = (Raise OverflowError,
         mkWorld (clock sample_world_a) (S (reads sample_world_a))
           (pending sample_world_a) (written sample_world_a))).
Proof.
  apply (week_runs_from_monday_to_sunday sample_world_a). vm_compute. reflexivity.
Defined.

(** ** The name of the playlist *)

Lemma generate_playlist_name_eq w :
  generate_playlist_name w
  = match get_week_dates w with
    | (Ok (start_week, end_week), w') =>
        (Ok (lit "Weekly New Drops - " ++ strftime_b_d start_week ++ lit " to "
             ++ strftime_b_d_Y end_week), w')
    | (Raise e, w') => (Raise e, w')
    end.
Proof.
  unfold generate_playlist_name, bind.
  destruct (get_week_dates w) as [[[s e]|x] w']; reflexivity.
Qed.

Lemma same_day_strftime a b :
  same_day a b ->
  strftime_b_d a = strftime_b_d b /\ strftime_b_d_Y a = strftime_b_d_Y b.
Proof.
  intros (Hy & Hm & Hd). unfold strftime_b_d, strftime_b_d_Y.
  rewrite Hy, Hm, Hd. auto.
Qed.

(** X18. The name of the playlist depends on the week only: two readings
    of the clock in the same week - the same Monday, whatever the days
    and the times - give the same name, or both fail in the last week of
    year 9999. *)
Theorem playlist_name_depends_on_the_week_only w1 w2 :
  valid (now_seen w1) -> valid (now_seen w2) ->
  toordinal (now_seen w1) - weekday (now_seen w1)
  = toordinal (now_seen w2) - weekday (now_seen w2) ->
  fst (generate_playlist_name w1) = fst (generate_playlist_name w2).
Proof.
  intros Hv1 Hv2 Hweek. rewrite !generate_playlist_name_eq.
  destruct (Z.le_gt_cases
              (toordinal (now_seen w1) - weekday (now_seen w1) + 6) MAXORDINAL)
    as [Hle|Hgt].
  - destruct (get_week_dates_ok w1 Hv1 Hle)
      as (s1 & e1 & -> & Hs1 & He1 & Hvs1 & Hve1 & _).
    rewrite Hweek in Hle.
    destruct (get_week_dates_ok w2 Hv2 Hle)
      as (s2 & e2 & -> & Hs2 & He2 & Hvs2 & Hve2 & _).
    cbn [fst].
    destruct (same_day_strftime s1 s2) as [-> _];
      [apply toordinal_inj; auto; lia|].
    destruct (same_day_strftime e1 e2) as [_ ->];
      [apply toordinal_inj; auto; lia|].
    reflexivity.
  - rewrite (get_week_dates_overflow w1 Hv1) by lia.
    rewrite (get_week_dates_overflow w2 Hv2) by lia. reflexivity.
Qed.

Lemma playlist_name_depends_on_the_week_only_witness :
  fst (generate_playlist_name (world_at (mkDatetime 2025 12 29 9 0 0 0) []))
  = fst (generate_playlist_name (world_at (mkDatetime 2026 1 4 23 59 59 0) [])).
Proof.
  apply (playlist_name_depends_on_the_week_only
           (world_at (mkDatetime 2025 12 29 9 0 0 0) [])
           (world_at (mkDatetime 2026 1 4 23 59 59 0) []));
    vm_compute; reflexivity.
Defined.

Lemma digit_value_digit_char k : 0 <= k <= 9 -> digit_value (digit_char k) = k.
Proof.
  intros Hk. unfold digit_value, digit_char, DECIMAL_ZEROS. cbn [find].
  assert (E : between 48 (48 + 9) (48 + k) = true) by (apply between_spec; lia).
  rewrite E. lia.
Qed.

Lemma number_snoc s c : number (s ++ [c]) = 10 * number s + digit_value c.
Proof. unfold number. rewrite fold_left_app. reflexivity. Qed.

Lemma number_decimal_digits fuel : forall n,
  0 <= n -> (Z.to_nat n < fuel)%nat -> number (decimal_digits fuel n) = n.
Proof.
  induction fuel as [|fuel IH]; intros n Hn Hf; [lia|].
  cbn [decimal_digits]. destruct (Z.ltb_spec n 10) as [Hlt|Hge].
  - unfold number. simpl. rewrite digit_value_digit_char by lia. lia.
  - rewrite number_snoc, IH, digit_value_digit_char.
    + Z.div_mod_to_equations. lia.
    + Z.div_mod_to_equations. lia.
    + Z.div_mod_to_equations. lia.
    + assert (n / 10 < n) by (Z.div_mod_to_equations; lia). lia.
Qed.

Lemma number_decimal n : 0 <= n -> number (decimal n) = n.
Proof. intros Hn. apply number_decimal_digits; [exact Hn | lia]. Qed.

Lemma two_digit_inj a b :
  0 <= a < 100 -> 0 <= b < 100 -> two_digit a = two_digit b -> a = b.
Proof.
  intros Ha Hb H. unfold two_digit in H. injection H as H1 H2.
  apply (f_equal digit_value) in H1, H2.
  rewrite !digit_value_digit_char in H1, H2
    by (Z.div_mod_to_equations; lia).
  Z.div_mod_to_equations. lia.
Qed.

Lemma month_abbr_inj a b :
  1 <= a <= 12 -> 1 <= b <= 12 -> month_abbr a = month_abbr b -> a = b.
Proof.
  intros Ha Hb. each_month Ha; each_month Hb; intros H;
    try reflexivity; discriminate H.
Qed.

Lemma month_abbr_three m :
  1 <= m <= 12 -> exists a b c, month_abbr m = [a; b; c].
Proof. intros Hm. each_month Hm; eexists _, _, _; reflexivity. Qed.

(** The text of a valid date in the name gives the day back. *)
Lemma strftime_b_d_Y_inj a b :
  valid a -> valid b -> strftime_b_d_Y a = strftime_b_d_Y b -> same_day a b.
Proof.
  intros Ha Hb H.
  apply valid_fields in Ha as (Hya & Hma & Hda).
  apply valid_fields in Hb as (Hyb & Hmb & Hdb).
  pose proof (days_in_month_le_31 (year a) (month a)).
  pose proof (days_in_month_le_31 (year b) (month b)).
  unfold strftime_b_d_Y in H.
  destruct (month_abbr_three (month a) Hma) as (a1 & a2 & a3 & Ea).
  destruct (month_abbr_three (month b) Hmb) as (b1 & b2 & b3 & Eb).
  rewrite Ea, Eb in H. unfold two_digit in H.
  cbn [app lit list_ascii_of_string] in H.
  injection H as E1 E2 E3 E4 E5 Ey.
  assert (Em : month a = month b).
  { apply month_abbr_inj; auto. rewrite Ea, Eb. congruence. }
  assert (Ed : day a = day b).
  { apply two_digit_inj; try lia. unfold two_digit. congruence. }
  assert (Eyear : year a = year b).
  { rewrite <- (number_decimal (year a)), <- (number_decimal (year b)) by lia.
    congruence. }
  unfold same_day. auto.
Qed.

Lemma same_day_toordinal a b : same_day a b -> toordinal a = toordinal b.
Proof. intros (Hy & Hm & Hd). unfold toordinal. rewrite Hy, Hm, Hd. reflexivity. Qed.

Lemma generate_playlist_name_returns w name w' :
  valid (now_seen w) ->
  generate_playlist_name w = (Ok name, w') ->
  exists start_week end_week,
    name = lit "Weekly New Drops - " ++ strftime_b_d start_week ++ lit " to "
           ++ strftime_b_d_Y end_week
    /\ toordinal start_week = toordinal (now_seen w) - weekday (now_seen w)
    /\ toordinal end_week = toordinal start_week + 6
    /\ valid start_week /\ valid end_week.
Proof.
  intros Hv H. rewrite generate_playlist_name_eq in H.
  destruct (Z.le_gt_cases
              (toordinal (now_seen w) - weekday (now_seen w) + 6) MAXORDINAL)
    as [Hle|Hgt].
  - destruct (get_week_dates_ok w Hv Hle) as (s & e & Hg & Hs & He & Hvs & Hve & _).
    rewrite Hg in H. injection H as <- _. exists s, e. auto.
  - rewrite (get_week_dates_overflow w Hv) in H by lia. discriminate.
Qed.

(** X19. The name identifies the week: two runs that give the same name
    read their clocks in the same week, so the playlists of two different
    weeks never have the same name. *)
Theorem playlist_name_identifies_the_week w1 w2 name w1' w2' :
  valid (now_seen w1) -> valid (now_seen w2) ->
  generate_playlist_name w1 = (Ok name, w1') ->
  generate_playlist_name w2 = (Ok name, w2') ->
  toordinal (now_seen w1) - weekday (now_seen w1)
  = toordinal (now_seen w2) - weekday (now_seen w2).
Proof.
  intros Hv1 Hv2 H1 H2.
  apply generate_playlist_name_returns in H1
    as (s1 & e1 & Hn1 & Hs1 & He1 & Hvs1 & Hve1); [|exact Hv1].
  apply generate_playlist_name_returns in H2
    as (s2 & e2 & Hn2 & Hs2 & He2 & Hvs2 & Hve2); [|exact Hv2].
  rewrite Hn1 in Hn2. apply app_inv_head in Hn2.
  unfold strftime_b_d in Hn2.
  destruct (month_abbr_three (month s1)) as (a1 & a2 & a3 & Ea);
    [apply valid_fields in Hvs1; tauto|].
  destruct (month_abbr_three (month s2)) as (b1 & b2 & b3 & Eb);
    [apply valid_fields in Hvs2; tauto|].
  rewrite Ea, Eb in Hn2. unfold two_digit in Hn2.
  cbn [app lit list_ascii_of_string] in Hn2.
  assert (He : strftime_b_d_Y e1 = strftime_b_d_Y e2)
    by (injection Hn2; auto).
  apply strftime_b_d_Y_inj in He; [|assumption..].
  apply same_day_toordinal in He. lia.
Qed.

Lemma playlist_name_identifies_the_week_witness :
  toordinal (now_seen (world_at (mkDatetime 2025 12 29 9 0 0 0) []))
  - weekday (now_seen (world_at (mkDatetime 2025 12 29 9 0 0 0) []))
  = toordinal (now_seen (world_at (mkDatetime 2026 1 4 23 59 59 0) [NoResult]))
    - weekday (now_seen (world_at (mkDatetime 2026 1 4 23 59 59 0) [NoResult])).
Proof.
  apply (playlist_name_identifies_the_week
           (world_at (mkDatetime 2025 12 29 9 0 0 0) [])
           (world_at (mkDatetime 2026 1 4 23 59 59 0) [NoResult])
           (lit "Weekly New Drops - Dec 29 to Jan 04, 2026")
           (snd (generate_playlist_name (world_at (mkDatetime 2025 12 29 9 0 0 0) [])))
           (snd (generate_playlist_name
                   (world_at (mkDatetime 2026 1 4 23 59 59 0) [NoResult]))));
    vm_compute; reflexivity.
Defined.

(** ** Runs that fail, and runs that return *)









(** ** Scenarios *)

Example extract_good_vibes :
  extract_track_info_with_dates
    (result_line "1" "Good Vibes" "Future" "3:20" "2025-01-01" "abc123")
  = [mkTrack (lit "Good Vibes") (lit "Future") (lit "2025-01-01") (lit "abc123")].
Proof. vm_compute. reflexivity. Qed.

Example extract_two_lines :
  extract_track_info_with_dates
    (result_line "1" "A" "Metro Boomin, Future" "3:20" "2025-01" "x1"
     ++ [newline] ++ lit "noise" ++ [newline]
     ++ result_line "12" "B" "Future" "4:01" "Unknown" "y2 trailing")
  = [mkTrack (lit "A") (lit "Metro Boomin, Future") (lit "2025-01") (lit "x1");
     mkTrack (lit "B") (lit "Future") (lit "Unknown") (lit "y2")].
Proof. vm_compute. reflexivity. Qed.

Example parse_examples :
  map parse_spotify_date
      [lit "Unknown"; lit "2025-03-15"; lit "2025-03"; lit "2025"; []; lit "2025-13-01";
       lit "2025-02-29"; lit "2024-02-29"; lit "0000"; lit "2025-03- 5"; lit " 2025 ";
       lit "2025-3-5"; lit "2025-03-32"]
  = [None; Some (midnight 2025 3 15); Some (midnight 2025 3 1); Some (midnight 2025 1 1);
     None; None; None; Some (midnight 2024 2 29); None; Some (midnight 2025 3 5);
     Some (midnight 2025 1 1); None; None].
Proof. vm_compute. reflexivity. Qed.

(** Tokens that [strptime] and [int] read although they are not of the
    three ASCII shapes: a blank before a one-digit day, and decimal digits
    of another script (here Arabic-Indic). *)
Example tokens_outside_the_shapes :
  map parse_spotify_date
      [lit "2025-03- 5"; [1634; 1632; 1634; 1637]; lit "2025-03-1" ++ [1637];
       lit "2025-03-" ++ [1633; 1637]]
  = [Some (midnight 2025 3 5); Some (midnight 2025 1 1); Some (midnight 2025 3 15);
     None].
Proof. vm_compute. reflexivity. Qed.

Example lower_examples :
  lower (lit "Metro Boomin, FUTURE") = lit "metro boomin, future"
  /\ lower [913; CAPITAL_SIGMA] = [945; SMALL_FINAL_SIGMA]
  /\ lower [CAPITAL_SIGMA; 913] = [SMALL_SIGMA; 945]
  /\ lower [CAPITAL_SIGMA] = [SMALL_SIGMA]
  /\ lower [304] = [105; 775].
Proof. vm_compute. repeat split. Qed.

Example minus_days_examples :
  minus_days 7 (mkDatetime 2025 1 10 9 30 0 5) = Ok (mkDatetime 2025 1 3 9 30 0 5)
  /\ minus_days 7 (mkDatetime 2025 1 5 0 0 0 0) = Ok (mkDatetime 2024 12 29 0 0 0 0)
  /\ minus_days 7 (mkDatetime 2024 3 3 0 0 0 0) = Ok (mkDatetime 2024 2 25 0 0 0 0)
  /\ minus_days 7 (mkDatetime 1 1 5 0 0 0 0) = Raise OverflowError.
Proof. vm_compute. repeat split. Qed.

Example select_scenarios :
  let line := result_line "1" "Good Vibes" "Future" "3:20" "2025-01-01" "abc123" in
  fst (search_artist_tracks 4 (lit "Future")
         (world_at (mkDatetime 2025 1 10 12 0 0 0) [ResultText line])) = Ok ([], 7)
  /\ fst (search_artist_tracks 4 (lit "Future")
         (world_at (mkDatetime 2025 1 5 12 0 0 0) [ResultText line; ResultText line]))
     = Ok ([mkTrack (lit "Good Vibes") (lit "Future") (lit "2025-01-01") (lit "abc123")], 7).
Proof. vm_compute. split; reflexivity. Qed.
